(** * vscode-go [src/util.ts]: the tool-output diagnostic pipeline

    A shallow embedding of the diagnostic core of [util.ts] -- [GoVersion],
    [LineBuffer], the output parser of [runTool], the merge step of
    [handleDiagnosticErrors] / [deDupeDiagnostics] and the memoized byte
    offset converter -- followed by the properties established about it.

    Conventions.  A JavaScript string is a [string]: a sequence of code
    units, restricted here to the units below 256.  A JavaScript number that
    holds an integer is a [Z]; [NaN] and [undefined] are [None].  The
    editor, the process runner and the [path] / [semver] packages are not
    part of the file: they enter as interfaces (type classes and section
    variables), with reference instances where a closed example needs one. *)

From Stdlib Require Import ZArith Lia Bool Ascii String List DecimalString.
From stdpp Require Import base option list gmap strings.

Local Open Scope Z_scope.

(** ** Part I.  The embedding *)

(** *** JavaScript string primitives *)

Definition LF : ascii := "010"%char.
Definition CR : ascii := "013"%char.
Definition TAB : ascii := "009"%char.

(** [s.startsWith(p)] *)
Fixpoint startsWith (s p : string) {struct p} : bool :=
  match p, s with
  | EmptyString, _ => true
  | String a p', String b s' => if Ascii.eqb a b then startsWith s' p' else false
  | String _ _, EmptyString => false
  end.

(** [s.indexOf(p)]; [None] stands for [-1]. *)
Fixpoint indexOf (s p : string) : option nat :=
  if startsWith s p then Some O
  else match s with
       | EmptyString => None
       | String _ s' => S <$> indexOf s' p
       end.

(** [s.substring(0, n)] and [s.substring(n)] for [0 <= n]. *)
Fixpoint take_str (n : nat) (s : string) : string :=
  match n, s with
  | S n', String a s' => String a (take_str n' s')
  | _, _ => EmptyString
  end.

Fixpoint drop_str (n : nat) (s : string) : string :=
  match n, s with
  | S n', String _ s' => drop_str n' s'
  | _, _ => s
  end.

(** [s.split(c)] for a one-character separator: never empty, [""] splits
    into [[""]]. *)
Fixpoint split (c : ascii) (s : string) : list string :=
  match s with
  | EmptyString => [EmptyString]
  | String a s' =>
      if Ascii.eqb a c then EmptyString :: split c s'
      else match split c s' with
           | h :: t => String a h :: t
           | [] => [String a EmptyString]
           end
  end.

(** [+s] for a string of decimal digits (the only strings the parser
    converts): the integer it denotes, which the JavaScript number equals
    up to 2^53. *)
Definition digit_val (a : ascii) : Z := Z.of_nat (nat_of_ascii a) - 48.

Fixpoint digits_to_Z (acc : Z) (s : string) : Z :=
  match s with
  | EmptyString => acc
  | String a s' => digits_to_Z (10 * acc + digit_val a) s'
  end.

Definition toNumber (s : option string) : option Z :=
  digits_to_Z 0 <$> s.

(** *** Regular expressions

    The fragment of ECMAScript regular expressions the file uses, with the
    backtracking semantics of [RegExp.prototype.exec]: greedy quantifiers,
    leftmost match, numbered capture groups, groups of an alternative that
    did not take part left undefined.  Quantifiers [*] and [+] occur in the
    file on character classes only. *)

Definition charclass := ascii -> bool.

Definition in_range (lo hi : nat) (a : ascii) : bool :=
  let n := nat_of_ascii a in (lo <=? n)%nat && (n <=? hi)%nat.

(** [.] : anything but a line terminator *)
Definition cc_dot : charclass := fun a => negb (Ascii.eqb a LF || Ascii.eqb a CR).
(** [\d] *)
Definition cc_digit : charclass := in_range 48 57.
(** [[a-zA-Z0-9]] *)
Definition cc_alnum : charclass :=
  fun a => in_range 97 122 a || in_range 65 90 a || in_range 48 57 a.
(** [\w] *)
Definition cc_word : charclass := fun a => cc_alnum a || Ascii.eqb a "_".
(** [\s] *)
Definition cc_space : charclass :=
  fun a => in_range 9 13 a || Ascii.eqb a " " || (nat_of_ascii a =? 160)%nat.
(** [[^c]] *)
Definition cc_not (c : ascii) : charclass := fun a => negb (Ascii.eqb a c).
(** a literal character *)
Definition cc_is (c : ascii) : charclass := fun a => Ascii.eqb a c.

Inductive regex : Type :=
| REps                                  (* the empty pattern *)
| RChar (p : charclass)                 (* one character of a class *)
| RStar (p : charclass)                 (* class*  *)
| RPlus (p : charclass)                 (* class+  *)
| RRep (lo hi : nat) (p : charclass)    (* class{lo,hi} *)
| RSeq (r1 r2 : regex)                  (* r1 r2 *)
| RAlt (r1 r2 : regex)                  (* r1|r2 *)
| ROpt (r : regex)                      (* (?:r)? *)
| RGroup (n : nat) (r : regex)          (* capture group number n *)
| RBol                                  (* ^ *)
| REol.                                 (* $ *)

(** A literal string, and the concatenation of a list of patterns. *)
Fixpoint RLit (s : string) : regex :=
  match s with
  | EmptyString => REps
  | String a s' => RSeq (RChar (cc_is a)) (RLit s')
  end.

Definition rcat (rs : list regex) : regex := fold_right RSeq REps rs.

(** Captures: the most recent binding of a group number comes first. *)
Definition captures := list (nat * string).

Fixpoint capture (n : nat) (cs : captures) : option string :=
  match cs with
  | [] => None
  | (m, s) :: cs' => if (m =? n)%nat then Some s else capture n cs'
  end.

Section Matcher.
Context {R : Type}.

(** Greedy iteration of a class: at least [lo] and at most [hi] more
    characters ([hi = None]: unbounded), longest first. *)
Fixpoint rep_class (p : charclass) (lo : nat) (hi : option nat)
         (s : string) (k : string -> option R) : option R :=
  let stop := match lo with O => k s | S _ => None end in
  match hi with
  | Some O => stop
  | _ =>
      match s with
      | String a s' =>
          if p a then
            match rep_class p (Nat.pred lo) (Nat.pred <$> hi) s' k with
            | Some r => Some r
            | None => stop
            end
          else stop
      | EmptyString => stop
      end
  end.

(** [rmatch n r s cs k]: match [r] at the suffix [s] of an input of length
    [n], then continue with [k]; [None] makes the caller backtrack. *)
Fixpoint rmatch (n : nat) (r : regex) (s : string) (cs : captures)
         (k : string -> captures -> option R) : option R :=
  match r with
  | REps => k s cs
  | RChar p =>
      match s with
      | String a s' => if p a then k s' cs else None
      | EmptyString => None
      end
  | RStar p => rep_class p 0 None s (fun s' => k s' cs)
  | RPlus p => rep_class p 1 None s (fun s' => k s' cs)
  | RRep lo hi p => rep_class p lo (Some hi) s (fun s' => k s' cs)
  | RSeq r1 r2 => rmatch n r1 s cs (fun s' cs' => rmatch n r2 s' cs' k)
  | RAlt r1 r2 =>
      match rmatch n r1 s cs k with
      | Some x => Some x
      | None => rmatch n r2 s cs k
      end
  | ROpt r1 =>
      (* an iteration that consumes nothing is rejected *)
      match rmatch n r1 s cs
              (fun s' cs' =>
                 if (String.length s' =? String.length s)%nat then None
                 else k s' cs') with
      | Some x => Some x
      | None => k s cs
      end
  | RGroup g r1 =>
      rmatch n r1 s cs
        (fun s' cs' =>
           k s' ((g, take_str (String.length s - String.length s') s) :: cs'))
  | RBol => if (String.length s =? n)%nat then k s cs else None
  | REol => match s with EmptyString => k s cs | _ => None end
  end.
End Matcher.

(** The result of [exec]: element [0] is the matched text, element [i] the
    text of group [i], when it took part in the match. *)
Record MatchArray := { m_whole : string; m_groups : captures }.

Definition m_get (m : MatchArray) (i : nat) : option string :=
  match i with
  | O => Some (m_whole m)
  | _ => capture i (m_groups m)
  end.

Definition match_at (n : nat) (r : regex) (s : string) : option MatchArray :=
  rmatch n r s []
    (fun s' cs =>
       Some {| m_whole := take_str (String.length s - String.length s') s;
               m_groups := cs |}).

Fixpoint search (n : nat) (r : regex) (s : string) : option MatchArray :=
  match match_at n r s with
  | Some m => Some m
  | None =>
      match s with
      | EmptyString => None
      | String _ s' => search n r s'
      end
  end.

(** [r.exec(s)] for a regular expression without flags. *)
Definition exec (r : regex) (s : string) : option MatchArray :=
  search (String.length s) r s.

(** *** The [path] package

    [runTool] uses three members of Node's [path]: [sep], [isAbsolute] and
    [resolve].  They depend on the platform, so the parser is stated over
    the interface; [posix_path] is the POSIX implementation. *)

Class PathModule := {
  path_sep : ascii;
  path_isAbsolute : string -> bool;
  path_resolve : string -> string -> string   (* path.resolve(from, to) *)
}.

(** [normalizeString] of Node's [path], on the list of segments: empty
    segments and [.] vanish, [..] removes the segment before it (and is
    kept above the root only when [allowAboveRoot]).  [acc] is reversed. *)
Fixpoint normalizeSegments (allowAboveRoot : bool) (acc segs : list string)
  : list string :=
  match segs with
  | [] => rev acc
  | seg :: rest =>
      if String.eqb seg "" || String.eqb seg "." then
        normalizeSegments allowAboveRoot acc rest
      else if String.eqb seg ".." then
        match acc with
        | last :: acc' =>
            if String.eqb last ".." then
              normalizeSegments allowAboveRoot
                (if allowAboveRoot then seg :: acc else acc) rest
            else normalizeSegments allowAboveRoot acc' rest
        | [] =>
            normalizeSegments allowAboveRoot
              (if allowAboveRoot then [seg] else []) rest
        end
      else normalizeSegments allowAboveRoot (seg :: acc) rest
  end.

Fixpoint join (sep : string) (l : list string) : string :=
  match l with
  | [] => ""
  | [x] => x
  | x :: rest => x +:+ sep +:+ join sep rest
  end.

Definition posix_isAbsolute (p : string) : bool := startsWith p "/".

(** [path.posix.resolve(from, to)] in a process whose working directory is
    [pcwd]: the arguments are taken from the right until an absolute one is
    met, then the whole is normalized. *)
Definition posix_resolve (pcwd from to : string) : string :=
  let step (arg : string) (acc : string * bool) :=
    if snd acc then acc
    else if String.eqb arg "" then acc
    else (arg +:+ "/" +:+ fst acc, posix_isAbsolute arg) in
  let '(resolvedPath, resolvedAbsolute) :=
    step pcwd (step from (step to ("", false))) in
  let normalized :=
    join "/" (normalizeSegments (negb resolvedAbsolute) []
                (split "/" resolvedPath)) in
  if resolvedAbsolute then "/" +:+ normalized
  else if String.eqb normalized "" then "." else normalized.

Definition posix_path (pcwd : string) : PathModule :=
  {| path_sep := "/"%char;
     path_isAbsolute := posix_isAbsolute;
     path_resolve := posix_resolve pcwd |}.

(** *** [runTool]: the output parser *)

Record ICheckResult := {
  file : string;
  line : Z;
  col : option Z;          (* [None]: NaN, no column in the output *)
  msg : string;
  severity : string
}.

(** The pattern of a diagnostic line (written here with a blank between a
    star and the closing parenthesis that follows it):
    [/^([^:]*: )?((.:)?[^:]* ):(\d+)(:(\d+)?)?:(?:\w+:)? (.* )$/] with groups
    1 the label, 2 the file, 3 the drive, 4 the line, 5 and 6 the column,
    7 the message. *)
Definition lineRegex : regex :=
  rcat [ RBol;
         ROpt (RGroup 1 (rcat [RStar (cc_not ":"); RLit ": "]));
         RGroup 2 (rcat [ROpt (RGroup 3 (rcat [RChar cc_dot; RLit ":"]));
                         RStar (cc_not ":")]);
         RLit ":";
         RGroup 4 (RPlus cc_digit);
         ROpt (RGroup 5 (rcat [RLit ":"; ROpt (RGroup 6 (RPlus cc_digit))]));
         RLit ":";
         ROpt (rcat [RPlus cc_word; RLit ":"]);
         RLit " ";
         RGroup 7 (RStar cc_dot);
         REol ].

(** The three variables of the loop over the output lines. *)
Record ParseState := {
  ret : list ICheckResult;
  unexpectedOutput : bool;
  atLeastSingleMatch : bool
}.

(** [ret[ret.length - 1].msg += '\n' + l] *)
Definition appendToLast (rs : list ICheckResult) (l : string)
  : list ICheckResult :=
  match rev rs with
  | [] => rs
  | r :: before =>
      rev before ++
      [ {| file := file r; line := line r; col := col r;
           msg := msg r +:+ String LF l; severity := severity r |} ]
  end.

Definition orEmpty (s : option string) : string := default "" s.

(** The file of a line that matches the pattern (its group 2). *)
Definition matchedFile (l : string) : option string :=
  m ← exec lineRegex l; m_get m 2.

Section RunTool.
Context {P : PathModule}.

Variable cwd : string.                  (* after fixDriveCasingInWindows *)
Variable severity_arg : string.
Variable useStdErr : bool.
Variable printUnexpectedOutput : bool.
(** [vscode.window.activeTextEditor.document.fileName], when an editor is
    active *)
Variable activeTextEditor : option string.

(** [file.startsWith(`vendor${path.sep}`) ||
     file.indexOf(`${path.sep}vendor${path.sep}`) > -1] *)
Definition inVendorFolder (f : string) : bool :=
  startsWith f ("vendor" +:+ String path_sep "")
  || bool_decide (is_Some
       (indexOf f (String path_sep ("vendor" +:+ String path_sep "")))).

(** One iteration of [for (const l of lines)]. *)
Definition parseLine (stderr : string) (st : ParseState) (l : string)
  : ParseState :=
  if startsWith l (String TAB "") && (0 <? length (ret st))%nat then
    {| ret := appendToLast (ret st) l;
       unexpectedOutput := unexpectedOutput st;
       atLeastSingleMatch := atLeastSingleMatch st |}
  else
    match exec lineRegex l with
    | None =>
        {| ret := ret st;
           unexpectedOutput :=
             if printUnexpectedOutput && useStdErr
                && negb (String.eqb stderr "")
             then true else unexpectedOutput st;
           atLeastSingleMatch := atLeastSingleMatch st |}
    | Some m =>
        let f := orEmpty (m_get m 2) in
        let line_ := default 0 (toNumber (m_get m 4)) in
        let col_ := toNumber (m_get m 6) in
        let msg_ := orEmpty (m_get m 7) in
        if negb (path_isAbsolute f) && inVendorFolder f then
          {| ret := ret st;
             unexpectedOutput := unexpectedOutput st;
             atLeastSingleMatch := true |}
        else
          {| ret := ret st ++
                    [ {| file := path_resolve cwd f; line := line_;
                         col := col_; msg := msg_;
                         severity := severity_arg |} ];
             unexpectedOutput := unexpectedOutput st;
             atLeastSingleMatch := true |}
    end.

Definition initialState : ParseState :=
  {| ret := []; unexpectedOutput := false; atLeastSingleMatch := false |}.

(** The parse of one output text: the loop, from the initial state. *)
Definition parseOutput (stderr text : string) : ParseState :=
  fold_left (parseLine stderr) (split LF text) initialState.

(** The callback of [cp.execFile] in [runTool]: the value the promise
    resolves to, given how the process ended.  [err] is [err.code] when
    the process failed.  Writes to the output channel are not modelled. *)
Definition runTool (err : option string) (stdout stderr : string)
  : list ICheckResult :=
  if bool_decide (err = Some "ENOENT") then []
  else if bool_decide (is_Some err) && negb (String.eqb stderr "")
          && negb useStdErr then []
  else
    let st := parseOutput stderr (if useStdErr then stderr else stdout) in
    if negb (atLeastSingleMatch st) && unexpectedOutput st
       && bool_decide (is_Some activeTextEditor) then
      if bool_decide (is_Some err) then
        ret st ++
        [ {| file := orEmpty activeTextEditor; line := 1; col := Some 1;
             msg := stderr; severity := "error" |} ]
      else ret st
    else ret st.
End RunTool.

(** *** The [semver] package

    [GoVersion] uses [coerce], [lt], [gt] and [SemVer.format]. *)

Class SemverModule := {
  SemVer : Type;
  semver_coerce : string -> option SemVer;
  semver_lt : SemVer -> SemVer -> bool;
  semver_gt : SemVer -> SemVer -> bool;
  semver_format : SemVer -> string
}.

(** A reference implementation: versions are [major.minor.patch] triples,
    [coerce] reads the first run of digits in the text and up to two dotted
    runs after it, as semver's pattern
    [(^|[^\d])(\d{1,16})(?:\.(\d{1,16}))?(?:\.(\d{1,16}))?(?:$|[^\d])]. *)
Definition coerceRegex : regex :=
  rcat [ RGroup 1 (RAlt RBol (RChar (fun a => negb (cc_digit a))));
         RGroup 2 (RRep 1 16 cc_digit);
         ROpt (rcat [RLit "."; RGroup 3 (RRep 1 16 cc_digit)]);
         ROpt (rcat [RLit "."; RGroup 4 (RRep 1 16 cc_digit)]);
         RAlt REol (RChar (fun a => negb (cc_digit a))) ].

Definition triple_coerce (version : string) : option (Z * Z * Z) :=
  m ← exec coerceRegex version;
  Some (default 0 (toNumber (m_get m 2)),
        default 0 (toNumber (m_get m 3)),
        default 0 (toNumber (m_get m 4))).

Definition triple_compare (a b : Z * Z * Z) : comparison :=
  let '(a1, a2, a3) := a in
  let '(b1, b2, b3) := b in
  match a1 ?= b1 with
  | Eq => match a2 ?= b2 with Eq => a3 ?= b3 | c => c end
  | c => c
  end.

Definition decimal (z : Z) : string :=
  NilEmpty.string_of_uint (N.to_uint (Z.to_N z)).

Definition triple_semver : SemverModule :=
  {| SemVer := Z * Z * Z;
     semver_coerce := triple_coerce;
     semver_lt := fun a b => match triple_compare a b with Lt => true | _ => false end;
     semver_gt := fun a b => match triple_compare a b with Gt => true | _ => false end;
     semver_format := fun '(a, b, c) =>
       decimal a +:+ "." +:+ decimal b +:+ "." +:+ decimal c |}.

(** *** [GoVersion] *)

(** [/go version go(\d.\d+).*/] *)
Definition releaseRegex : regex :=
  rcat [ RLit "go version go";
         RGroup 1 (rcat [RChar cc_digit; RChar cc_dot; RPlus cc_digit]);
         RStar cc_dot ].

(** [/go version devel \+(.[a-zA-Z0-9]+).*/] *)
Definition develRegex : regex :=
  rcat [ RLit "go version devel +";
         RGroup 1 (rcat [RChar cc_dot; RPlus cc_alnum]);
         RStar cc_dot ].

Module GoVersion.
Section WithSemver.
Context {M : SemverModule}.

(** The optional fields are [None] (and [isDevel] is [false]) when the
    constructor leaves them undefined. *)
Record t := {
  binaryPath : string;
  sv : option SemVer;
  isDevel : bool;
  commit : option string
}.

(** [new GoVersion(binaryPath, version)] *)
Definition newGoVersion (binaryPath_ version : string) : t :=
  let matchesRelease := exec releaseRegex version in
  let matchesDevel := exec develRegex version in
  match matchesRelease with
  | Some m =>
      {| binaryPath := binaryPath_;
         sv := semver_coerce (orEmpty (m_get m 0));
         isDevel := false; commit := None |}
  | None =>
      match matchesDevel with
      | Some m =>
          {| binaryPath := binaryPath_; sv := None;
             isDevel := true; commit := m_get m 0 |}
      | None =>
          {| binaryPath := binaryPath_; sv := None;
             isDevel := false; commit := None |}
      end
  end.

Definition isValid (g : t) : bool :=
  bool_decide (is_Some (sv g)) || isDevel g.

(** An undefined [commit] prints as the text [undefined]. *)
Definition format (g : t) : string :=
  match sv g with
  | Some v => semver_format v
  | None => "devel +" +:+ default "undefined" (commit g)
  end.

Definition lt (g : t) (version : string) : bool :=
  match isDevel g, sv g with
  | false, Some this_sv =>
      match semver_coerce version with
      | None => false
      | Some v => semver_lt this_sv v
      end
  | _, _ => false
  end.

Definition gt (g : t) (version : string) : bool :=
  match isDevel g, sv g with
  | false, Some this_sv =>
      match semver_coerce version with
      | None => false
      | Some v => semver_gt this_sv v
      end
  | _, _ => true
  end.
End WithSemver.
End GoVersion.


(** *** [LineBuffer]

    The listeners are identified by their rank of registration; what they
    are called with is recorded, in the order of the calls. *)

Module LineBuffer.

Inductive call :=
| LineCall (listener : nat) (line : string)
| DoneCall (listener : nat) (last : option string).

Record t := {
  buf : string;
  lineListeners : nat;
  lastListeners : nat;
  calls : list call
}.

(** [new LineBuffer()] *)
Definition new : t :=
  {| buf := ""; lineListeners := 0; lastListeners := 0; calls := [] |}.

Definition onLine (b : t) : t :=
  {| buf := buf b; lineListeners := S (lineListeners b);
     lastListeners := lastListeners b; calls := calls b |}.

Definition onDone (b : t) : t :=
  {| buf := buf b; lineListeners := lineListeners b;
     lastListeners := S (lastListeners b); calls := calls b |}.

(** [this.lineListeners.forEach((listener) => listener(line))] *)
Definition fireLine (l : string) (b : t) : t :=
  {| buf := buf b; lineListeners := lineListeners b;
     lastListeners := lastListeners b;
     calls := calls b ++ map (fun i => LineCall i l) (seq 0 (lineListeners b)) |}.

Definition fireDone (last : option string) (b : t) : t :=
  {| buf := buf b; lineListeners := lineListeners b;
     lastListeners := lastListeners b;
     calls := calls b ++ map (fun i => DoneCall i last) (seq 0 (lastListeners b)) |}.

Definition setBuf (s : string) (b : t) : t :=
  {| buf := s; lineListeners := lineListeners b;
     lastListeners := lastListeners b; calls := calls b |}.

(** The [do ... while (true)] loop of [append]; [None] when the fuel does
    not suffice to reach the [break]. *)
Fixpoint drain (fuel : nat) (b : t) : option t :=
  match fuel with
  | O => None
  | S fuel' =>
      match indexOf (buf b) (String LF "") with
      | None => Some b
      | Some idx =>
          let b1 := fireLine (take_str idx (buf b)) b in
          drain fuel' (setBuf (drop_str (idx + 1) (buf b1)) b1)
      end
  end.

(** [append(chunk)]: every turn of the loop shortens the buffer, so its
    length (plus one) is fuel enough. *)
Definition append (chunk : string) (b : t) : option t :=
  let b1 := setBuf (buf b +:+ chunk) b in
  drain (S (String.length (buf b1))) b1.

Definition done (b : t) : t :=
  fireDone (if String.eqb (buf b) "" then None else Some (buf b)) b.

(** A sequence of [append] calls, then [done]. *)
Fixpoint appendAll (chunks : list string) (b : t) : option t :=
  match chunks with
  | [] => Some b
  | c :: rest => b' ← append c b; appendAll rest b'
  end.

Definition feed (chunks : list string) (b : t) : option t :=
  done <$> appendAll chunks b.

(** A new buffer on which [nl] line listeners and [nd] done listeners
    have been registered. *)
Definition withListeners (nl nd : nat) : t :=
  Nat.iter nd onDone (Nat.iter nl onLine new).

(** The vocabulary of the buffer's contract: the text of all chunks, its
    newline-terminated segments without their newline, and what is left
    after the last newline ([None] when nothing is left). *)
Definition textOf (chunks : list string) : string :=
  foldr String.append "" chunks.

Definition terminatedSegments (text : string) : list string :=
  removelast (split LF text).

Definition remainder (text : string) : option string :=
  let r := List.last (split LF text) "" in
  if String.eqb r "" then None else Some r.

(** Each listener is called once per line, in the order of registration. *)
Definition lineCalls (nl : nat) (segments : list string) : list call :=
  flat_map (fun l => map (fun i => LineCall i l) (seq 0 nl)) segments.

Definition doneCalls (nd : nat) (last : option string) : list call :=
  map (fun i => DoneCall i last) (seq 0 nd).

End LineBuffer.

(** *** The editor's diagnostics

    The part of the [vscode] API that [handleDiagnosticErrors] touches.
    A [Position] with a negative member and a line outside the document
    make the API throw; a thrown exception is [None]. *)

Module vscode.

Inductive DiagnosticSeverity := Error | Warning.

Record Position := { line : Z; character : Z }.

Definition newPosition (l c : Z) : option Position :=
  if (l <? 0) || (c <? 0) then None
  else Some {| line := l; character := c |}.

Definition isBefore (a b : Position) : bool :=
  (line a <? line b) || ((line a =? line b) && (character a <? character b)).

Record Range := { start : Position; end_ : Position }.

(** [new Range(startLine, startCharacter, endLine, endCharacter)]: the
    two positions are put in order. *)
Definition newRange (sl sc el ec : Z) : option Range :=
  s ← newPosition sl sc;
  e ← newPosition el ec;
  Some (if isBefore s e then {| start := s; end_ := e |}
        else {| start := e; end_ := s |}).

Record Diagnostic := {
  range : Range;
  message : string;
  severity : DiagnosticSeverity;
  source : string
}.

(** A document: its URI as a string and its lines. *)
Record TextDocument := { uri : string; lines : list string }.

(** The text of [document.getText(new Range(n, 0, n, lineAt(n).range.end.character + 1))]:
    line [n], when the document has one. *)
Definition lineText (d : TextDocument) (n : Z) : option string :=
  if n <? 0 then None else lines d !! Z.to_nat n.

(** A diagnostic collection: a name and the diagnostics of each URI. *)
Record DiagnosticCollection := {
  name : string;
  entries : gmap string (list Diagnostic)
}.

Definition has (c : DiagnosticCollection) (u : string) : bool :=
  bool_decide (is_Some (entries c !! u)).

Definition get (c : DiagnosticCollection) (u : string) : list Diagnostic :=
  default [] (entries c !! u).

Definition set (u : string) (ds : list Diagnostic) (c : DiagnosticCollection)
  : DiagnosticCollection :=
  {| name := name c; entries := <[u := ds]> (entries c) |}.

Definition clear (c : DiagnosticCollection) : DiagnosticCollection :=
  {| name := name c; entries := ∅ |}.

End vscode.

(** *** [handleDiagnosticErrors] and [deDupeDiagnostics] *)

(** The three collections of [goMain], and which of them a call is given. *)
Inductive Category := Build | Lint | Vet.

#[global] Instance Category_eq_dec : EqDecision Category.
Proof. solve_decision. Defined.

Record Stores := {
  buildDiagnosticCollection : vscode.DiagnosticCollection;
  lintDiagnosticCollection : vscode.DiagnosticCollection;
  vetDiagnosticCollection : vscode.DiagnosticCollection
}.

Definition collection (c : Category) (st : Stores) : vscode.DiagnosticCollection :=
  match c with
  | Build => buildDiagnosticCollection st
  | Lint => lintDiagnosticCollection st
  | Vet => vetDiagnosticCollection st
  end.

Definition withCollection (c : Category)
           (f : vscode.DiagnosticCollection -> vscode.DiagnosticCollection)
           (st : Stores) : Stores :=
  match c with
  | Build => {| buildDiagnosticCollection := f (buildDiagnosticCollection st);
                lintDiagnosticCollection := lintDiagnosticCollection st;
                vetDiagnosticCollection := vetDiagnosticCollection st |}
  | Lint => {| buildDiagnosticCollection := buildDiagnosticCollection st;
               lintDiagnosticCollection := f (lintDiagnosticCollection st);
               vetDiagnosticCollection := vetDiagnosticCollection st |}
  | Vet => {| buildDiagnosticCollection := buildDiagnosticCollection st;
              lintDiagnosticCollection := lintDiagnosticCollection st;
              vetDiagnosticCollection := f (vetDiagnosticCollection st) |}
  end.

(** A JavaScript [Map] with string keys: the entries in insertion order. *)
Fixpoint map_get {V} (k : string) (m : list (string * V)) : option V :=
  match m with
  | [] => None
  | (k', v) :: m' => if String.eqb k k' then Some v else map_get k m'
  end.

Fixpoint map_set {V} (k : string) (v : V) (m : list (string * V))
  : list (string * V) :=
  match m with
  | [] => [(k, v)]
  | (k', v') :: m' =>
      if String.eqb k k' then (k, v) :: m' else (k', v') :: map_set k v m'
  end.

(** [x.range.start.line] *)
Definition startLine (d : vscode.Diagnostic) : Z :=
  vscode.line (vscode.start (vscode.range d)).

(** [buildDiagnosticsLines.indexOf(l) === -1] is [l ∉ buildDiagnosticsLines]. *)
Definition deDupeDiagnostics
           (buildDiagnostics otherDiagnostics : list vscode.Diagnostic)
  : list vscode.Diagnostic :=
  let buildDiagnosticsLines := map startLine buildDiagnostics in
  filter (fun x => startLine x ∉ buildDiagnosticsLines) otherDiagnostics.

(** A diagnostic collides with a set of diagnostics when one of the set
    starts on its line. *)
Definition collidesWith (bs : list vscode.Diagnostic) (x : vscode.Diagnostic)
  : Prop :=
  Exists (fun b => startLine b = startLine x) bs.

#[global] Instance collidesWith_dec bs x : Decision (collidesWith bs x) :=
  Exists_dec _ bs.

Definition mapSeverityToVSCodeSeverity (sev : string) : vscode.DiagnosticSeverity :=
  if String.eqb sev "error" then vscode.Error
  else if String.eqb sev "warning" then vscode.Warning
  else vscode.Error.

(** [/^(\s* ).*(\s* )$/] (blanks added before the closing parentheses) *)
Definition marginsRegex : regex :=
  rcat [ RBol; RGroup 1 (RStar cc_space); RStar cc_dot;
         RGroup 2 (RStar cc_space); REol ].

Inductive outcome := Returned | Thrown.

(** What one turn of the loop of [handleDiagnosticErrors] leaves for its
    file in collection [c], from the new diagnostics [ds] of the file and
    what the three collections held for it. *)
Definition publishedAt (which c : Category) (ds : list vscode.Diagnostic)
           (build lint vet : option (list vscode.Diagnostic))
  : option (list vscode.Diagnostic) :=
  match which with
  | Build =>
      match c with
      | Build => Some ds
      | Lint => deDupeDiagnostics ds <$> lint
      | Vet => deDupeDiagnostics ds <$> vet
      end
  | _ =>
      if decide (c = which) then
        Some (match build with
              | Some bs => deDupeDiagnostics bs ds
              | None => ds
              end)
      else match c with Build => build | Lint => lint | Vet => vet end
  end.

Section HandleDiagnosticErrors.
(** [vscode.Uri.file(f).toString()]; collections are keyed by this text
    ([Uri.parse] reads it back). *)
Variable canonical : string -> string.

Variable document : option vscode.TextDocument.
Variable which : Category.

Definition lengthZ (s : string) : Z := Z.of_nat (String.length s).

(** The start and end columns of the range of one error. *)
Definition columns (canonicalFile : string) (error : ICheckResult)
  : option (Z * Z) :=
  match document with
  | Some doc =>
      if String.eqb (vscode.uri doc) canonicalFile then
        text ← vscode.lineText doc (line error - 1);
        m ← exec marginsRegex text;
        let leading := orEmpty (m_get m 1) in
        let trailing := orEmpty (m_get m 2) in
        let startColumn :=
          match col error with
          | None => lengthZ leading
          | Some c => if c =? 0 then lengthZ leading else c - 1
          end in
        Some (startColumn, lengthZ text - lengthZ trailing)
      else Some (0, 1)
  | None => Some (0, 1)
  end.

(** [new vscode.Diagnostic(range, message, severity)] throws for an empty
    message, as [new vscode.Range] does for a negative line or column. *)
Definition toDiagnostic (sourceName canonicalFile : string) (error : ICheckResult)
  : option vscode.Diagnostic :=
  '(startColumn, endColumn) ← columns canonicalFile error;
  range ← vscode.newRange (line error - 1) startColumn (line error - 1) endColumn;
  if String.eqb (msg error) "" then None
  else
    Some {| vscode.range := range;
            vscode.message := msg error;
            vscode.severity := mapSeverityToVSCodeSeverity (severity error);
            vscode.source := sourceName |}.

(** [errors.forEach(...)]: the new diagnostics of each file. *)
Fixpoint groupErrors (sourceName : string) (errors : list ICheckResult)
         (diagnosticMap : list (string * list vscode.Diagnostic))
  : option (list (string * list vscode.Diagnostic)) :=
  match errors with
  | [] => Some diagnosticMap
  | error :: rest =>
      let canonicalFile := canonical (file error) in
      diagnostic ← toDiagnostic sourceName canonicalFile error;
      let diagnostics := default [] (map_get canonicalFile diagnosticMap) in
      groupErrors sourceName rest
        (map_set canonicalFile (diagnostics ++ [diagnostic]) diagnosticMap)
  end.

(** One turn of [diagnosticMap.forEach((newDiagnostics, file) => ...)]. *)
Definition publishFile (st : Stores) (entry : string * list vscode.Diagnostic)
  : Stores :=
  let '(fileUri, newDiagnostics) := entry in
  match which with
  | Build =>
      let st1 :=
        if vscode.has (lintDiagnosticCollection st) fileUri then
          withCollection Lint
            (vscode.set fileUri
               (deDupeDiagnostics newDiagnostics
                  (vscode.get (lintDiagnosticCollection st) fileUri))) st
        else st in
      let st2 :=
        if vscode.has (vetDiagnosticCollection st1) fileUri then
          withCollection Vet
            (vscode.set fileUri
               (deDupeDiagnostics newDiagnostics
                  (vscode.get (vetDiagnosticCollection st1) fileUri))) st1
        else st1 in
      withCollection Build (vscode.set fileUri newDiagnostics) st2
  | _ =>
      let newDiagnostics' :=
        if vscode.has (buildDiagnosticCollection st) fileUri then
          deDupeDiagnostics
            (vscode.get (buildDiagnosticCollection st) fileUri) newDiagnostics
        else newDiagnostics in
      withCollection which (vscode.set fileUri newDiagnostics') st
  end.

Definition handleDiagnosticErrors (errors : list ICheckResult) (st : Stores)
  : outcome * Stores :=
  let st0 := withCollection which vscode.clear st in
  match groupErrors (vscode.name (collection which st)) errors [] with
  | None => (Thrown, st0)
  | Some diagnosticMap => (Returned, fold_left publishFile diagnosticMap st0)
  end.
End HandleDiagnosticErrors.

(** *** [makeMemoizedByteOffsetConverter] *)

Definition byteZ (b : Byte.byte) : Z := Z.of_N (Byte.to_N b).

(** The UTF-8 decoder behind [buffer.toString('utf8', ...)], as far as the
    length of the decoded string goes: the number of UTF-16 code units it
    produces.  An ill-formed sequence decodes to one replacement character,
    and the byte that broke it is read again as the start of a sequence. *)
Inductive DecoderState :=
| Idle
| Pending (needed : nat) (lower upper : Z) (fourBytes : bool).

Definition utf8_first (b : Z) : DecoderState * Z :=
  if b <=? 127 then (Idle, 1)
  else if (194 <=? b) && (b <=? 223) then (Pending 1 128 191 false, 0)
  else if (224 <=? b) && (b <=? 239) then
    (Pending 2 (if b =? 224 then 160 else 128)
               (if b =? 237 then 159 else 191) false, 0)
  else if (240 <=? b) && (b <=? 244) then
    (Pending 3 (if b =? 240 then 144 else 128)
               (if b =? 244 then 143 else 191) true, 0)
  else (Idle, 1).

Definition utf8_step (st : DecoderState) (b : Z) : DecoderState * Z :=
  match st with
  | Idle => utf8_first b
  | Pending needed lower upper four =>
      if (lower <=? b) && (b <=? upper) then
        match needed with
        | S (S n) => (Pending (S n) 128 191 four, 0)
        | _ => (Idle, if four then 2 else 1)
        end
      else let '(st', units) := utf8_first b in (st', 1 + units)
  end.

Fixpoint utf8_units (st : DecoderState) (bytes : list Byte.byte) : Z :=
  match bytes with
  | [] => match st with Idle => 0 | Pending _ _ _ _ => 1 end
  | b :: rest =>
      let '(st', units) := utf8_step st (byteZ b) in
      units + utf8_units st' rest
  end.

(** [buffer.toString('utf8', start, end).length]: the bounds are clamped to
    the buffer, an empty or reversed span is the empty string. *)
Definition decodedLength (buffer : list Byte.byte) (start end_ : Z) : Z :=
  let start := Z.max 0 start in
  utf8_units Idle (take (Z.to_nat (end_ - start)) (drop (Z.to_nat start) buffer)).

(** Modelled from the spec: [Node] and [NearestNeighborDict] of
    [./avlTree], which is not part of the sources at hand.  The dictionary
    is an ordered structure of samples keyed by byte offset, built from a
    first sample and a distance function; [getNearest] returns the sample
    whose key is nearest to the query by that distance (the smaller key on
    a tie); [insert] adds a sample. *)
Record Node := { key : Z; value : Z }.

Module NearestNeighborDict.

Record t := {
  distance : Z -> Z -> Z;
  seed : Node;
  samples : gmap Z Z
}.

Definition NUMERIC_DISTANCE_FUNCTION (a b : Z) : Z :=
  if a >? b then a - b else b - a.

Definition new (start : Node) (distance_ : Z -> Z -> Z) : t :=
  {| distance := distance_; seed := start;
     samples := {[ key start := value start ]} |}.

Definition insert (k v : Z) (d : t) : t :=
  {| distance := distance d; seed := seed d;
     samples := <[k := v]> (samples d) |}.

Definition nearer (d : t) (q : Z) (candidate : Z * Z) (best : Node) : Node :=
  let d1 := distance d q (fst candidate) in
  let d2 := distance d q (key best) in
  if (d1 <? d2) || ((d1 =? d2) && (fst candidate <? key best))
  then {| key := fst candidate; value := snd candidate |} else best.

Definition getNearest (q : Z) (d : t) : Node :=
  foldr (nearer d q) (seed d) (map_to_list (samples d)).

End NearestNeighborDict.

(** The converter is a closure over [buffer] and [memo]; a call returns the
    character offset and the converter with the memo the call leaves. *)
Record Converter := {
  buffer : list Byte.byte;
  memo : NearestNeighborDict.t
}.

Definition makeMemoizedByteOffsetConverter (buffer_ : list Byte.byte)
  : Converter :=
  let defaultValue := {| key := 0; value := 0 |} in
  {| buffer := buffer_;
     memo := NearestNeighborDict.new defaultValue
               NearestNeighborDict.NUMERIC_DISTANCE_FUNCTION |}.

Definition charOffsetFor (cv : Converter) (byteOffset : Z) : Z * Converter :=
  let nearest := NearestNeighborDict.getNearest byteOffset (memo cv) in
  let byteDelta := byteOffset - key nearest in
  if byteDelta =? 0 then (value nearest, cv)
  else
    let charDelta :=
      if byteDelta >? 0 then decodedLength (buffer cv) (key nearest) byteOffset
      else - decodedLength (buffer cv) byteOffset (key nearest) in
    (value nearest + charDelta,
     {| buffer := buffer cv;
        memo := NearestNeighborDict.insert byteOffset
                  (value nearest + charDelta) (memo cv) |}).

(** A sequence of queries against one converter: the answers, in order. *)
Fixpoint queries (cv : Converter) (qs : list Z) : list Z :=
  match qs with
  | [] => []
  | q :: rest =>
      let '(c, cv') := charOffsetFor cv q in
      c :: queries cv' rest
  end.

(** Well-formed UTF-8 (Unicode, table 3-7): the length in bytes and in
    UTF-16 code units of the character that starts a byte sequence. *)
Definition between (lo hi : Z) (b : Byte.byte) : bool :=
  (lo <=? byteZ b) && (byteZ b <=? hi).

Definition wellFormedChar (c : list Byte.byte) : option Z :=
  match c with
  | [b0] => if between 0 127 b0 then Some 1 else None
  | [b0; b1] =>
      if between 194 223 b0 && between 128 191 b1 then Some 1 else None
  | [b0; b1; b2] =>
      if (between 224 224 b0 && between 160 191 b1
          || between 225 236 b0 && between 128 191 b1
          || between 237 237 b0 && between 128 159 b1
          || between 238 239 b0 && between 128 191 b1)
         && between 128 191 b2 then Some 1 else None
  | [b0; b1; b2; b3] =>
      if (between 240 240 b0 && between 144 191 b1
          || between 241 243 b0 && between 128 191 b1
          || between 244 244 b0 && between 128 143 b1)
         && between 128 191 b2 && between 128 191 b3 then Some 2 else None
  | _ => None
  end.

(** A text is a list of characters, each a well-formed byte sequence; its
    buffer is their concatenation, and the character boundaries are the
    byte lengths of its prefixes. *)
Definition validText (chars : list (list Byte.byte)) : Prop :=
  Forall (fun c => is_Some (wellFormedChar c)) chars.

Definition bufferOf (chars : list (list Byte.byte)) : list Byte.byte :=
  concat chars.

Definition byteLength (chars : list (list Byte.byte)) : Z :=
  Z.of_nat (length (concat chars)).

Definition charLength (chars : list (list Byte.byte)) : Z :=
  foldr (fun c n => default 0 (wellFormedChar c) + n) 0 chars.

Definition boundary (chars : list (list Byte.byte)) (b : Z) : Prop :=
  exists n : nat, b = byteLength (take n chars).

(** A sample [(k, v)] is exact for a text when [k] is a character boundary
    and [v] the number of code units before it; a memo is sound when all
    it holds is exact. *)
Definition exactSample (chars : list (list Byte.byte)) (k v : Z) : Prop :=
  exists n : nat, k = byteLength (take n chars) /\ v = charLength (take n chars).

Definition soundMemo (chars : list (list Byte.byte)) (d : NearestNeighborDict.t)
  : Prop :=
  exactSample chars (key (NearestNeighborDict.seed d))
                    (value (NearestNeighborDict.seed d))
  /\ forall k v, NearestNeighborDict.samples d !! k = Some v ->
                 exactSample chars k v.

(** The text [a], e-acute, the euro sign, [b], the G clef, [c]: characters
    of one, two, three, one, four and one bytes. *)
Definition sampleText : list (list Byte.byte) :=
  [ [Byte.x61]; [Byte.xc3; Byte.xa9]; [Byte.xe2; Byte.x82; Byte.xac];
    [Byte.x62]; [Byte.xf0; Byte.x9d; Byte.x84; Byte.x9e]; [Byte.x63] ].

(** *** Sample data for the closed instances *)

Definition fileUri (f : string) : string := "file://" +:+ f.

Definition diagnosticAt (l : Z) (m : string) (src : string) : vscode.Diagnostic :=
  {| vscode.range :=
       {| vscode.start := {| vscode.line := l; vscode.character := 0 |};
          vscode.end_ := {| vscode.line := l; vscode.character := 1 |} |};
     vscode.message := m;
     vscode.severity := vscode.Warning;
     vscode.source := src |}.

(** No build diagnostics; lint diagnostics on lines 5 and 7 of [a.go] (the
    ranges count lines from 0) and on line 2 of [b.go]. *)
Definition sampleStores : Stores :=
  {| buildDiagnosticCollection := {| vscode.name := "go"; vscode.entries := ∅ |};
     lintDiagnosticCollection :=
       {| vscode.name := "go-lint";
          vscode.entries :=
            {[ "file:///w/a.go" := [diagnosticAt 4 "exported x" "go-lint";
                                    diagnosticAt 6 "exported y" "go-lint"];
               "file:///w/b.go" := [diagnosticAt 1 "exported z" "go-lint"] ]} |};
     vetDiagnosticCollection := {| vscode.name := "go-vet"; vscode.entries := ∅ |} |}.

Definition sampleErrors : list ICheckResult :=
  [ {| file := "/w/a.go"; line := 5; col := Some 3; msg := "undefined: x";
       severity := "error" |} ].

Definition sampleNew : list vscode.Diagnostic :=
  [ {| vscode.range :=
         {| vscode.start := {| vscode.line := 4; vscode.character := 0 |};
            vscode.end_ := {| vscode.line := 4; vscode.character := 1 |} |};
       vscode.message := "undefined: x";
       vscode.severity := vscode.Error;
       vscode.source := "go" |} ].

(** A lint run that reports on [a.go] only, and the diagnostic made of its
    error. *)
Definition sampleLintErrors : list ICheckResult :=
  [ {| file := "/w/a.go"; line := 9; col := None; msg := "exported w";
       severity := "warning" |} ].

Definition sampleLintNew : list vscode.Diagnostic :=
  [ diagnosticAt 8 "exported w" "go-lint" ].

(** The converter that a sequence of queries leaves. *)
Fixpoint afterQueries (cv : Converter) (qs : list Z) : Converter :=
  match qs with
  | [] => cv
  | q :: rest => afterQueries (charOffsetFor cv q).2 rest
  end.

(** What every converter made by [makeMemoizedByteOffsetConverter] keeps:
    the numeric distance, and its first sample among the samples. *)
Definition keepsSeed (cv : Converter) : Prop :=
  NearestNeighborDict.distance (memo cv)
    = NearestNeighborDict.NUMERIC_DISTANCE_FUNCTION
  /\ NearestNeighborDict.samples (memo cv)
       !! key (NearestNeighborDict.seed (memo cv))
     = Some (value (NearestNeighborDict.seed (memo cv))).
(** *** [byteOffsetAt]

    [Buffer.from(text)] and [Buffer.byteLength(text)] for a text of code
    units below 256: a unit below 128 is one byte, another one two bytes.
    The document enters through the two members the function calls,
    [getText()] and [offsetAt(position)]. *)

Definition utf8_of_unit (a : ascii) : list Byte.byte :=
  let n := N_of_ascii a in
  if (n <? 128)%N then [byte_of_ascii a]
  else [ default Byte.x00 (Byte.of_N (192 + n / 64));
         default Byte.x00 (Byte.of_N (128 + n mod 64)) ].

Definition unitsOf (text : string) : list (list Byte.byte) :=
  map utf8_of_unit (list_ascii_of_string text).

Definition Buffer_from (text : string) : list Byte.byte :=
  concat (unitsOf text).

Definition Buffer_byteLength (text : string) : Z :=
  Z.of_nat (length (Buffer_from text)).

(** [s.substr(0, n)]: nothing for a negative [n]. *)
Definition substr0 (s : string) (n : Z) : string := take_str (Z.to_nat n) s.

Definition byteOffsetAt (getText : string) (offsetAt : vscode.Position -> Z)
           (position : vscode.Position) : Z :=
  let offset := offsetAt position in
  let text := getText in
  Buffer_byteLength (substr0 text offset).

(** No diagnostic stored in collection [c] for a file starts on the line of
    a build diagnostic stored for that file. *)
Definition noShadow (c : Category) (st : Stores) : Prop :=
  forall f x,
    x ∈ vscode.get (collection c st) f ->
    ~ collidesWith (vscode.get (buildDiagnosticCollection st) f) x.

(** What the line listener of rank [i] and the done listener of rank [i]
    have been called with, in order. *)
Definition linesReceived (i : nat) (cs : list LineBuffer.call) : list string :=
  omap (fun c => match c with
                 | LineBuffer.LineCall j l => if (j =? i)%nat then Some l else None
                 | LineBuffer.DoneCall _ _ => None
                 end) cs.

Definition lastReceived (i : nat) (cs : list LineBuffer.call)
  : list (option string) :=
  omap (fun c => match c with
                 | LineBuffer.DoneCall j r => if (j =? i)%nat then Some r else None
                 | LineBuffer.LineCall _ _ => None
                 end) cs.

(** ** [getStringHash]

    [hash] is a JS number.  [^] converts both operands with ToInt32 and
    yields a signed 32-bit integer, so every product [hash * 33] stays
    below 2^37 in absolute value and is exact; [>>> 0] converts with
    ToUint32.  [charCodeAt] is NaN out of range, which ToInt32 maps to
    0. *)

Definition ToInt32 (x : Z) : Z := (x + 2 ^ 31) mod 2 ^ 32 - 2 ^ 31.
Definition ToUint32 (x : Z) : Z := x mod 2 ^ 32.

Definition charCode (a : ascii) : Z := Z.of_N (N_of_ascii a).

Definition charCodeAt (s : string) (i : nat) : option Z :=
  charCode <$> String.get i s.

Definition bitXor (a : Z) (b : option Z) : Z :=
  Z.lxor (ToInt32 a) (ToInt32 (default 0 b)).

(** [while (i) { hash = (hash * 33) ^ value.charCodeAt(--i); }] *)
Fixpoint hashLoop (value : string) (i : nat) (hash : Z) : Z :=
  match i with
  | O => hash
  | S i' => hashLoop value i' (bitXor (hash * 33) (charCodeAt value i'))
  end.

Definition getStringHash (value : string) : Z :=
  ToUint32 (hashLoop value (String.length value) 5381).

(** ** [getParametersAndReturnType]

    [substring(a, b)] clamps both indices to the length and swaps them
    when [a > b]; [substr(a)] is the rest of the string from [a]. *)

Definition substring (s : string) (a b : nat) : string :=
  let a' := Nat.min a (String.length s) in
  let b' := Nat.min b (String.length s) in
  take_str (Nat.max a' b' - Nat.min a' b') (drop_str (Nat.min a' b') s).

(** The loop [for (let i = 1; i < signature.length; i++)], with [n] the
    number of indices left. *)
Fixpoint paramsLoop (signature : string) (n i : nat) (params : list string)
         (parenCount : Z) (lastStart : nat) : list string * string :=
  match n with
  | O => ([], "")
  | S n' =>
      match String.get i signature with
      | Some c =>
          if Ascii.eqb c "(" then
            paramsLoop signature n' (S i) params (parenCount + 1) lastStart
          else if Ascii.eqb c ")" then
            if parenCount - 1 <? 0 then
              (if (lastStart <? i)%nat
               then params ++ [substring signature lastStart i]
               else params,
               if (i <? String.length signature - 1)%nat
               then drop_str (i + 1) signature
               else "")
            else paramsLoop signature n' (S i) params (parenCount - 1) lastStart
          else if Ascii.eqb c "," then
            if parenCount =? 0 then
              paramsLoop signature n' (S i)
                (params ++ [substring signature lastStart i]) parenCount (i + 2)
            else paramsLoop signature n' (S i) params parenCount lastStart
          else paramsLoop signature n' (S i) params parenCount lastStart
      | None => paramsLoop signature n' (S i) params parenCount lastStart
      end
  end.

Definition getParametersAndReturnType (signature : string)
  : list string * string :=
  paramsLoop signature (String.length signature - 1) 1 [] 0 1.

(** The depth of parentheses after [p], entered at depth [d]; none when
    [p] closes a parenthesis it did not open or has a comma outside
    parentheses. *)
Fixpoint nesting (p : string) (d : Z) : option Z :=
  match p with
  | EmptyString => Some d
  | String c p' =>
      if Ascii.eqb c "(" then nesting p' (d + 1)
      else if Ascii.eqb c ")" then
        if d - 1 <? 0 then None else nesting p' (d - 1)
      else if Ascii.eqb c "," then
        if d =? 0 then None else nesting p' d
      else nesting p' d
  end.

Definition isParameter (p : string) : Prop := nesting p 0 = Some 0.

(** ** [canonicalizeGOPATHPrefix]

    [toLowerCase] on the code units of this embedding, all below 256: the
    capital letters of ASCII and of Latin-1 (all of U+00C0..U+00DE but the
    multiplication sign) move up by 32, every other unit is kept.  Above
    this range [toLowerCase] can lengthen a string (U+0130 becomes two
    units) while the function cuts the file name at an index taken in the
    lower-case one: GOPATH entries and file names with such units are
    outside of what is modelled here. *)

Definition toLowerCaseUnit (a : ascii) : ascii :=
  let n := N_of_ascii a in
  if ((65 <=? n) && (n <=? 90) || (192 <=? n) && (n <=? 214)
      || (216 <=? n) && (n <=? 222))%N
  then ascii_of_N (n + 32) else a.

Fixpoint toLowerCase (s : string) : string :=
  match s with
  | EmptyString => EmptyString
  | String a s' => String (toLowerCaseUnit a) (toLowerCase s')
  end.

(** [!currentWorkspace] is true of null and of the empty string. *)
Definition truthy (s : option string) : bool :=
  match s with
  | Some (String _ _) => true
  | _ => false
  end.

(** The loop over the workspaces of GOPATH. *)
Fixpoint pickWorkspace (filenameLowercase : string) (workspaces : list string)
         (currentWorkspace : option string) : option string :=
  match workspaces with
  | [] => currentWorkspace
  | workspace :: rest =>
      if String.eqb (substring filenameLowercase 0 (String.length workspace))
                    (toLowerCase workspace)
         && (negb (truthy currentWorkspace)
             || (String.length (default "" currentWorkspace)
                 <? String.length workspace)%nat)
      then pickWorkspace filenameLowercase rest (Some workspace)
      else pickWorkspace filenameLowercase rest currentWorkspace
  end.

(** [gopath] is what [getCurrentGoPath()] returns (empty when unset),
    [delimiter] is [path.delimiter]. *)
Definition canonicalizeGOPATHPrefix (gopath : string) (delimiter : ascii)
           (filename : string) : string :=
  if String.eqb gopath "" then filename
  else
    let workspaces := split delimiter gopath in
    let filenameLowercase := toLowerCase filename in
    let currentWorkspace := pickWorkspace filenameLowercase workspaces None in
    if negb (truthy currentWorkspace) then filename
    else default "" currentWorkspace
         +:+ drop_str (String.length (default "" currentWorkspace)) filename.

(** [workspace] passes the test of the loop. *)
Definition fits (filenameLowercase workspace : string) : Prop :=
  take_str (String.length workspace) filenameLowercase = toLowerCase workspace.

(** ** [getGoVersion] and [isVendorSupported]

    The two functions share the module variables [cachedGoVersion] and
    [vendorSupport]; [warn] writes to the output channel and the console,
    kept here as the list of messages.  What [execFile] does is an input:
    it fails with an error or gives the two outputs. *)

Inductive ExecFile :=
| execFails (err : string)
| execGives (stdout stderr : string).

Inductive Promise (A : Type) :=
| Resolved (a : A)
| Rejected.
Arguments Resolved {A} a.
Arguments Rejected {A}.

Definition DQ : string := String "034"%char "".

Section GoVersionCache.
Context {M : SemverModule}.
(** [sv.major] and [sv.minor] *)
Variables (major minor : SemVer -> Z).
(** [getCurrentGoRoot()] and [envPath] *)
Variables (goroot envPath : string).

Record Globals := {
  cachedGoVersion : option GoVersion.t;
  vendorSupport : option bool;
  warned : list string
}.

Definition warn (msg : string) (st : Globals) : Globals :=
  {| cachedGoVersion := cachedGoVersion st;
     vendorSupport := vendorSupport st;
     warned := warned st ++ [msg] |}.

Definition setCachedGoVersion (g : GoVersion.t) (st : Globals) : Globals :=
  {| cachedGoVersion := Some g;
     vendorSupport := vendorSupport st;
     warned := warned st |}.

Definition setVendorSupport (b : bool) (st : Globals) : Globals :=
  {| cachedGoVersion := cachedGoVersion st;
     vendorSupport := Some b;
     warned := warned st |}.

(** The [try] block.  A cached version prints as [[object Object]] in
    the warning, [GoVersion] having no [toString]. *)
Definition runGoVersion (goRuntimePath : string) (run : ExecFile)
           (st : Globals) : option GoVersion.t * Globals :=
  match run with
  | execGives stdout stderr =>
      if negb (String.eqb stderr "") then
        (None,
         warn ("failed to run " +:+ DQ +:+ goRuntimePath +:+ " version" +:+ DQ
               +:+ ": stdout: " +:+ stdout +:+ ", stderr: " +:+ stderr) st)
      else
        let g := GoVersion.newGoVersion goRuntimePath stdout in
        (Some g, setCachedGoVersion g st)
  | execFails err =>
      (None,
       warn ("failed to run " +:+ DQ +:+ goRuntimePath +:+ " version" +:+ DQ
             +:+ ": " +:+ err) st)
  end.

(** [goRuntimePath] is what [getBinPath('go')] returns, empty when the
    binary is not found. *)
Definition getGoVersion (goRuntimePath : string) (run : ExecFile)
           (st : Globals) : option GoVersion.t * Globals :=
  if String.eqb goRuntimePath "" then
    (None,
     warn ("unable to locate " +:+ DQ +:+ "go" +:+ DQ +:+ " binary in GOROOT ("
           +:+ goroot +:+ ") or PATH (" +:+ envPath +:+ ")") st)
  else
    match cachedGoVersion st with
    | Some g =>
        if GoVersion.isValid g then (Some g, st)
        else runGoVersion goRuntimePath run
               (warn "cached Go version ([object Object]) is invalid, recomputing" st)
    | None => runGoVersion goRuntimePath run st
    end.

(** The [switch] on [goVersion.sv.major]; [env] is
    [process.env['GO15VENDOREXPERIMENT']]. *)
Definition vendorSupportFor (v : SemVer) (env : option string) : bool :=
  if major v =? 0 then false
  else if major v =? 1 then
    (6 <? minor v)
    || ((minor v =? 5) || (minor v =? 6))
       && bool_decide (env = Some "1")
  else true.

(** Reading [goVersion.sv] of an undefined [goVersion] throws, which
    rejects the promise. *)
Definition isVendorSupported (goRuntimePath : string) (run : ExecFile)
           (env : option string) (st : Globals) : Promise bool * Globals :=
  match vendorSupport st with
  | Some b => (Resolved b, st)
  | None =>
      let '(goVersion, st1) := getGoVersion goRuntimePath run st in
      match goVersion with
      | None => (Rejected, st1)
      | Some g =>
          match GoVersion.sv g with
          | None => (Resolved (negb (bool_decide (env = Some "0"))), st1)
          | Some v =>
              let b := vendorSupportFor v env in
              (Resolved b, setVendorSupport b st1)
          end
      end
  end.

(** Calls one after the other, each with its own inputs. *)
Fixpoint getGoVersionCalls (calls : list (string * ExecFile)) (st : Globals)
  : list (option GoVersion.t) * Globals :=
  match calls with
  | [] => ([], st)
  | (goRuntimePath, run) :: rest =>
      let '(r, st1) := getGoVersion goRuntimePath run st in
      let '(rs, st2) := getGoVersionCalls rest st1 in
      (r :: rs, st2)
  end.

End GoVersionCache.

Definition triple_major (v : Z * Z * Z) : Z := v.1.1.
Definition triple_minor (v : Z * Z * Z) : Z := v.1.2.

(** A release of go the sample runs print, and the globals before any
    call. *)
Definition go114 : string := "go version go1.14.2 linux/amd64".

Definition noGlobals : @Globals triple_semver :=
  {| cachedGoVersion := None; vendorSupport := None; warned := [] |}.

Definition cachedGlobals : @Globals triple_semver :=
  {| cachedGoVersion := Some (GoVersion.newGoVersion "/usr/bin/go" go114);
     vendorSupport := None; warned := [] |}.

(** ** [getImportPath] *)

(** [[a-z,A-Z,_,\.]]: the commas of the class are members of it. *)
Definition cc_aliasStart : charclass :=
  fun a => in_range 97 122 a || Ascii.eqb a "," || in_range 65 90 a
           || Ascii.eqb a "_" || Ascii.eqb a ".".

(** Anything but a double quote. *)
Definition cc_notQuote : charclass := cc_not "034"%char.

(** [/^\s*import\s+([a-z,A-Z,_,\.]\w*\s+)?Q([^Q]+)Q/], where Q stands
    for the escaped double quote of the source. *)
Definition singleLineImportRegex : regex :=
  rcat [ RBol; RStar cc_space; RLit "import"; RPlus cc_space;
         ROpt (RGroup 1 (rcat [RChar cc_aliasStart; RStar cc_word; RPlus cc_space]));
         RLit DQ; RGroup 2 (RPlus cc_notQuote); RLit DQ ].

(** [/^\s*([a-z,A-Z,_,\.]\w*\s+)?Q([^Q]+)Q/] *)
Definition groupImportRegex : regex :=
  rcat [ RBol; RStar cc_space;
         ROpt (RGroup 1 (rcat [RChar cc_aliasStart; RStar cc_word; RPlus cc_space]));
         RLit DQ; RGroup 2 (RPlus cc_notQuote); RLit DQ ].

(** Group 2 takes part in every match of the two patterns. *)
Definition getImportPath (text : string) : string :=
  match exec singleLineImportRegex text with
  | Some singleLineImportMatches => orEmpty (m_get singleLineImportMatches 2)
  | None =>
      match exec groupImportRegex text with
      | Some groupImportMatches => orEmpty (m_get groupImportMatches 2)
      | None => ""
      end
  end.

(** All characters of [s] are in the class [p]. *)
Fixpoint allOf (p : charclass) (s : string) : bool :=
  match s with
  | EmptyString => true
  | String a s' => p a && allOf p s'
  end.

(** What the two patterns have in common: the optional alias and the
    quoted path. *)
Definition importTail : regex :=
  rcat [ ROpt (RGroup 1 (rcat [RChar cc_aliasStart; RStar cc_word; RPlus cc_space]));
         RLit DQ; RGroup 2 (RPlus cc_notQuote); RLit DQ ].

(** Nothing, or an alias and the blanks after it. *)
Definition aliasPart (al : string) : Prop :=
  al = ""
  \/ exists (a : ascii) (w sp : string),
      al = String a (w +:+ sp)
      /\ cc_aliasStart a = true /\ allOf cc_word w = true
      /\ allOf cc_space sp = true /\ sp <> "".

(** What a parsed diagnostic owes to the arguments of [runTool]: the
    severity passed in and a file resolved against the working
    directory. *)
Definition parsedWith {P : PathModule} (cwd severity_arg : string)
           (r : ICheckResult) : Prop :=
  severity r = severity_arg /\ exists f, file r = path_resolve cwd f.

(** ** [isPositionInString] and [isPositionInComment] *)

(** [document.lineAt(n).text]; [lineAt] throws for a line the document
    does not have. *)
Definition lineAt (document : vscode.TextDocument) (n : Z) : option string :=
  if n <? 0 then None else vscode.lines document !! Z.to_nat n.

(** The number of matches of the global pattern for a double quote, and
    of the one for a backslash followed by a double quote: matches are
    taken from left to right and do not overlap. *)
Fixpoint countQuotes (s : string) : Z :=
  match s with
  | EmptyString => 0
  | String a s' => (if Ascii.eqb a "034" then 1 else 0) + countQuotes s'
  end.

Fixpoint countEscapedQuotes (s : string) : Z :=
  match s with
  | EmptyString => 0
  | String a rest =>
      match rest with
      | EmptyString => 0
      | String b s' =>
          if Ascii.eqb a "092" && Ascii.eqb b "034"
          then 1 + countEscapedQuotes s'
          else countEscapedQuotes rest
      end
  end.

(** [%] is the remainder of the truncated division. *)
Definition isPositionInString (document : vscode.TextDocument)
           (position : vscode.Position) : option bool :=
  lineText ← lineAt document (vscode.line position);
  let lineTillCurrentPosition := substr0 lineText (vscode.character position) in
  let doubleQuotesCnt := countQuotes lineTillCurrentPosition in
  let escapedDoubleQuotesCnt := countEscapedQuotes lineTillCurrentPosition in
  Some (Z.rem (doubleQuotesCnt - escapedDoubleQuotesCnt) 2 =? 1).

Definition isPositionInComment (document : vscode.TextDocument)
           (position : vscode.Position) : option bool :=
  lineText ← lineAt document (vscode.line position);
  match indexOf lineText "//" with
  | Some commentIndex =>
      if Z.of_nat commentIndex <? vscode.character position then
        let commentPosition :=
          {| vscode.line := vscode.line position;
             vscode.character := Z.of_nat commentIndex |} in
        isCommentInString ← isPositionInString document commentPosition;
        Some (negb isCommentInString)
      else Some false
  | None => Some false
  end.

(** ** [guessPackageNameFromFile] *)

(** [s.split(/[\.-]/)] *)
Definition cc_dotOrDash : charclass :=
  fun a => Ascii.eqb a "." || Ascii.eqb a "-".

Fixpoint splitBy (p : charclass) (s : string) : list string :=
  match s with
  | EmptyString => [EmptyString]
  | String a s' =>
      if p a then EmptyString :: splitBy p s'
      else match splitBy p s' with
           | h :: t => String a h :: t
           | [] => [String a EmptyString]
           end
  end.

(** [/[a-zA-Z_]\w*/], not anchored *)
Definition identifierRegex : regex :=
  rcat [ RChar (fun a => in_range 97 122 a || in_range 65 90 a
                         || Ascii.eqb a "_");
         RStar cc_word ].

Definition endsWith (s suffix : string) : bool :=
  (String.length suffix <=? String.length s)%nat
  && String.eqb (drop_str (String.length s - String.length suffix) s) suffix.

Section GuessPackageName.
(** [path.basename], [path.dirname], [path.join] of two paths, and whether
    [fs.stat] finds a file. *)
Variables (basename dirname : string -> string).
Variable join2 : string -> string -> string.
Variable isFile : string -> bool.

(** The promise: [Some] of the names it resolves to, [None] when it
    rejects. *)
Definition guessPackageNameFromFile (filePath : string) : option (list string) :=
  let goFilename := basename filePath in
  if String.eqb goFilename "main.go" then Some ["main"]
  else
    let directoryPath := dirname filePath in
    let dirName := basename directoryPath in
    let segments :=
      filter (fun val => val <> "go") (splitBy cc_dotOrDash dirName) in
    match last segments with
    | None => None
    | Some lastSegment =>
        if negb (bool_decide (is_Some (exec identifierRegex lastSegment)))
        then None
        else
          let proposedPkgName := lastSegment in
          if isFile (join2 directoryPath "main.go") then Some ["main"]
          else if endsWith goFilename "_test.go"
               then Some [proposedPkgName; proposedPkgName +:+ "_test"]
               else Some [proposedPkgName]
    end.
End GuessPackageName.

(** The last segment of a path and what comes before it: [path.basename]
    and [path.dirname] on a path that has a slash and does not end with
    one. *)
Definition lastSegment (p : string) : string :=
  List.last (split "/" p) "".
Definition butLastSegment (p : string) : string :=
  join "/" (removelast (split "/" p)).

(** Two one-line documents: a statement followed by a comment, and a
    string that holds two slashes. *)
Definition commentedDocument : vscode.TextDocument :=
  {| vscode.uri := "file:///work/a.go"; vscode.lines := ["x := 1 // one"] |}.

Definition quotedDocument : vscode.TextDocument :=
  {| vscode.uri := "file:///work/b.go";
     vscode.lines := ["s := " +:+ DQ +:+ "a//b" +:+ DQ] |}.

(** ** Part II.  Properties *)

(** *** Strings *)

Lemma app_str_nil_l (s : string) : "" +:+ s = s.
Proof. reflexivity. Qed.

Lemma app_str_cons (a : ascii) (s t : string) :
  String a s +:+ t = String a (s +:+ t).
Proof. reflexivity. Qed.

Ltac str_simpl := rewrite ?app_str_cons, ?app_str_nil_l in *.

Lemma app_str_assoc (a b c : string) : (a +:+ b) +:+ c = a +:+ b +:+ c.
Proof. induction a; str_simpl; congruence. Qed.

Lemma app_str_nil_r (a : string) : a +:+ "" = a.
Proof. induction a; str_simpl; congruence. Qed.

Lemma length_app_str (a b : string) :
  String.length (a +:+ b) = (String.length a + String.length b)%nat.
Proof. induction a; str_simpl; simpl; congruence. Qed.

Lemma startsWith_app (p t : string) : startsWith (p +:+ t) p = true.
Proof.
  induction p as [|a p IH]; str_simpl; simpl; [done|].
  by rewrite Ascii.eqb_refl.
Qed.

Lemma startsWith_spec (s p : string) :
  startsWith s p = true <-> exists t, s = p +:+ t.
Proof.
  split.
  - revert s. induction p as [|a p IH]; intros s H; simpl in *.
    + by exists s.
    + destruct s as [|b s]; [done|].
      destruct (Ascii.eqb_spec a b) as [->|]; [|done].
      destruct (IH _ H) as [t ->]. by exists t.
  - intros [t ->]. apply startsWith_app.
Qed.

Lemma indexOf_start (s p : string) :
  startsWith s p = true -> indexOf s p = Some O.
Proof. intros H. destruct s; simpl; by rewrite H. Qed.

Lemma indexOf_app (a p t : string) : is_Some (indexOf (a +:+ p +:+ t) p).
Proof.
  induction a as [|c a IH]; str_simpl.
  - rewrite indexOf_start; [eauto|apply startsWith_app].
  - simpl. destruct (startsWith _ p); [eauto|].
    destruct IH as [n ->]. simpl. eauto.
Qed.

Lemma split_nonempty (c : ascii) (s : string) : split c s <> [].
Proof.
  induction s as [|a s IH]; simpl; [done|].
  destruct (Ascii.eqb a c); [done|]. by destruct (split c s).
Qed.

(** Splitting at a character and joining with it again gives the text back. *)
Lemma join_split (c : ascii) (s : string) :
  join (String c "") (split c s) = s.
Proof.
  induction s as [|a s IH]; simpl; [done|].
  pose proof (split_nonempty c s) as Hn.
  destruct (Ascii.eqb_spec a c) as [->|Hne];
    destruct (split c s) as [|h t]; try done.
  - simpl in *. str_simpl. by rewrite IH.
  - destruct t; simpl in *; str_simpl; by rewrite <- IH.
Qed.

Lemma join_app (sep : string) (l1 : list string) (x : string) (l2 : list string) :
  l1 <> [] ->
  join sep (l1 ++ x :: l2) = join sep l1 +:+ sep +:+ join sep (x :: l2).
Proof.
  induction l1 as [|y l1 IH]; [done|]. intros _.
  destruct l1 as [|z l1].
  - reflexivity.
  - change (join sep ((y :: z :: l1) ++ x :: l2))
      with (y +:+ sep +:+ join sep ((z :: l1) ++ x :: l2)).
    rewrite IH by done.
    change (join sep (y :: z :: l1)) with (y +:+ sep +:+ join sep (z :: l1)).
    by rewrite !app_str_assoc.
Qed.

(** *** Regular expressions *)

Section MatcherProperties.
Context {R : Type}.

(** A match continues at a suffix of where it started. *)
Lemma rep_class_suffix (p : charclass) (lo : nat) (hi : option nat)
      (s : string) (k : string -> option R) (x : R) :
  rep_class p lo hi s k = Some x ->
  exists pre s', s = pre +:+ s' /\ k s' = Some x.
Proof.
  assert (Hstop : forall (l : nat) (s0 : string),
             match l with O => k s0 | S _ => None end = Some x ->
             exists pre s', s0 = pre +:+ s' /\ k s' = Some x).
  { intros [|l] s0 H; [|done]. by exists "", s0. }
  revert lo hi. induction s as [|a s IH]; intros lo hi; cbn [rep_class].
  - destruct hi as [[|h]|]; apply Hstop.
  - destruct hi as [[|h]|]; [apply Hstop| |];
      (destruct (p a); [|apply Hstop]);
      (destruct (rep_class p _ _ s k) as [r|] eqn:E; [|apply Hstop]);
      intros [= ->]; destruct (IH _ _ E) as (pre & s' & -> & Hk);
      by exists (String a pre), s'.
Qed.

Lemma rmatch_suffix (n : nat) (r : regex) (s : string) (cs : captures)
      (k : string -> captures -> option R) (x : R) :
  rmatch n r s cs k = Some x ->
  exists pre s' cs', s = pre +:+ s' /\ k s' cs' = Some x.
Proof.
  revert s cs k. induction r as [|p|p|p|lo hi p|r1 IH1 r2 IH2|r1 IH1 r2 IH2
                                 |r1 IH1|g r1 IH1| |];
    intros s cs k; cbn [rmatch].
  - intros H. by exists "", s, cs.
  - destruct s as [|a s]; [done|]. destruct (p a); [|done].
    intros H. by exists (String a ""), s, cs.
  - intros H. apply rep_class_suffix in H as (pre & s' & -> & H). eauto.
  - intros H. apply rep_class_suffix in H as (pre & s' & -> & H). eauto.
  - intros H. apply rep_class_suffix in H as (pre & s' & -> & H). eauto.
  - intros H. apply IH1 in H as (pre1 & s1 & cs1 & -> & H).
    apply IH2 in H as (pre2 & s2 & cs2 & -> & H).
    exists (pre1 +:+ pre2), s2, cs2. by rewrite app_str_assoc.
  - destruct (rmatch n r1 s cs k) as [y|] eqn:E.
    + intros [= ->]. by apply IH1 in E.
    + apply IH2.
  - match goal with
    | |- match ?m with _ => _ end = _ -> _ => destruct m as [y|] eqn:E
    end.
    + intros [= ->]. apply IH1 in E as (pre & s' & cs' & -> & H).
      destruct (_ =? _)%nat; [done|]. eauto.
    + intros H. by exists "", s, cs.
  - intros H. apply IH1 in H as (pre & s' & cs' & -> & H). eauto.
  - destruct (_ =? _)%nat; [|done]. intros H. by exists "", s, cs.
  - destruct s; [|done]. intros H. by exists "", "", cs.
Qed.

(** A literal matches where the text begins with it, and binds nothing. *)
Lemma rmatch_lit (n : nat) (lit s : string) (cs : captures)
      (k : string -> captures -> option R) (x : R) :
  rmatch n (RLit lit) s cs k = Some x ->
  exists t, s = lit +:+ t /\ k t cs = Some x.
Proof.
  revert s. induction lit as [|a lit IH]; intros s; cbn [RLit rmatch].
  - intros H. by exists s.
  - destruct s as [|b s]; [done|]. unfold cc_is.
    destruct (Ascii.eqb_spec b a) as [->|]; [|done].
    intros H. apply IH in H as (t & -> & H). by exists t.
Qed.
End MatcherProperties.

Lemma take_str_app (u v : string) : take_str (String.length u) (u +:+ v) = u.
Proof.
  induction u as [|c u IH]; str_simpl; cbn; [by destruct v|]. by rewrite IH.
Qed.

(** The text matched by a pattern that opens with a literal begins with
    the literal, wherever in the input the match is found. *)
Lemma match_at_lit_prefix (n : nat) (lit : string) (r : regex) (s : string)
      (m : MatchArray) :
  match_at n (RSeq (RLit lit) r) s = Some m ->
  startsWith (m_whole m) lit = true.
Proof.
  unfold match_at. cbn [rmatch]. intros E.
  apply rmatch_lit in E as (t & -> & E).
  apply rmatch_suffix in E as (pre & s' & cs' & -> & [= <-]).
  cbn [m_whole]. rewrite !length_app_str.
  replace (String.length lit + (String.length pre + String.length s')
           - String.length s')%nat
    with (String.length (lit +:+ pre)) by (rewrite length_app_str; lia).
  rewrite <- app_str_assoc, take_str_app. apply startsWith_app.
Qed.

Lemma exec_lit_prefix (lit : string) (r : regex) (s : string) (m : MatchArray) :
  exec (RSeq (RLit lit) r) s = Some m ->
  startsWith (m_whole m) lit = true.
Proof.
  unfold exec. generalize (String.length s) as n. intros n.
  induction s as [|a s IH]; cbn [search];
    (destruct (match_at n _ _) as [m'|] eqn:E;
     [intros [= ->]; by apply match_at_lit_prefix in E|]); [done|exact IH].
Qed.

(** *** The output parser *)

Section RunToolProperties.
Context {P : PathModule}.

(** A [vendor] segment that has a further component after it is what
    the test of [runTool] looks for. *)
Lemma inVendorFolder_segment (f : string) (pre post : list string) :
  split path_sep f = pre ++ "vendor" :: post ->
  post <> [] ->
  inVendorFolder f = true.
Proof.
  intros Hsplit Hpost.
  pose proof (join_split path_sep f) as Hjoin. rewrite Hsplit in Hjoin.
  destruct post as [|x post]; [done|].
  unfold inVendorFolder.
  destruct pre as [|y pre].
  - apply orb_true_iff. left. apply startsWith_spec.
    exists (join (String path_sep "") (x :: post)).
    rewrite <- Hjoin. simpl join at 1.
    by rewrite app_str_assoc.
  - apply orb_true_iff. right. apply bool_decide_eq_true.
    rewrite <- Hjoin, join_app by done.
    set (rest := join (String path_sep "") (x :: post)).
    change (join (String path_sep "") ("vendor" :: x :: post))
      with ("vendor" +:+ String path_sep "" +:+ rest).
    set (a := join (String path_sep "") (y :: pre)).
    replace (a +:+ String path_sep "" +:+ "vendor" +:+ String path_sep "" +:+ rest)
      with (a +:+ String path_sep ("vendor" +:+ String path_sep "") +:+ rest).
    + apply indexOf_app.
    + reflexivity.
Qed.

Lemma length_appendToLast (rs : list ICheckResult) (l : string) :
  length (appendToLast rs l) = length rs.
Proof.
  unfold appendToLast. destruct (rev rs) as [|r before] eqn:E; [done|].
  rewrite <- (rev_involutive rs), E. simpl.
  rewrite !length_app. simpl. by rewrite !length_rev.
Qed.

Lemma appendToLast_snoc (before : list ICheckResult) (prev : ICheckResult)
      (l : string) :
  appendToLast (before ++ [prev]) l =
  before ++ [ {| file := file prev; line := line prev; col := col prev;
                 msg := msg prev +:+ String LF l;
                 severity := severity prev |} ].
Proof. unfold appendToLast. by rewrite rev_unit, rev_involutive. Qed.

(** Whatever the separator, [main.go] is not in a vendor folder. *)
Lemma main_go_not_in_vendor : inVendorFolder "main.go" = false.
Proof.
  unfold inVendorFolder. simpl.
  destruct (Ascii.eqb path_sep "m"), (Ascii.eqb path_sep "a"),
    (Ascii.eqb path_sep "i"), (Ascii.eqb path_sep "n"),
    (Ascii.eqb path_sep "."), (Ascii.eqb path_sep "g"),
    (Ascii.eqb path_sep "o"); reflexivity.
Qed.

Variable cwd : string.
Variable severity_arg : string.
Variable useStdErr printUnexpectedOutput : bool.
Variable stderr : string.

Ltac eval_closed t :=
  let v := eval vm_compute in t in
  replace t with v by (vm_compute; reflexivity).

(** C8 (as amended).  A line whose file is not absolute and has a segment
    [vendor] followed by a further component -- at the head of the path
    or below -- adds no diagnostic: the list of results is left as it
    is, or, when the line is a continuation line, only the message of its
    last element grows.  So [pkg/vendor/x/y.go:3: note] is dropped when
    the separator is the slash. *)
Theorem vendor_folder_lines_are_dropped
        (st : ParseState) (l f : string) (pre post : list string) :
  matchedFile l = Some f ->
  path_isAbsolute f = false ->
  split path_sep f = pre ++ "vendor" :: post ->
  post <> [] ->
  ret (parseLine cwd severity_arg useStdErr printUnexpectedOutput stderr
         st l) =
    (if startsWith l (String TAB "") && (0 <? length (ret st))%nat
     then appendToLast (ret st) l else ret st)
  /\ length (ret (parseLine cwd severity_arg useStdErr printUnexpectedOutput
                    stderr st l)) = length (ret st)
  /\ forall pcwd,
      ret (@parseOutput (posix_path pcwd) cwd severity_arg useStdErr
             printUnexpectedOutput stderr "pkg/vendor/x/y.go:3: note") = [].
Proof.
  intros Hfile Habs Hsplit Hpost.
  assert (Hret : ret (parseLine cwd severity_arg useStdErr
                             printUnexpectedOutput stderr st l) =
    (if startsWith l (String TAB "") && (0 <? length (ret st))%nat
     then appendToLast (ret st) l else ret st)).
  { unfold parseLine.
    destruct (startsWith l (String TAB "") && (0 <? length (ret st))%nat);
      [done|].
    unfold matchedFile in Hfile.
    destruct (exec lineRegex l) as [m|]; [|done].
    change (m_get m 2 = Some f) in Hfile.
    rewrite Hfile. unfold orEmpty at 1 2. simpl default.
    by rewrite Habs, (inVendorFolder_segment f pre post). }
  split; [exact Hret|]. split.
  - rewrite Hret. destruct (_ && _); [apply length_appendToLast|done].
  - intros pcwd. vm_compute. reflexivity.
Qed.

(** C9 (as amended).  The line [main.go:10:5: undefined: foo] parses to
    exactly one diagnostic: line 10, column 5, message [undefined: foo],
    and as file [main.go] resolved against the working directory. *)
Theorem parse_single_line :
  ret (parseOutput cwd severity_arg useStdErr printUnexpectedOutput stderr
         "main.go:10:5: undefined: foo") =
  [ {| file := path_resolve cwd "main.go"; line := 10; col := Some 5;
       msg := "undefined: foo"; severity := severity_arg |} ].
Proof.
  unfold parseOutput.
  eval_closed (split LF "main.go:10:5: undefined: foo").
  unfold fold_left, parseLine.
  eval_closed (startsWith "main.go:10:5: undefined: foo" (String TAB "")).
  eval_closed (exec lineRegex "main.go:10:5: undefined: foo").
  cbn [andb m_get capture m_groups orEmpty default toNumber fmap option_fmap
       option_map Nat.eqb].
  unfold id. rewrite main_go_not_in_vendor, andb_false_r. reflexivity.
Qed.

(** C2 (as amended).  Once a diagnostic has been emitted, a line that
    begins with a tab is not parsed: the whole line, tab included, is
    appended to the message of the last diagnostic after a newline.  The
    lines [main.go:10: error one] and [<tab>more detail] give one
    diagnostic, whose message is [error one], a newline, a tab and
    [more detail]. *)
Theorem continuation_line_is_appended :
  (forall (before : list ICheckResult) (prev : ICheckResult)
          (uo alsm : bool) (rest : string),
      parseLine cwd severity_arg useStdErr printUnexpectedOutput stderr
        {| ret := before ++ [prev]; unexpectedOutput := uo;
           atLeastSingleMatch := alsm |} (String TAB rest) =
      {| ret := before ++
                [ {| file := file prev; line := line prev; col := col prev;
                     msg := msg prev +:+ String LF (String TAB rest);
                     severity := severity prev |} ];
         unexpectedOutput := uo; atLeastSingleMatch := alsm |})
  /\ ret (parseOutput cwd severity_arg useStdErr printUnexpectedOutput stderr
            ("main.go:10: error one" +:+
             String LF (String TAB "more detail"))) =
     [ {| file := path_resolve cwd "main.go"; line := 10; col := None;
          msg := "error one" +:+ String LF (String TAB "more detail");
          severity := severity_arg |} ].
Proof.
  assert (Hstep : forall before prev uo alsm rest,
      parseLine cwd severity_arg useStdErr printUnexpectedOutput stderr
        {| ret := before ++ [prev]; unexpectedOutput := uo;
           atLeastSingleMatch := alsm |} (String TAB rest) =
      {| ret := before ++
                [ {| file := file prev; line := line prev; col := col prev;
                     msg := msg prev +:+ String LF (String TAB rest);
                     severity := severity prev |} ];
         unexpectedOutput := uo; atLeastSingleMatch := alsm |}).
  { intros before prev uo alsm rest. unfold parseLine.
    cbn [ret unexpectedOutput atLeastSingleMatch startsWith].
    rewrite Ascii.eqb_refl, length_app. cbn [length].
    replace (0 <? length before + 1)%nat with true
      by (symmetry; apply Nat.ltb_lt; lia).
    cbn [andb]. by rewrite appendToLast_snoc. }
  split; [exact Hstep|].
  unfold parseOutput.
  eval_closed (split LF ("main.go:10: error one" +:+
                         String LF (String TAB "more detail"))).
  cbn [fold_left].
  assert (Hfirst : parseLine cwd severity_arg useStdErr printUnexpectedOutput
                     stderr initialState "main.go:10: error one" =
    {| ret := [] ++ [ {| file := path_resolve cwd "main.go"; line := 10;
                         col := None; msg := "error one";
                         severity := severity_arg |} ];
       unexpectedOutput := false; atLeastSingleMatch := true |}).
  { unfold parseLine.
    eval_closed (startsWith "main.go:10: error one" (String TAB "")).
    eval_closed (exec lineRegex "main.go:10: error one").
    cbn [andb m_get capture m_groups orEmpty default toNumber fmap
         option_fmap option_map Nat.eqb].
    unfold id. rewrite main_go_not_in_vendor, andb_false_r. reflexivity. }
  rewrite Hfirst, Hstep. reflexivity.
Qed.

(** When no line matches, the loop ends with no result, no match, and
    the flag for unexpected output raised (strict reporting, on a
    non-empty standard error). *)
Lemma parse_unmatched_lines (lines : list string) (st : ParseState) :
  Forall (fun l => exec lineRegex l = None) lines ->
  ret st = [] ->
  stderr <> "" ->
  fold_left (parseLine cwd severity_arg true true stderr) lines st =
  {| ret := [];
     unexpectedOutput :=
       match lines with [] => unexpectedOutput st | _ => true end;
     atLeastSingleMatch := atLeastSingleMatch st |}.
Proof.
  intros Hall Hret Herr. revert st Hret.
  induction Hall as [|l lines Hl _ IH]; intros st Hret.
  - destruct st; simpl in *; by subst.
  - cbn [fold_left]. rewrite IH.
    + unfold parseLine. rewrite Hret, Hl. cbn [length].
      rewrite andb_false_r. cbn [ret unexpectedOutput atLeastSingleMatch andb].
      destruct (String.eqb_spec stderr ""); [done|].
      cbn [negb]. by destruct lines.
    + unfold parseLine. rewrite Hret, Hl. cbn [length].
      by rewrite andb_false_r.
Qed.

(** C4 (as amended).  When no line of the output matches the pattern,
    strict reporting was asked for, the output parsed is a non-empty
    standard error, the tool ended with an error (other than a missing
    binary) and an editor is active, [runTool] returns exactly one
    diagnostic: line 1, column 1 of the active document, with the whole
    standard error as its message and the severity [error]. *)
Theorem unparsable_output_is_surfaced (activeFile code stdout : string) :
  code <> "ENOENT" ->
  stderr <> "" ->
  Forall (fun l => exec lineRegex l = None) (split LF stderr) ->
  runTool cwd severity_arg true true (Some activeFile) (Some code)
          stdout stderr =
  [ {| file := activeFile; line := 1; col := Some 1; msg := stderr;
       severity := "error" |} ].
Proof.
  intros Hcode Herr Hall. unfold runTool.
  rewrite bool_decide_eq_false_2 by congruence.
  cbn [negb andb]. rewrite andb_false_r.
  unfold parseOutput. rewrite parse_unmatched_lines by done.
  cbn [ret unexpectedOutput atLeastSingleMatch initialState].
  pose proof (split_nonempty LF stderr).
  destruct (split LF stderr); [done|].
  rewrite !bool_decide_eq_true_2 by eauto. reflexivity.
Qed.
End RunToolProperties.

(** **** The parser on POSIX paths: closed instances *)

(** C9, as stated, fails: the file of the diagnostic is never the bare
    [main.go], it is the path resolved against the working directory. *)
Lemma parse_single_line_file_is_resolved :
  ~ exists d,
      ret (@parseOutput (posix_path "/home/gopher") "/work" "error" false false ""
             "main.go:10:5: undefined: foo") = [d]
      /\ file d = "main.go" /\ line d = 10 /\ col d = Some 5
      /\ msg d = "undefined: foo".
Proof.
  intros (d & Hret & Hfile & _).
  vm_compute in Hret. injection Hret as <-. vm_compute in Hfile. discriminate.
Qed.

(** C2, as stated, fails: the message keeps the tab of the continuation
    line. *)
Lemma continuation_keeps_the_tab :
  ~ exists d,
      ret (@parseOutput (posix_path "/home/gopher") "/work" "error" false false ""
             ("main.go:10: error one" +:+ String LF (String TAB "more detail")))
      = [d]
      /\ msg d = "error one" +:+ String LF "more detail".
Proof.
  intros (d & Hret & Hmsg).
  vm_compute in Hret. injection Hret as <-. vm_compute in Hmsg. discriminate.
Qed.

(** C8, as stated, fails: a relative path whose last segment is [vendor]
    is reported. *)
Lemma vendor_as_last_segment_is_reported :
  matchedFile "pkg/vendor:3: note" = Some "pkg/vendor"
  /\ @path_isAbsolute (posix_path "/home/gopher") "pkg/vendor" = false
  /\ "vendor" ∈ split (@path_sep (posix_path "/home/gopher")) "pkg/vendor"
  /\ ret (@parseOutput (posix_path "/home/gopher") "/work" "warning" false false ""
            "pkg/vendor:3: note") =
     [ {| file := "/work/pkg/vendor"; line := 3; col := None; msg := "note";
          severity := "warning" |} ].
Proof.
  split; [by vm_compute|]. split; [by vm_compute|]. split.
  - vm_compute. apply list_elem_of_further, list_elem_of_here.
  - by vm_compute.
Qed.

Lemma vendor_folder_lines_are_dropped_witness :
  (matchedFile "vendor/a.go:1: x" = Some "vendor/a.go"
   /\ @path_isAbsolute (posix_path "/home/gopher") "vendor/a.go" = false
   /\ split (@path_sep (posix_path "/home/gopher")) "vendor/a.go"
      = [] ++ "vendor" :: ["a.go"]
   /\ ["a.go"] <> [])
  /\ length (ret (@parseLine (posix_path "/home/gopher") "/work" "warning"
                    false false "" initialState "vendor/a.go:1: x"))
     = length (ret initialState).
Proof.
  split.
  - repeat split; try (vm_compute; reflexivity). discriminate.
  - apply (@vendor_folder_lines_are_dropped (posix_path "/home/gopher")
             "/work" "warning" false false "" initialState
             "vendor/a.go:1: x" "vendor/a.go" [] ["a.go"]).
    + vm_compute; reflexivity.
    + vm_compute; reflexivity.
    + vm_compute; reflexivity.
    + discriminate.
Defined.

(** C4, as stated, fails: with strict reporting asked for and no line that
    matches, nothing is returned when the tool ended without an error. *)
Lemma unparsable_output_without_error_is_dropped :
  Forall (fun l => exec lineRegex l = None) (split LF "boom")
  /\ @runTool (posix_path "/home/gopher") "/work" "error" true true
       (Some "/work/main.go") None "" "boom" = [].
Proof.
  split; [|by vm_compute].
  vm_compute. repeat constructor.
Qed.

Lemma unparsable_output_is_surfaced_witness :
  ("1" <> "ENOENT" /\ "boom" <> ""
   /\ Forall (fun l => exec lineRegex l = None) (split LF "boom"))
  /\ @runTool (posix_path "/home/gopher") "/work" "warning" true true
       (Some "/work/main.go") (Some "1") "" "boom" =
     [ {| file := "/work/main.go"; line := 1; col := Some 1; msg := "boom";
          severity := "error" |} ].
Proof.
  split.
  - repeat split; try discriminate. vm_compute. repeat constructor.
  - apply (@unparsable_output_is_surfaced (posix_path "/home/gopher")
             "/work" "warning" "boom" "/work/main.go" "1" "").
    + discriminate.
    + discriminate.
    + vm_compute. repeat constructor.
Defined.

(** *** [GoVersion] *)

Section GoVersionProperties.
Context {M : SemverModule}.

(** C3 (as amended).  For an instance that is neither a release nor a
    development build, [lt] is false and [gt] is true, whatever the
    argument: the argument is not even parsed. *)
Theorem invalid_version_comparisons (g : GoVersion.t) (v : string) :
  GoVersion.isValid g = false ->
  GoVersion.lt g v = false /\ GoVersion.gt g v = true.
Proof.
  unfold GoVersion.isValid, GoVersion.lt, GoVersion.gt.
  intros H. apply orb_false_iff in H as [Hsv Hdev].
  apply bool_decide_eq_false in Hsv. rewrite Hdev.
  destruct (GoVersion.sv g); [|done].
  exfalso. apply Hsv. eauto.
Qed.

(** C7 (what the code does instead).  Whenever the constructor recognises
    a development build, the commit it keeps is the whole matched text,
    which begins with [go version devel +], not the fragment of the
    capture group; so [format] repeats the marker.  For the output
    [go version devel +abc123 Mon Jan 1 linux/amd64] the fragment is
    [abc123], and [format] returns
    [devel +go version devel +abc123 Mon Jan 1 linux/amd64]. *)
Theorem devel_commit_is_the_whole_match :
  (forall binaryPath version : string,
      GoVersion.isDevel (GoVersion.newGoVersion binaryPath version) = true ->
      exists whole : string,
        GoVersion.commit (GoVersion.newGoVersion binaryPath version) = Some whole
        /\ startsWith whole "go version devel +" = true
        /\ GoVersion.format (GoVersion.newGoVersion binaryPath version)
           = "devel +" +:+ whole)
  /\ let g := GoVersion.newGoVersion "/usr/bin/go"
                "go version devel +abc123 Mon Jan 1 linux/amd64" in
     GoVersion.isDevel g = true
     /\ GoVersion.commit g = Some "go version devel +abc123 Mon Jan 1 linux/amd64"
     /\ GoVersion.format g = "devel +go version devel +abc123 Mon Jan 1 linux/amd64"
     /\ (m ← exec develRegex "go version devel +abc123 Mon Jan 1 linux/amd64";
         m_get m 1) = Some "abc123".
Proof.
  split.
  - intros binaryPath version. unfold GoVersion.newGoVersion, GoVersion.format.
    destruct (exec releaseRegex version); [done|].
    destruct (exec develRegex version) as [m|] eqn:E; [|done].
    intros _. exists (m_whole m). cbn [GoVersion.commit GoVersion.sv m_get].
    repeat split.
    exact (exec_lit_prefix "go version devel +"
             (rcat [RGroup 1 (rcat [RChar cc_dot; RPlus cc_alnum]); RStar cc_dot])
             version m E).
  - unfold GoVersion.newGoVersion, GoVersion.format.
    replace (exec releaseRegex "go version devel +abc123 Mon Jan 1 linux/amd64")
      with (@None MatchArray) by (vm_compute; reflexivity).
    cbv zeta.
    destruct (exec develRegex "go version devel +abc123 Mon Jan 1 linux/amd64")
      as [m|] eqn:E; [|by vm_compute in E].
    vm_compute in E. injection E as <-.
    repeat split; reflexivity.
Qed.
End GoVersionProperties.

(** C3, as stated, fails: an invalid instance answers [gt] with true also
    for an argument that does not parse. *)
Lemma invalid_gt_of_unparsable_is_true :
  let g := @GoVersion.newGoVersion triple_semver "/usr/bin/go" "gibberish" in
  GoVersion.isValid g = false
  /\ @semver_coerce triple_semver "nothing" = None
  /\ GoVersion.gt g "nothing" = true.
Proof. by vm_compute. Qed.

Lemma invalid_version_comparisons_witness :
  GoVersion.isValid (@GoVersion.newGoVersion triple_semver "/usr/bin/go" "gibberish")
    = false
  /\ GoVersion.lt (@GoVersion.newGoVersion triple_semver "/usr/bin/go" "gibberish")
       "1.17" = false
  /\ GoVersion.gt (@GoVersion.newGoVersion triple_semver "/usr/bin/go" "gibberish")
       "1.17" = true.
Proof.
  split; [vm_compute; reflexivity|].
  apply (@invalid_version_comparisons triple_semver). vm_compute; reflexivity.
Defined.

(** *** [LineBuffer] *)

Lemma first_newline_none (c : ascii) (s : string) :
  indexOf s (String c "") = None -> split c s = [s].
Proof.
  induction s as [|a s IH]; simpl; [done|].
  destruct (Ascii.eqb_spec c a) as [->|Hne]; [done|].
  destruct (Ascii.eqb_spec a c) as [->|_]; [done|].
  destruct (indexOf s (String c "")); [done|]. intros _.
  by rewrite IH.
Qed.

Lemma first_newline_some (c : ascii) (s : string) (idx : nat) :
  indexOf s (String c "") = Some idx ->
  split c s = take_str idx s :: split c (drop_str (idx + 1) s)
  /\ (String.length (drop_str (idx + 1) s) < String.length s)%nat.
Proof.
  revert idx. induction s as [|a s IH]; intros idx; simpl; [done|].
  destruct (Ascii.eqb_spec c a) as [->|Hne].
  - intros [= <-]. rewrite Ascii.eqb_refl. simpl. split; [done|lia].
  - destruct (Ascii.eqb_spec a c) as [->|_]; [done|].
    destruct (indexOf s (String c "")) as [i|]; [|done].
    intros [= <-]. destruct (IH i eq_refl) as [-> Hlen].
    simpl. split; [done|lia].
Qed.

Lemma split_cons (c a : ascii) (s : string) :
  split c (String a s) =
  if Ascii.eqb a c then "" :: split c s
  else match split c s with
       | h :: t => String a h :: t
       | [] => [String a ""]
       end.
Proof. reflexivity. Qed.

Lemma split_app (c : ascii) (x y : string) :
  split c (x +:+ y) =
  removelast (split c x) ++ split c (List.last (split c x) "" +:+ y).
Proof.
  induction x as [|a x IH]; str_simpl; [done|].
  rewrite !split_cons, IH.
  pose proof (split_nonempty c x) as Hne.
  destruct (split c x) as [|h [|h' t]]; [done| |].
  - destruct (Ascii.eqb a c) eqn:E; cbn [removelast List.last app]; [done|].
    str_simpl. by rewrite split_cons, E.
  - by destruct (Ascii.eqb a c).
Qed.

Section LineBufferProperties.
Import LineBuffer.

Lemma lineCalls_app (nl : nat) (l1 l2 : list string) :
  lineCalls nl (l1 ++ l2) = lineCalls nl l1 ++ lineCalls nl l2.
Proof. unfold lineCalls. by rewrite !flat_map_app. Qed.

(** The loop of [append], with fuel above the length of the buffer,
    fires the terminated segments of the buffer and keeps what follows
    the last newline. *)
Lemma drain_spec (fuel : nat) (b : t) :
  (String.length (buf b) < fuel)%nat ->
  drain fuel b =
  Some {| buf := List.last (split LF (buf b)) "";
          lineListeners := lineListeners b;
          lastListeners := lastListeners b;
          calls := calls b ++
                   lineCalls (lineListeners b) (terminatedSegments (buf b)) |}.
Proof.
  revert b. induction fuel as [|fuel IH]; intros b Hlen; [lia|].
  cbn [drain]. unfold terminatedSegments.
  destruct (indexOf (buf b) (String LF "")) as [idx|] eqn:E.
  - destruct (first_newline_some _ _ _ E) as [Hsplit Hshort].
    rewrite IH by (cbn; lia). cbn [buf lineListeners lastListeners calls
      fireLine setBuf].
    rewrite Hsplit. unfold terminatedSegments.
    pose proof (split_nonempty LF (drop_str (idx + 1) (buf b))).
    destruct (split LF (drop_str (idx + 1) (buf b))) as [|h t]; [done|].
    f_equal. f_equal. rewrite <- app_assoc. reflexivity.
  - rewrite (first_newline_none _ _ E). cbn.
    rewrite app_nil_r. by destruct b.
Qed.

Lemma append_spec (chunk : string) (b : t) :
  append chunk b =
  Some {| buf := List.last (split LF (buf b +:+ chunk)) "";
          lineListeners := lineListeners b;
          lastListeners := lastListeners b;
          calls := calls b ++
                   lineCalls (lineListeners b)
                     (terminatedSegments (buf b +:+ chunk)) |}.
Proof. unfold append. rewrite drain_spec by (cbn; lia). reflexivity. Qed.

Lemma last_app_nonempty {A} (l1 l2 : list A) (d : A) :
  l2 <> [] -> List.last (l1 ++ l2) d = List.last l2 d.
Proof.
  intros H. induction l1 as [|x l1 IH]; [done|].
  simpl. rewrite IH. destruct (l1 ++ l2) eqn:E; [|done].
  by apply app_eq_nil in E as [_ ?].
Qed.

(** What follows the last separator contains no separator. *)
Lemma split_last (c : ascii) (s : string) :
  split c (List.last (split c s) "") = [List.last (split c s) ""].
Proof.
  induction s as [|a s IH]; [done|].
  rewrite split_cons. pose proof (split_nonempty c s) as Hne.
  destruct (Ascii.eqb a c) eqn:E.
  - destruct (split c s); [done|]. exact IH.
  - destruct (split c s) as [|h [|h' t]]; [done| |exact IH].
    cbn [List.last] in *. by rewrite split_cons, E, IH.
Qed.

Lemma appendAll_spec (chunks : list string) (b : t) :
  split LF (buf b) = [buf b] ->
  appendAll chunks b =
  Some {| buf := List.last (split LF (buf b +:+ textOf chunks)) "";
          lineListeners := lineListeners b;
          lastListeners := lastListeners b;
          calls := calls b ++
                   lineCalls (lineListeners b)
                     (terminatedSegments (buf b +:+ textOf chunks)) |}.
Proof.
  revert b. induction chunks as [|c rest IH]; intros b Hb.
  - cbn [appendAll textOf foldr]. unfold terminatedSegments.
    rewrite app_str_nil_r, Hb. cbn. rewrite app_nil_r. by destruct b.
  - cbn [appendAll textOf foldr]. fold (textOf rest).
    rewrite append_spec. cbn [mbind option_bind].
    rewrite IH by (cbn [buf]; apply split_last).
    cbn [buf lineListeners lastListeners calls].
    unfold terminatedSegments.
    rewrite <- (app_str_assoc (buf b) c (textOf rest)).
    rewrite (split_app LF (buf b +:+ c) (textOf rest)).
    pose proof (split_nonempty LF
      (List.last (split LF (buf b +:+ c)) "" +:+ textOf rest)) as Hne.
    rewrite last_app_nonempty, removelast_app by done.
    by rewrite lineCalls_app, app_assoc.
Qed.

Lemma iter_onLine (n : nat) (b : t) :
  Nat.iter n onLine b =
  {| buf := buf b; lineListeners := n + lineListeners b;
     lastListeners := lastListeners b; calls := calls b |}.
Proof.
  induction n as [|n IH]; [by destruct b|].
  by rewrite Nat.iter_succ, IH.
Qed.

Lemma iter_onDone (n : nat) (b : t) :
  Nat.iter n onDone b =
  {| buf := buf b; lineListeners := lineListeners b;
     lastListeners := n + lastListeners b; calls := calls b |}.
Proof.
  induction n as [|n IH]; [by destruct b|].
  by rewrite Nat.iter_succ, IH.
Qed.

Lemma withListeners_fields (nl nd : nat) :
  withListeners nl nd =
  {| buf := ""; lineListeners := nl; lastListeners := nd; calls := [] |}.
Proof.
  unfold withListeners. rewrite iter_onDone, iter_onLine. cbn.
  by rewrite !Nat.add_0_r.
Qed.

(** C10.  After any sequence of [append] calls on a new buffer and one
    [done], the listeners have been called with exactly this: every line
    listener, in turn, with each newline-terminated segment of the
    concatenated chunks, in order and without the newline; then every
    done listener with the text after the last newline, or with null
    when that text is empty.  The calls always complete. *)
Theorem line_buffer_delivers_segments (nl nd : nat) (chunks : list string) :
  calls <$> feed chunks (withListeners nl nd) =
  Some (lineCalls nl (terminatedSegments (textOf chunks)) ++
        doneCalls nd (remainder (textOf chunks))).
Proof.
  rewrite withListeners_fields.
  unfold feed. rewrite appendAll_spec by done.
  cbn [buf calls lineListeners lastListeners]. str_simpl.
  cbn [fmap option_fmap option_map done fireDone calls buf lastListeners app].
  reflexivity.
Qed.
End LineBufferProperties.

(** *** [handleDiagnosticErrors] *)

Lemma map_get_None {V} (k : string) (m : list (string * V)) :
  map_get k m = None <-> k ∉ map fst m.
Proof.
  induction m as [|[k' v] m IH]; simpl.
  - split; [intros _; apply not_elem_of_nil|done].
  - rewrite not_elem_of_cons, <- IH.
    destruct (String.eqb_spec k k') as [->|Hne].
    + split; [done|]. by intros [? _].
    + split; [done|]. by intros [_ ?].
Qed.

Lemma map_get_set {V} (f k : string) (v : V) (m : list (string * V)) :
  map_get f (map_set k v m) = if String.eqb f k then Some v else map_get f m.
Proof.
  induction m as [|[k' v'] m IH]; cbn [map_set map_get]; [done|].
  destruct (String.eqb_spec k k') as [->|Hne]; cbn [map_get].
  - by destruct (String.eqb f k').
  - rewrite IH. destruct (String.eqb_spec f k') as [->|]; [|done].
    by destruct (String.eqb_spec k' k) as [->|].
Qed.

Lemma map_set_keys {V} (k : string) (v : V) (m : list (string * V)) :
  map fst (map_set k v m) =
  if bool_decide (k ∈ map fst m) then map fst m else map fst m ++ [k].
Proof.
  induction m as [|[k' v'] m IH]; cbn [map_set map fst].
  - case_bool_decide as H; [by apply elem_of_nil in H|done].
  - destruct (String.eqb_spec k k') as [->|Hne]; cbn [map fst].
    + by rewrite bool_decide_eq_true_2 by apply list_elem_of_here.
    + rewrite IH. repeat case_bool_decide; try done.
      * exfalso. eauto using list_elem_of_further.
      * exfalso. by apply elem_of_cons in H0 as [?|?].
Qed.

Lemma map_set_NoDup {V} (k : string) (v : V) (m : list (string * V)) :
  NoDup (map fst m) -> NoDup (map fst (map_set k v m)).
Proof.
  intros H. rewrite map_set_keys. case_bool_decide; [done|].
  apply NoDup_app. repeat split; [done| |apply NoDup_singleton].
  intros x Hx Hx'. apply list_elem_of_singleton in Hx'. by subst.
Qed.

Lemma deDupeDiagnostics_filter (bs ds : list vscode.Diagnostic) :
  deDupeDiagnostics bs ds = filter (fun x => ~ collidesWith bs x) ds.
Proof.
  unfold deDupeDiagnostics. apply list_filter_iff. intros x.
  unfold collidesWith. rewrite Exists_exists, list_elem_of_fmap.
  split.
  - intros H (b & Hb & Heq). apply H. by exists b.
  - intros H (b & Heq & Hb). apply H. by exists b.
Qed.

Lemma deDupeDiagnostics_nil (ds : list vscode.Diagnostic) :
  deDupeDiagnostics [] ds = ds.
Proof.
  unfold deDupeDiagnostics. cbn [map].
  induction ds as [|d ds IH]; [done|].
  rewrite filter_cons_True by apply not_elem_of_nil. by rewrite IH.
Qed.

Section MergeProperties.
Variable canonical : string -> string.
Variable document : option vscode.TextDocument.

Lemma groupErrors_NoDup (sourceName : string) (errors : list ICheckResult)
      (dm0 dm : list (string * list vscode.Diagnostic)) :
  groupErrors canonical document sourceName errors dm0 = Some dm ->
  NoDup (map fst dm0) -> NoDup (map fst dm).
Proof.
  revert dm0. induction errors as [|e errors IH]; intros dm0; cbn [groupErrors].
  - by intros [= ->].
  - destruct (toDiagnostic _ _ _ e) as [d|]; [|done]. cbn [mbind option_bind].
    intros H Hnd. eapply IH; [exact H|]. by apply map_set_NoDup.
Qed.

Lemma toDiagnostic_line (sourceName canonicalFile : string)
      (e : ICheckResult) (d : vscode.Diagnostic) :
  toDiagnostic document sourceName canonicalFile e = Some d ->
  startLine d = line e - 1.
Proof.
  unfold toDiagnostic.
  destruct (columns document canonicalFile e) as [[sc ec]|]; [|done].
  cbn [mbind option_bind]. unfold vscode.newRange, vscode.newPosition.
  destruct ((line e - 1 <? 0) || (sc <? 0)); [done|].
  destruct ((line e - 1 <? 0) || (ec <? 0)); [done|].
  cbn [mbind option_bind]. destruct (String.eqb (msg e) ""); [done|].
  intros [= <-]. unfold startLine.
  cbn [vscode.range]. by destruct (vscode.isBefore _ _).
Qed.

(** The lines of the new diagnostics of a file are the lines of the
    errors reported for it, in order. *)
Lemma groupErrors_lines (sourceName : string) (errors : list ICheckResult)
      (dm0 dm : list (string * list vscode.Diagnostic)) (f : string) :
  groupErrors canonical document sourceName errors dm0 = Some dm ->
  map startLine (default [] (map_get f dm)) =
  map startLine (default [] (map_get f dm0)) ++
  map (fun e => line e - 1) (filter (fun e => canonical (file e) = f) errors).
Proof.
  revert dm0. induction errors as [|e errors IH]; intros dm0; cbn [groupErrors].
  - intros [= ->]. by rewrite app_nil_r.
  - destruct (toDiagnostic _ _ _ e) as [d|] eqn:Hd; [|done].
    cbn [mbind option_bind]. intros H. rewrite (IH _ H). clear IH H.
    rewrite map_get_set, filter_cons.
    destruct (String.eqb_spec f (canonical (file e))) as [->|Hne].
    + rewrite decide_True by done.
      change (default [] (Some ?x)) with x. unfold id.
      rewrite map_app, <- app_assoc. cbn [map app].
      by rewrite (toDiagnostic_line _ _ _ _ Hd).
    + by rewrite decide_False by done.
Qed.

(** The files of the new diagnostics are the files of the errors. *)
Lemma groupErrors_keys (sourceName : string) (errors : list ICheckResult)
      (dm0 dm : list (string * list vscode.Diagnostic)) (f : string) :
  groupErrors canonical document sourceName errors dm0 = Some dm ->
  is_Some (map_get f dm) <->
  is_Some (map_get f dm0)
  \/ exists e, e ∈ errors /\ canonical (file e) = f.
Proof.
  revert dm0. induction errors as [|e errors IH]; intros dm0; cbn [groupErrors].
  - intros [= ->]. split; [by left|]. intros [H|(e & He & _)]; [done|].
    by apply elem_of_nil in He.
  - destruct (toDiagnostic _ _ _ e) as [d|] eqn:Hd; [|done].
    cbn [mbind option_bind]. intros H. rewrite (IH _ H). clear IH H.
    rewrite map_get_set.
    destruct (String.eqb_spec f (canonical (file e))) as [->|Hne].
    + split; [|eauto]. intros _. right. exists e.
      split; [apply list_elem_of_here|done].
    + split.
      * intros [H|(e' & He' & Hf)]; [by left|]. right. exists e'.
        split; [by apply list_elem_of_further|done].
      * intros [H|(e' & He' & Hf)]; [by left|]. right. exists e'.
        split; [|done]. apply elem_of_cons in He' as [->|He']; [|done].
        congruence.
Qed.

(** The new diagnostics of a file are the diagnostics of the errors
    reported for it, one for each, in order. *)
Lemma groupErrors_content (sourceName : string) (errors : list ICheckResult)
      (dm0 dm : list (string * list vscode.Diagnostic)) (f : string) :
  groupErrors canonical document sourceName errors dm0 = Some dm ->
  exists news,
    default [] (map_get f dm) = default [] (map_get f dm0) ++ news
    /\ Forall2 (fun e d => toDiagnostic document sourceName f e = Some d)
         (filter (fun e => canonical (file e) = f) errors) news.
Proof.
  revert dm0. induction errors as [|e errors IH]; intros dm0; cbn [groupErrors].
  - intros [= ->]. exists []. rewrite app_nil_r. split; [done|constructor].
  - destruct (toDiagnostic _ _ _ e) as [d|] eqn:Hd; [|done].
    cbn [mbind option_bind]. intros H.
    destruct (IH _ H) as (news & Hget & Hall). clear IH H.
    rewrite map_get_set in Hget. rewrite filter_cons.
    destruct (String.eqb_spec f (canonical (file e))) as [->|Hne].
    + rewrite decide_True by done. exists (d :: news).
      rewrite Hget. change (default [] (Some ?x)) with x. unfold id.
      rewrite <- app_assoc. split; [done|]. by constructor.
    + rewrite decide_False by done. by exists news.
Qed.

Section OneCategory.
Variable which : Category.

Lemma entries_set (u f : string) (ds : list vscode.Diagnostic)
      (c : vscode.DiagnosticCollection) :
  vscode.entries (vscode.set u ds c) !! f =
  if decide (u = f) then Some ds else vscode.entries c !! f.
Proof. unfold vscode.set. cbn [vscode.entries]. apply lookup_insert. Qed.

(** Publishing the diagnostics of one file leaves the other files of
    every collection alone. *)
Lemma publishFile_other (st : Stores) (f1 f : string)
      (d1 : list vscode.Diagnostic) (c : Category) :
  f1 <> f ->
  vscode.entries (collection c (publishFile which st (f1, d1))) !! f =
  vscode.entries (collection c st) !! f.
Proof.
  intros Hne. unfold publishFile.
  destruct which, c; cbn [collection withCollection];
    repeat (match goal with
            | |- context [if ?b then _ else _] => destruct b
            end; cbn [collection withCollection
                        buildDiagnosticCollection lintDiagnosticCollection
                        vetDiagnosticCollection]);
    rewrite ?entries_set; repeat case_decide; done.
Qed.

Lemma has_Some (c : vscode.DiagnosticCollection) (f : string)
      (ds : list vscode.Diagnostic) :
  vscode.entries c !! f = Some ds ->
  vscode.has c f = true /\ vscode.get c f = ds.
Proof.
  intros H. unfold vscode.has, vscode.get. rewrite H.
  split; [|done]. apply bool_decide_eq_true. eauto.
Qed.

Lemma has_None (c : vscode.DiagnosticCollection) (f : string) :
  vscode.entries c !! f = None -> vscode.has c f = false.
Proof.
  intros H. unfold vscode.has. rewrite H.
  apply bool_decide_eq_false. by intros [? ?].
Qed.

(** One turn of the loop, seen at its file. *)
Lemma publishFile_at (st : Stores) (f : string) (ds : list vscode.Diagnostic)
      (c : Category) :
  vscode.entries (collection c (publishFile which st (f, ds))) !! f =
  publishedAt which c ds
    (vscode.entries (buildDiagnosticCollection st) !! f)
    (vscode.entries (lintDiagnosticCollection st) !! f)
    (vscode.entries (vetDiagnosticCollection st) !! f).
Proof.
  unfold publishFile.
  destruct (vscode.entries (buildDiagnosticCollection st) !! f) as [bs|] eqn:Eb;
  destruct (vscode.entries (lintDiagnosticCollection st) !! f) as [ls|] eqn:El;
  destruct (vscode.entries (vetDiagnosticCollection st) !! f) as [vs|] eqn:Ev;
  try (destruct (has_Some _ _ _ Eb) as [-> ->]);
  try (destruct (has_Some _ _ _ El) as [-> ->]);
  try (destruct (has_Some _ _ _ Ev) as [-> ->]);
  try rewrite (has_None _ _ Eb);
  try rewrite (has_None _ _ El);
  try rewrite (has_None _ _ Ev);
  destruct which, c;
  cbn [collection withCollection buildDiagnosticCollection
         lintDiagnosticCollection vetDiagnosticCollection publishedAt];
  try (destruct (has_Some _ _ _ Ev) as [-> ->]);
  try rewrite (has_None _ _ Ev);
  cbn [collection withCollection buildDiagnosticCollection
         lintDiagnosticCollection vetDiagnosticCollection publishedAt];
  rewrite ?entries_set; repeat case_decide; done.
Qed.

(** What publishing does at a file depends on the stored diagnostics of
    that file only. *)
Lemma publishFile_congr (st1 st2 : Stores) (f : string)
      (ds : list vscode.Diagnostic) :
  (forall c, vscode.entries (collection c st1) !! f =
             vscode.entries (collection c st2) !! f) ->
  forall c, vscode.entries (collection c (publishFile which st1 (f, ds))) !! f =
            vscode.entries (collection c (publishFile which st2 (f, ds))) !! f.
Proof.
  intros H c. rewrite !publishFile_at.
  pose proof (H Build) as Hb. pose proof (H Lint) as Hl.
  pose proof (H Vet) as Hv. cbn [collection] in Hb, Hl, Hv.
  by rewrite Hb, Hl, Hv.
Qed.

(** The loop over the new diagnostics, file by file: at each file it
    amounts to the one turn for that file. *)
Lemma publish_all_lookup (dm : list (string * list vscode.Diagnostic))
      (st : Stores) (c : Category) (f : string) :
  NoDup (map fst dm) ->
  vscode.entries (collection c (fold_left (publishFile which) dm st)) !! f =
  match map_get f dm with
  | None => vscode.entries (collection c st) !! f
  | Some ds => vscode.entries (collection c (publishFile which st (f, ds))) !! f
  end.
Proof.
  revert st c. induction dm as [|[f1 d1] dm IH]; intros st c Hnd; [done|].
  cbn [fold_left map_get]. cbn [map fst] in Hnd.
  apply NoDup_cons in Hnd as [Hf1 Hnd].
  rewrite IH by done.
  destruct (String.eqb_spec f f1) as [->|Hne].
  - by rewrite (proj2 (map_get_None f1 dm)).
  - destruct (map_get f dm) as [ds|].
    + apply publishFile_congr. intros c'. by apply publishFile_other.
    + by apply publishFile_other.
Qed.

Lemma cleared_lookup (st : Stores) (c : Category) (f : string) :
  vscode.entries (collection c (withCollection which vscode.clear st)) !! f =
  if decide (c = which) then None else vscode.entries (collection c st) !! f.
Proof. destruct which, c; by case_decide. Qed.

(** A run for lint or vet does not touch the build collection. *)
Lemma publish_all_keeps_build (dm : list (string * list vscode.Diagnostic))
      (st : Stores) :
  which <> Build ->
  buildDiagnosticCollection (fold_left (publishFile which) dm st) =
  buildDiagnosticCollection st.
Proof.
  intros Hw. revert st. induction dm as [|[f ds] dm IH]; intros st; [done|].
  cbn [fold_left]. rewrite IH. unfold publishFile. by destruct which.
Qed.

End OneCategory.

(** The stores after the call, at a file, when no exception is thrown:
    [dm] is the map from each file of the run to its new diagnostics. *)
Lemma handle_lookup (which : Category) (errors : list ICheckResult)
      (st : Stores) (dm : list (string * list vscode.Diagnostic))
      (c : Category) (f : string) :
  groupErrors canonical document (vscode.name (collection which st)) errors []
    = Some dm ->
  handleDiagnosticErrors canonical document which errors st =
    (Returned,
     fold_left (publishFile which) dm (withCollection which vscode.clear st))
  /\ vscode.entries
       (collection c (handleDiagnosticErrors canonical document which errors st).2)
       !! f =
     match map_get f dm with
     | None => if decide (c = which) then None
               else vscode.entries (collection c st) !! f
     | Some ds =>
         publishedAt which c ds
           (if decide (Build = which) then None
            else vscode.entries (buildDiagnosticCollection st) !! f)
           (if decide (Lint = which) then None
            else vscode.entries (lintDiagnosticCollection st) !! f)
           (if decide (Vet = which) then None
            else vscode.entries (vetDiagnosticCollection st) !! f)
     end.
Proof.
  intros Hdm. unfold handleDiagnosticErrors. rewrite Hdm. split; [done|].
  cbn [snd]. rewrite publish_all_lookup
    by (eapply groupErrors_NoDup; [exact Hdm|constructor]).
  destruct (map_get f dm) as [ds|].
  - rewrite publishFile_at.
    pose proof (cleared_lookup which st Build f) as Hb.
    pose proof (cleared_lookup which st Lint f) as Hl.
    pose proof (cleared_lookup which st Vet f) as Hv.
    cbn [collection] in Hb, Hl, Hv. by rewrite Hb, Hl, Hv.
  - apply cleared_lookup.
Qed.

(** C1.  In a call that returns, with [newDiagnostics] the new
    diagnostics of file [f]: a call for the build collection removes from
    the lint and the vet diagnostics stored for [f] exactly those that
    start on the line of a new build diagnostic and keeps the others as
    they are, in order; a call for the lint or the vet collection stores
    for [f] the new diagnostics without those that start on the line of a
    build diagnostic stored for [f], and leaves the build collection as
    it is.  The new diagnostics of [f] start on the lines of the errors
    reported for [f] (counted from 0 in the editor). *)
Theorem build_wins_on_colliding_lines
        (which : Category) (errors : list ICheckResult) (st : Stores)
        (dm : list (string * list vscode.Diagnostic)) (f : string)
        (newDiagnostics : list vscode.Diagnostic) :
  groupErrors canonical document (vscode.name (collection which st)) errors []
    = Some dm ->
  map_get f dm = Some newDiagnostics ->
  let st' := (handleDiagnosticErrors canonical document which errors st).2 in
  (which = Build ->
     vscode.entries (lintDiagnosticCollection st') !! f =
       filter (fun x => ~ collidesWith newDiagnostics x)
         <$> vscode.entries (lintDiagnosticCollection st) !! f
     /\ vscode.entries (vetDiagnosticCollection st') !! f =
       filter (fun x => ~ collidesWith newDiagnostics x)
         <$> vscode.entries (vetDiagnosticCollection st) !! f)
  /\ (which <> Build ->
       vscode.entries (collection which st') !! f =
         Some (filter (fun x => ~ collidesWith
                                   (vscode.get (buildDiagnosticCollection st) f) x)
                 newDiagnostics)
       /\ buildDiagnosticCollection st' = buildDiagnosticCollection st)
  /\ (forall x, collidesWith newDiagnostics x <->
                exists e, e ∈ errors /\ canonical (file e) = f
                          /\ line e - 1 = startLine x).
Proof.
  intros Hdm Hf st'. subst st'. split; [|split].
  3: {
    pose proof (groupErrors_lines _ errors [] dm f Hdm) as Hlines.
    rewrite Hf in Hlines.
    change (map startLine newDiagnostics =
            map (fun e => line e - 1)
              (filter (fun e => canonical (file e) = f) errors)) in Hlines.
    intros x. unfold collidesWith. rewrite Exists_exists. split.
    - intros (b & Hb & Heq).
      assert (startLine b ∈ map startLine newDiagnostics) as Hin
          by (by apply list_elem_of_fmap_2).
      rewrite Hlines in Hin. apply list_elem_of_fmap in Hin as (e & He & Hin).
      apply list_elem_of_filter in Hin as [Hfile Hin].
      exists e. repeat split; [done|done|congruence].
    - intros (e & He & Hfile & Hl).
      assert (line e - 1 ∈ map startLine newDiagnostics) as Hin.
      { rewrite Hlines. apply (list_elem_of_fmap_2 (fun e => line e - 1)).
        by apply list_elem_of_filter. }
      apply list_elem_of_fmap in Hin as (b & Hb & Hin).
      exists b. split; [done|congruence]. }
  - intros ->.
    pose proof (proj2 (handle_lookup Build errors st dm Lint f Hdm)) as Hl.
    pose proof (proj2 (handle_lookup Build errors st dm Vet f Hdm)) as Hv.
    cbn [collection] in Hl, Hv.
    rewrite Hf in Hl, Hv. rewrite Hl, Hv.
    cbn [publishedAt]. repeat case_decide; try done.
    split; apply option_fmap_ext; intros; apply deDupeDiagnostics_filter.
  - intros Hw. split.
    + rewrite (proj2 (handle_lookup which errors st dm which f Hdm)), Hf.
      unfold vscode.get.
      rewrite <- deDupeDiagnostics_filter.
      destruct which; [done| |]; cbn [publishedAt];
        repeat case_decide; try done;
        destruct (vscode.entries (buildDiagnosticCollection st) !! f);
        cbn [default]; by rewrite ?deDupeDiagnostics_nil.
    + unfold handleDiagnosticErrors. rewrite Hdm. cbn [snd].
      rewrite publish_all_keeps_build by done. by destruct which.
Qed.

(** C6 (as amended).  A call that returns first clears the collection it
    is given and then stores the new set of each file of the run: after
    it the collection has an entry exactly for the files the errors name,
    and the entry of such a file is its new set (in a call for the lint or
    the vet collection without the diagnostics that start on the line of
    a build diagnostic stored for the file), so what the collection held
    for a file the run does not mention is gone, while the other
    collections keep what they held for such a file.  The new set of a
    file holds the diagnostics of the errors reported for it, one for
    each, in order. *)
Theorem publish_replaces_the_collection
        (which : Category) (errors : list ICheckResult) (st : Stores)
        (dm : list (string * list vscode.Diagnostic)) :
  groupErrors canonical document (vscode.name (collection which st)) errors []
    = Some dm ->
  let st' := (handleDiagnosticErrors canonical document which errors st).2 in
  (forall f, map_get f dm = None ->
             vscode.entries (collection which st') !! f = None)
  /\ (forall f ds, map_get f dm = Some ds ->
        vscode.entries (collection which st') !! f =
        Some (if decide (which = Build) then ds
              else filter (fun x => ~ collidesWith
                                      (vscode.get (buildDiagnosticCollection st) f) x)
                     ds))
  /\ (forall c f, c <> which -> map_get f dm = None ->
        vscode.entries (collection c st') !! f =
        vscode.entries (collection c st) !! f)
  /\ (forall f, is_Some (map_get f dm) <->
                exists e, e ∈ errors /\ canonical (file e) = f)
  /\ (forall f ds, map_get f dm = Some ds ->
        Forall2 (fun e d =>
                   toDiagnostic document (vscode.name (collection which st)) f e
                   = Some d)
          (filter (fun e => canonical (file e) = f) errors) ds).
Proof.
  intros Hdm st'. split; [|split; [|split; [|split]]].
  - intros f Hf. subst st'.
    rewrite (proj2 (handle_lookup which errors st dm which f Hdm)), Hf.
    by case_decide.
  - intros f ds Hf. subst st'.
    rewrite (proj2 (handle_lookup which errors st dm which f Hdm)), Hf.
    unfold vscode.get. rewrite <- deDupeDiagnostics_filter.
    destruct which; cbn [publishedAt]; repeat case_decide; try done;
      destruct (vscode.entries (buildDiagnosticCollection st) !! f);
      cbn [default]; by rewrite ?deDupeDiagnostics_nil.
  - intros c f Hc Hf. subst st'.
    rewrite (proj2 (handle_lookup which errors st dm c f Hdm)), Hf.
    by case_decide.
  - intros f. rewrite (groupErrors_keys _ errors [] dm f Hdm). cbn [map_get].
    split; [|by right]. intros [[? ?]|H]; done.
  - intros f ds Hf.
    destruct (groupErrors_content _ errors [] dm f Hdm) as (news & Hget & Hall).
    rewrite Hf in Hget. cbn [map_get default app] in Hget.
    unfold id in Hget. by subst news.
Qed.
End MergeProperties.

(** **** The merge on sample stores: closed instances *)

Lemma build_wins_on_colliding_lines_witness :
  groupErrors fileUri None (vscode.name (collection Build sampleStores))
    sampleErrors [] = Some [("file:///w/a.go", sampleNew)]
  /\ map_get "file:///w/a.go" [("file:///w/a.go", sampleNew)] = Some sampleNew
  /\ vscode.entries
       (lintDiagnosticCollection
          (handleDiagnosticErrors fileUri None Build sampleErrors sampleStores).2)
       !! "file:///w/a.go" =
     filter (fun x => ~ collidesWith sampleNew x)
       <$> vscode.entries (lintDiagnosticCollection sampleStores) !! "file:///w/a.go".
Proof.
  split; [vm_compute; reflexivity|]. split; [vm_compute; reflexivity|].
  apply (build_wins_on_colliding_lines fileUri None Build sampleErrors
           sampleStores [("file:///w/a.go", sampleNew)] "file:///w/a.go"
           sampleNew).
  - vm_compute; reflexivity.
  - vm_compute; reflexivity.
  - reflexivity.
Defined.

(** The sample, computed: of the two lint diagnostics of [a.go] the one on
    the line of the build error is gone, the other stays. *)
Example build_run_on_sample :
  vscode.entries
    (lintDiagnosticCollection
       (handleDiagnosticErrors fileUri None Build sampleErrors sampleStores).2)
    !! "file:///w/a.go" = Some [diagnosticAt 6 "exported y" "go-lint"].
Proof. vm_compute. reflexivity. Qed.

(** C6, as stated, fails: a lint run that reports on [a.go] only removes
    the lint diagnostics stored for [b.go]. *)
Lemma unmentioned_file_is_cleared :
  let lintErrors :=
    [ {| file := "/w/a.go"; line := 9; col := None; msg := "exported w";
         severity := "warning" |} ] in
  (handleDiagnosticErrors fileUri None Lint lintErrors sampleStores).1 = Returned
  /\ Forall (fun e => fileUri (file e) <> "file:///w/b.go") lintErrors
  /\ vscode.entries (lintDiagnosticCollection sampleStores) !! "file:///w/b.go"
     = Some [diagnosticAt 1 "exported z" "go-lint"]
  /\ vscode.entries
       (lintDiagnosticCollection
          (handleDiagnosticErrors fileUri None Lint lintErrors sampleStores).2)
       !! "file:///w/b.go" = None.
Proof.
  repeat split; try (vm_compute; reflexivity).
  repeat constructor. vm_compute. discriminate.
Qed.

Lemma publish_replaces_the_collection_witness :
  groupErrors fileUri None (vscode.name (collection Lint sampleStores))
    sampleLintErrors [] = Some [("file:///w/a.go", sampleLintNew)]
  /\ vscode.entries (lintDiagnosticCollection sampleStores) !! "file:///w/b.go"
     = Some [diagnosticAt 1 "exported z" "go-lint"]
  /\ vscode.entries (lintDiagnosticCollection sampleStores) !! "file:///w/a.go"
     = Some [diagnosticAt 4 "exported x" "go-lint";
             diagnosticAt 6 "exported y" "go-lint"]
  /\ vscode.entries
       (collection Lint
          (handleDiagnosticErrors fileUri None Lint sampleLintErrors
             sampleStores).2)
       !! "file:///w/b.go" = None
  /\ vscode.entries
       (collection Lint
          (handleDiagnosticErrors fileUri None Lint sampleLintErrors
             sampleStores).2)
       !! "file:///w/a.go" = Some sampleLintNew.
Proof.
  assert (H : groupErrors fileUri None
                (vscode.name (collection Lint sampleStores)) sampleLintErrors []
              = Some [("file:///w/a.go", sampleLintNew)])
    by (vm_compute; reflexivity).
  split; [exact H|]. split; [vm_compute; reflexivity|].
  split; [vm_compute; reflexivity|].
  destruct (publish_replaces_the_collection fileUri None Lint sampleLintErrors
              sampleStores [("file:///w/a.go", sampleLintNew)] H)
    as (Hgone & Hstored & _).
  split.
  - apply Hgone. vm_compute; reflexivity.
  - rewrite (Hstored "file:///w/a.go" sampleLintNew) by (vm_compute; reflexivity).
    vm_compute. reflexivity.
Defined.

(** *** The byte offset converter *)

Ltac decide_comparisons :=
  repeat (match goal with
          | |- context [Z.leb ?a ?b] => destruct (Z.leb_spec a b); try lia
          | |- context [Z.eqb ?a ?b] => destruct (Z.eqb_spec a b); try lia
          end; cbn [andb orb negb]).

Ltac split_ranges :=
  repeat match goal with
         | H : _ && _ = true |- _ => apply andb_true_iff in H as [? ?]
         | H : _ || _ = true |- _ => apply orb_true_iff in H as [?|?]
         | H : between _ _ _ = true |- _ =>
             unfold between in H
         | H : (_ <=? _) = true |- _ => apply Z.leb_le in H
         end.

(** The decoder reads a well-formed character as one character: its code
    units, then whatever the rest decodes to. *)
Lemma utf8_units_char (c rest : list Byte.byte) (u : Z) :
  wellFormedChar c = Some u ->
  utf8_units Idle (c ++ rest) = u + utf8_units Idle rest.
Proof.
  unfold wellFormedChar.
  destruct c as [|b0 [|b1 [|b2 [|b3 [|b4 c]]]]]; try done.
  - destruct (between 0 127 b0) eqn:E0; [|done]. intros [= <-].
    split_ranges. cbn [app utf8_units utf8_step]. unfold utf8_first.
    by decide_comparisons.
  - destruct (_ && _) eqn:E0; [|done]. intros [= <-].
    split_ranges. cbn [app utf8_units utf8_step]. unfold utf8_first.
    decide_comparisons. cbn [utf8_units utf8_step]. by decide_comparisons.
  - destruct (_ && _) eqn:E0; [|done]. intros [= <-].
    split_ranges; cbn [app utf8_units utf8_step]; unfold utf8_first;
      decide_comparisons; cbn [utf8_units utf8_step]; decide_comparisons;
      cbn [utf8_units utf8_step]; by decide_comparisons.
  - destruct (_ && _) eqn:E0; [|done]. intros [= <-].
    split_ranges; cbn [app utf8_units utf8_step]; unfold utf8_first;
      decide_comparisons; cbn [utf8_units utf8_step]; decide_comparisons;
      cbn [utf8_units utf8_step]; decide_comparisons;
      cbn [utf8_units utf8_step]; by decide_comparisons.
Qed.

Lemma wellFormedChar_size (c : list Byte.byte) (u : Z) :
  wellFormedChar c = Some u -> 1 <= u <= 2 /\ (1 <= length c)%nat.
Proof.
  unfold wellFormedChar.
  destruct c as [|b0 [|b1 [|b2 [|b3 [|b4 c]]]]]; try done;
    (destruct (_ : bool); [|done]); intros [= <-]; cbn [length]; lia.
Qed.

Lemma charLength_app (a b : list (list Byte.byte)) :
  charLength (a ++ b) = charLength a + charLength b.
Proof.
  unfold charLength. induction a as [|c a IH]; cbn [foldr app]; lia.
Qed.

Lemma byteLength_app (a b : list (list Byte.byte)) :
  byteLength (a ++ b) = byteLength a + byteLength b.
Proof. unfold byteLength. rewrite concat_app, length_app. lia. Qed.

Section Converter.
Variable chars : list (list Byte.byte).
Hypothesis valid : validText chars.

Lemma validText_sub (n k : nat) : validText (take k (drop n chars)).
Proof. by apply Forall_take, Forall_drop. Qed.

Lemma charLength_nonneg (cs : list (list Byte.byte)) :
  validText cs -> 0 <= charLength cs.
Proof.
  unfold charLength, validText. intros H.
  induction H as [|c cs [u Hu] _ IH]; cbn [foldr]; [lia|].
  rewrite Hu. change (default 0 (Some u)) with u.
  pose proof (wellFormedChar_size c u Hu). lia.
Qed.

Lemma byteLength_ge (cs : list (list Byte.byte)) :
  validText cs -> Z.of_nat (length cs) <= byteLength cs.
Proof.
  unfold byteLength, validText. intros H.
  induction H as [|c cs [u Hu] _ IH]; cbn [concat length].
  - lia.
  - rewrite length_app. pose proof (wellFormedChar_size c u Hu). lia.
Qed.

Lemma utf8_units_text (cs : list (list Byte.byte)) :
  validText cs -> utf8_units Idle (concat cs) = charLength cs.
Proof.
  unfold charLength, validText. intros H.
  induction H as [|c cs [u Hu] _ IH]; cbn [concat foldr].
  - reflexivity.
  - rewrite (utf8_units_char c (concat cs) u Hu), IH, Hu. reflexivity.
Qed.

(** Decoding the span between two boundaries counts the characters
    between them. *)
Lemma decoded_between (m k : nat) :
  decodedLength (bufferOf chars) (byteLength (take m chars))
                (byteLength (take (m + k) chars)) =
  charLength (take (m + k) chars) - charLength (take m chars).
Proof.
  unfold decodedLength, bufferOf.
  rewrite <- (take_take_drop chars m k), byteLength_app, charLength_app.
  unfold byteLength.
  set (a := length (concat (take m chars))).
  set (bl := length (concat (take k (drop m chars)))).
  rewrite Z.max_r by lia.
  replace (Z.to_nat (Z.of_nat a + Z.of_nat bl - Z.of_nat a)) with bl by lia.
  rewrite Nat2Z.id. subst a bl.
  assert (drop (length (concat (take m chars))) (concat chars)
          = concat (drop m chars)) as ->.
  { transitivity (drop (length (concat (take m chars)))
                    (concat (take m chars ++ drop m chars))).
    - by rewrite take_drop.
    - by rewrite concat_app, drop_app_length. }
  assert (take (length (concat (take k (drop m chars)))) (concat (drop m chars))
          = concat (take k (drop m chars))) as ->.
  { transitivity (take (length (concat (take k (drop m chars))))
                    (concat (take k (drop m chars) ++ drop k (drop m chars)))).
    - by rewrite take_drop.
    - by rewrite concat_app, take_app_length. }
  rewrite utf8_units_text by apply validText_sub. lia.
Qed.

(** Exact samples are ordered alike in bytes and in characters. *)
Lemma exactSample_le (n1 n2 : nat) :
  (n1 <= n2)%nat ->
  byteLength (take n1 chars) <= byteLength (take n2 chars)
  /\ charLength (take n1 chars) <= charLength (take n2 chars)
  /\ (byteLength (take n1 chars) = byteLength (take n2 chars) ->
      charLength (take n1 chars) = charLength (take n2 chars)).
Proof.
  intros Hle. replace n2 with (n1 + (n2 - n1))%nat by lia.
  rewrite <- (take_take_drop chars n1 (n2 - n1)), byteLength_app, charLength_app.
  pose proof (validText_sub n1 (n2 - n1)) as Hv.
  pose proof (charLength_nonneg _ Hv). pose proof (byteLength_ge _ Hv) as Hb.
  repeat split; try lia.
  intros Heq.
  assert (length (take (n2 - n1) (drop n1 chars)) = 0%nat) as Hnil by lia.
  apply length_zero_iff_nil in Hnil. rewrite Hnil. cbn. lia.
Qed.

Lemma exactSample_order (b1 c1 b2 c2 : Z) :
  exactSample chars b1 c1 -> exactSample chars b2 c2 ->
  (b1 < b2 -> c1 <= c2) /\ (b1 = b2 -> c1 = c2).
Proof.
  intros (n1 & -> & ->) (n2 & -> & ->).
  destruct (Nat.le_ge_cases n1 n2) as [H|H];
    destruct (exactSample_le _ _ H) as (Hb & Hc & He); split; intros; lia.
Qed.

Lemma getNearest_exact (q : Z) (d : NearestNeighborDict.t) :
  soundMemo chars d ->
  exactSample chars (key (NearestNeighborDict.getNearest q d))
                    (value (NearestNeighborDict.getNearest q d)).
Proof.
  intros [Hseed Hall]. unfold NearestNeighborDict.getNearest.
  assert (Hl : forall kv, kv ∈ map_to_list (NearestNeighborDict.samples d) ->
                          exactSample chars kv.1 kv.2).
  { intros [k v] Hkv. apply elem_of_map_to_list in Hkv. by apply Hall. }
  induction (map_to_list (NearestNeighborDict.samples d)) as [|kv l IH];
    cbn [foldr]; [done|].
  assert (Hcases : forall best,
             NearestNeighborDict.nearer d q kv best
               = {| key := kv.1; value := kv.2 |}
             \/ NearestNeighborDict.nearer d q kv best = best).
  { intros best. unfold NearestNeighborDict.nearer. destruct (_ || _); eauto. }
  destruct (Hcases (foldr (NearestNeighborDict.nearer d q)
                      (NearestNeighborDict.seed d) l)) as [-> | ->].
  - apply Hl, list_elem_of_here.
  - apply IH. intros kv' Hkv'. by apply Hl, list_elem_of_further.
Qed.

(** A query at a boundary returns the exact character offset, keeps the
    buffer and keeps the memo sound. *)
Lemma charOffsetFor_exact (cv : Converter) (b c : Z) :
  buffer cv = bufferOf chars ->
  soundMemo chars (memo cv) ->
  exactSample chars b c ->
  (charOffsetFor cv b).1 = c
  /\ buffer (charOffsetFor cv b).2 = bufferOf chars
  /\ soundMemo chars (memo (charOffsetFor cv b).2).
Proof.
  intros Hbuf Hmemo Hb. unfold charOffsetFor. rewrite Hbuf.
  pose proof (getNearest_exact b (memo cv) Hmemo) as Hnear.
  destruct (exactSample_order _ _ _ _ Hnear Hb) as [Hlt Heq].
  destruct (exactSample_order _ _ _ _ Hb Hnear) as [Hgt _].
  set (nearest := NearestNeighborDict.getNearest b (memo cv)) in *.
  destruct (Z.eqb_spec (b - key nearest) 0) as [H0|H0]; cbn [fst snd].
  { split; [apply Heq; lia|done]. }
  assert (Hval : value nearest +
            (if b - key nearest >? 0
             then decodedLength (bufferOf chars) (key nearest) b
             else - decodedLength (bufferOf chars) b (key nearest)) = c).
  { destruct Hnear as (m & Hkm & Hvm). destruct Hb as (n & Hbn & Hcn).
    rewrite Hkm, Hvm, Hbn, Hcn in *.
    destruct (Z.gtb_spec (byteLength (take n chars) - byteLength (take m chars)) 0)
      as [Hpos|Hneg].
    - destruct (Nat.le_ge_cases m n) as [Hmn|Hnm].
      + replace n with (m + (n - m))%nat by lia. rewrite decoded_between. lia.
      + pose proof (exactSample_le _ _ Hnm). lia.
    - destruct (Nat.le_ge_cases n m) as [Hnm|Hmn].
      + replace m with (n + (m - n))%nat by lia. rewrite decoded_between. lia.
      + pose proof (exactSample_le _ _ Hmn). lia. }
  rewrite Hval. cbn [buffer memo]. split; [done|]. split; [done|].
  destruct Hmemo as [Hseed Hall]. split; [done|].
  intros k v. unfold NearestNeighborDict.insert.
  cbn [NearestNeighborDict.samples].
  rewrite lookup_insert. case_decide as Hk.
  - intros [= <-]. by subst k.
  - apply Hall.
Qed.

Lemma new_converter_sound :
  soundMemo chars (memo (makeMemoizedByteOffsetConverter (bufferOf chars))).
Proof.
  assert (exactSample chars 0 0) as H0 by (by exists 0%nat).
  split; [done|]. intros k v.
  unfold makeMemoizedByteOffsetConverter, NearestNeighborDict.new.
  cbn [memo NearestNeighborDict.samples key value].
  rewrite lookup_singleton. case_decide; [|done]. intros [= <-]. by subst.
Qed.

Lemma queries_exact (cv : Converter) (qs : list Z) :
  buffer cv = bufferOf chars ->
  soundMemo chars (memo cv) ->
  Forall (boundary chars) qs ->
  Forall2 (exactSample chars) qs (queries cv qs).
Proof.
  intros Hbuf Hmemo Hqs. revert cv Hbuf Hmemo.
  induction Hqs as [|q qs [n Hq] _ IH]; intros cv Hbuf Hmemo; cbn [queries].
  - constructor.
  - assert (exactSample chars q (charLength (take n chars))) as Hex
      by (by exists n).
    destruct (charOffsetFor_exact cv q _ Hbuf Hmemo Hex) as (Hc & Hb' & Hm').
    destruct (charOffsetFor cv q) as [c cv'].
    cbn [fst snd] in *. subst c. constructor; [done|]. by apply IH.
Qed.

(** C5.  Against one converter for a buffer of valid UTF-8, in any
    sequence of queries at character boundaries, the answers to two
    queries [b1 < b2] satisfy [charOffsetFor(b1) <= charOffsetFor(b2)],
    wherever the two stand in the sequence and whatever was asked, and
    so cached, before and between them. *)
Theorem charOffsetFor_monotone (qs : list Z) (i j : nat) (b1 b2 c1 c2 : Z) :
  Forall (boundary chars) qs ->
  qs !! i = Some b1 ->
  qs !! j = Some b2 ->
  queries (makeMemoizedByteOffsetConverter (bufferOf chars)) qs !! i = Some c1 ->
  queries (makeMemoizedByteOffsetConverter (bufferOf chars)) qs !! j = Some c2 ->
  b1 < b2 ->
  c1 <= c2.
Proof.
  intros Hqs Hi Hj Hci Hcj Hlt.
  pose proof (queries_exact (makeMemoizedByteOffsetConverter (bufferOf chars))
                qs eq_refl new_converter_sound Hqs) as Hall.
  pose proof (Forall2_lookup_lr _ _ _ _ _ _ Hall Hi Hci) as H1.
  pose proof (Forall2_lookup_lr _ _ _ _ _ _ Hall Hj Hcj) as H2.
  by apply (exactSample_order _ _ _ _ H1 H2).
Qed.
End Converter.

(** **** The converter on the sample text: a closed instance *)

Lemma sampleText_valid : validText sampleText.
Proof. repeat constructor; vm_compute; eauto. Qed.

Lemma sampleQueries_boundaries :
  Forall (boundary sampleText) [11; 3; 0; 1; 6; 12; 7; 3].
Proof.
  repeat constructor;
    [exists 5%nat|exists 2%nat|exists 0%nat|exists 1%nat
    |exists 3%nat|exists 6%nat|exists 4%nat|exists 2%nat]; reflexivity.
Qed.

Lemma charOffsetFor_monotone_witness :
  (validText sampleText
   /\ Forall (boundary sampleText) [11; 3; 0; 1; 6; 12; 7; 3]
   /\ [11; 3; 0; 1; 6; 12; 7; 3] !! 1%nat = Some 3
   /\ [11; 3; 0; 1; 6; 12; 7; 3] !! 0%nat = Some 11
   /\ queries (makeMemoizedByteOffsetConverter (bufferOf sampleText))
        [11; 3; 0; 1; 6; 12; 7; 3]
        !! 1%nat = Some 2
   /\ queries (makeMemoizedByteOffsetConverter (bufferOf sampleText))
        [11; 3; 0; 1; 6; 12; 7; 3]
        !! 0%nat = Some 6
   /\ 3 < 11)
  /\ 2 <= 6.
Proof.
  split.
  - split; [exact sampleText_valid|]. split; [exact sampleQueries_boundaries|].
    repeat split; try (vm_compute; reflexivity).
  - apply (charOffsetFor_monotone sampleText sampleText_valid
             [11; 3; 0; 1; 6; 12; 7; 3] 1 0 3 11 2 6).
    + exact sampleQueries_boundaries.
    + reflexivity.
    + reflexivity.
    + vm_compute; reflexivity.
    + vm_compute; reflexivity.
    + lia.
Defined.

(** *** The byte offset converter, on any buffer *)

Lemma numeric_distance_zero (a b : Z) :
  0 <= NearestNeighborDict.NUMERIC_DISTANCE_FUNCTION a b
  /\ (NearestNeighborDict.NUMERIC_DISTANCE_FUNCTION a b = 0 <-> a = b).
Proof.
  unfold NearestNeighborDict.NUMERIC_DISTANCE_FUNCTION.
  destruct (Z.gtb_spec a b); lia.
Qed.

Lemma nearer_cases (d : NearestNeighborDict.t) (q : Z) (kv : Z * Z)
      (best : Node) :
  NearestNeighborDict.nearer d q kv best = {| key := kv.1; value := kv.2 |}
  \/ NearestNeighborDict.nearer d q kv best = best.
Proof. unfold NearestNeighborDict.nearer. destruct (_ || _); eauto. Qed.

(** [getNearest] returns the first sample or a stored one. *)
Lemma nearest_origin (d : NearestNeighborDict.t) (q : Z) (l : list (Z * Z)) :
  let r := foldr (NearestNeighborDict.nearer d q) (NearestNeighborDict.seed d) l in
  r = NearestNeighborDict.seed d \/ (key r, value r) ∈ l.
Proof.
  induction l as [|kv l IH]; cbn [foldr]; [by left|]. cbv zeta in *.
  destruct (nearer_cases d q kv
              (foldr (NearestNeighborDict.nearer d q)
                 (NearestNeighborDict.seed d) l)) as [-> | ->].
  - right. destruct kv. apply list_elem_of_here.
  - destruct IH as [->|IH]; [by left|right]. by apply list_elem_of_further.
Qed.

(** With the numeric distance, a query at a stored key returns that
    sample. *)
Lemma getNearest_hit (d : NearestNeighborDict.t) (q v : Z) :
  NearestNeighborDict.distance d
    = NearestNeighborDict.NUMERIC_DISTANCE_FUNCTION ->
  (key (NearestNeighborDict.seed d) = q ->
   value (NearestNeighborDict.seed d) = v) ->
  NearestNeighborDict.samples d !! q = Some v ->
  NearestNeighborDict.getNearest q d = {| key := q; value := v |}.
Proof.
  intros Hdist Hseed Hq. unfold NearestNeighborDict.getNearest.
  assert (Hin : (q, v) ∈ map_to_list (NearestNeighborDict.samples d))
    by (by apply elem_of_map_to_list).
  pose proof (NoDup_fst_map_to_list (NearestNeighborDict.samples d)) as Hnd.
  induction (map_to_list (NearestNeighborDict.samples d)) as [|[k v'] l IH];
    cbn [foldr].
  - by apply elem_of_nil in Hin.
  - cbn [fmap list_fmap fst] in Hnd. apply NoDup_cons in Hnd as [Hk Hnd].
    unfold NearestNeighborDict.nearer at 1. rewrite Hdist. cbn [fst snd].
    set (r := foldr (NearestNeighborDict.nearer d q)
                (NearestNeighborDict.seed d) l) in *.
    pose proof (numeric_distance_zero q k) as [Hk0 Hkz].
    pose proof (numeric_distance_zero q (key r)) as [Hr0 Hrz].
    assert (Hr : r = NearestNeighborDict.seed d \/ (key r, value r) ∈ l)
      by apply nearest_origin.
    apply elem_of_cons in Hin as [[= <- <-]|Hin].
    + assert (NearestNeighborDict.NUMERIC_DISTANCE_FUNCTION q q = 0) as ->
          by (by apply Hkz).
      destruct (Z.ltb_spec 0 (NearestNeighborDict.NUMERIC_DISTANCE_FUNCTION
                                q (key r))) as [Hlt|Hge]; [done|].
      cbn [orb].
      assert (key r = q) as Hkr by (symmetry; apply Hrz; lia).
      rewrite Hkr, Z.ltb_irrefl, andb_false_r.
      destruct Hr as [Hr|Hr].
      * destruct r as [kr vr]. cbn [key value] in *. subst kr. f_equal.
        rewrite <- Hr in Hseed. by apply Hseed.
      * exfalso. apply Hk. rewrite <- Hkr.
        by apply (list_elem_of_fmap_2 fst) in Hr.
    + specialize (IH Hin Hnd). rewrite IH. cbn [key].
      assert (NearestNeighborDict.NUMERIC_DISTANCE_FUNCTION q q = 0) as ->
          by (by apply (numeric_distance_zero q q)).
      assert (k <> q) as Hne.
      { intros ->. apply Hk. by apply (list_elem_of_fmap_2 fst) in Hin. }
      assert (NearestNeighborDict.NUMERIC_DISTANCE_FUNCTION q k <> 0)
        by (intros H0; apply Hne; symmetry; by apply Hkz).
      destruct (Z.ltb_spec (NearestNeighborDict.NUMERIC_DISTANCE_FUNCTION q k) 0);
        [lia|].
      destruct (Z.eqb_spec (NearestNeighborDict.NUMERIC_DISTANCE_FUNCTION q k) 0);
        [lia|]. reflexivity.
Qed.

Lemma getNearest_stored (cv : Converter) (q : Z) :
  keepsSeed cv ->
  NearestNeighborDict.samples (memo cv)
    !! key (NearestNeighborDict.getNearest q (memo cv))
  = Some (value (NearestNeighborDict.getNearest q (memo cv))).
Proof.
  intros [_ Hseed]. unfold NearestNeighborDict.getNearest.
  destruct (nearest_origin (memo cv) q
              (map_to_list (NearestNeighborDict.samples (memo cv))))
    as [-> | Hin]; [done|].
  by apply elem_of_map_to_list in Hin.
Qed.

Lemma new_converter_keepsSeed (buffer_ : list Byte.byte) :
  keepsSeed (makeMemoizedByteOffsetConverter buffer_).
Proof.
  split; [done|]. unfold makeMemoizedByteOffsetConverter, NearestNeighborDict.new.
  cbn [memo NearestNeighborDict.samples NearestNeighborDict.seed key value].
  apply lookup_singleton_eq.
Qed.

(** A query leaves every stored sample as it is, and stores its answer:
    a sample is only added at a key that is not stored yet. *)
Lemma charOffsetFor_keeps (cv : Converter) (q : Z) :
  keepsSeed cv ->
  keepsSeed (charOffsetFor cv q).2
  /\ (forall k v, NearestNeighborDict.samples (memo cv) !! k = Some v ->
        NearestNeighborDict.samples (memo (charOffsetFor cv q).2) !! k = Some v)
  /\ NearestNeighborDict.samples (memo (charOffsetFor cv q).2) !! q
     = Some (charOffsetFor cv q).1.
Proof.
  intros Hcv. pose proof (getNearest_stored cv q Hcv) as Hst.
  destruct Hcv as [Hdist Hseed]. unfold charOffsetFor.
  set (nearest := NearestNeighborDict.getNearest q (memo cv)) in *.
  destruct (Z.eqb_spec (q - key nearest) 0) as [H0|H0]; cbn [fst snd].
  - repeat split; try done. replace q with (key nearest) by lia. done.
  - assert (Hfresh : NearestNeighborDict.samples (memo cv) !! q = None).
    { destruct (NearestNeighborDict.samples (memo cv) !! q) as [v|] eqn:E;
        [|done].
      exfalso. apply H0.
      assert (Hs : key (NearestNeighborDict.seed (memo cv)) = q ->
                   value (NearestNeighborDict.seed (memo cv)) = v)
        by (intros Hk; rewrite Hk in Hseed; congruence).
      subst nearest. rewrite (getNearest_hit (memo cv) q v Hdist Hs E).
      cbn [key]. lia. }
    unfold keepsSeed.
    cbn [memo NearestNeighborDict.insert NearestNeighborDict.samples
         NearestNeighborDict.seed NearestNeighborDict.distance].
    split; [split; [done|]|split].
    + rewrite lookup_insert_ne; [done|]. intros Heq. congruence.
    + intros k v Hk. rewrite lookup_insert_ne; [done|]. intros Heq. congruence.
    + apply lookup_insert_eq.
Qed.

Lemma afterQueries_keeps (cv : Converter) (qs : list Z) :
  keepsSeed cv ->
  keepsSeed (afterQueries cv qs)
  /\ (forall k v, NearestNeighborDict.samples (memo cv) !! k = Some v ->
        NearestNeighborDict.samples (memo (afterQueries cv qs)) !! k = Some v)
  /\ NearestNeighborDict.seed (memo (afterQueries cv qs))
     = NearestNeighborDict.seed (memo cv).
Proof.
  revert cv. induction qs as [|q qs IH]; intros cv Hcv; cbn [afterQueries].
  - done.
  - destruct (charOffsetFor_keeps cv q Hcv) as (Hcv' & Hkeep & _).
    destruct (IH _ Hcv') as (Hinv & Hkeep' & Hseed). repeat split; try apply Hinv.
    + intros k v Hk. by apply Hkeep', Hkeep.
    + rewrite Hseed. unfold charOffsetFor.
      by destruct (_ =? 0).
Qed.

(** A query at a key that is stored returns the stored value. *)
Lemma charOffsetFor_hit (cv : Converter) (q v : Z) :
  keepsSeed cv ->
  NearestNeighborDict.samples (memo cv) !! q = Some v ->
  (charOffsetFor cv q).1 = v.
Proof.
  intros [Hdist Hseed] Hq. unfold charOffsetFor.
  assert (Hs : key (NearestNeighborDict.seed (memo cv)) = q ->
               value (NearestNeighborDict.seed (memo cv)) = v)
    by (intros Hk; rewrite Hk in Hseed; congruence).
  rewrite (getNearest_hit (memo cv) q v Hdist Hs Hq). cbn [key value].
  by rewrite Z.sub_diag.
Qed.

(** X1.  Whatever the buffer holds and whatever was asked before, at any
    offsets, the converter answers 0 at byte offset 0. *)
Theorem charOffsetFor_zero (buffer_ : list Byte.byte) (qs : list Z) :
  (charOffsetFor (afterQueries (makeMemoizedByteOffsetConverter buffer_) qs) 0).1
  = 0.
Proof.
  destruct (afterQueries_keeps _ qs (new_converter_keepsSeed buffer_))
    as (Hinv & Hkeep & _).
  apply charOffsetFor_hit; [done|]. apply Hkeep.
  unfold makeMemoizedByteOffsetConverter, NearestNeighborDict.new.
  cbn [memo NearestNeighborDict.samples key value].
  apply lookup_singleton_eq.
Qed.

(** X2.  Memoization: once a byte offset has been asked, asking it again
    gives the same answer, whatever is asked in between; this holds for
    every buffer and all offsets, also ones that are no character
    boundaries. *)
Theorem charOffsetFor_repeats (buffer_ : list Byte.byte)
        (before between_ : list Z) (q : Z) :
  let cv := afterQueries (makeMemoizedByteOffsetConverter buffer_) before in
  (charOffsetFor (afterQueries (charOffsetFor cv q).2 between_) q).1
  = (charOffsetFor cv q).1.
Proof.
  intros cv.
  destruct (afterQueries_keeps _ before (new_converter_keepsSeed buffer_))
    as (Hinv & _ & _). fold cv in Hinv.
  destruct (charOffsetFor_keeps cv q Hinv) as (Hinv' & _ & Hq).
  destruct (afterQueries_keeps _ between_ Hinv') as (Hinv'' & Hkeep & _).
  apply charOffsetFor_hit; [done|]. by apply Hkeep.
Qed.

Lemma queries_count (chars : list (list Byte.byte)) (ns : list nat) :
  validText chars ->
  queries (makeMemoizedByteOffsetConverter (bufferOf chars))
          (map (fun n => byteLength (take n chars)) ns)
  = map (fun n => charLength (take n chars)) ns.
Proof.
  intros Hvalid.
  assert (Hgen : forall cv,
             buffer cv = bufferOf chars -> soundMemo chars (memo cv) ->
             queries cv (map (fun n => byteLength (take n chars)) ns)
             = map (fun n => charLength (take n chars)) ns).
  { induction ns as [|n ns IH]; intros cv Hbuf Hmemo; [done|].
    cbn [map queries].
    assert (exactSample chars (byteLength (take n chars))
              (charLength (take n chars))) as Hex by (by exists n).
    destruct (charOffsetFor_exact chars Hvalid cv _ _ Hbuf Hmemo Hex)
      as (Hc & Hb' & Hm').
    destruct (charOffsetFor cv (byteLength (take n chars))) as [c cv'].
    cbn [fst snd] in *. subst c. f_equal. by apply IH. }
  apply Hgen; [done|]. by apply new_converter_sound.
Qed.

Lemma wellFormedChar_units_le (c : list Byte.byte) (u : Z) :
  wellFormedChar c = Some u -> u <= Z.of_nat (length c).
Proof.
  unfold wellFormedChar.
  destruct c as [|b0 [|b1 [|b2 [|b3 [|b4 c]]]]]; try done;
    (destruct (_ : bool); [|done]); intros [= <-]; cbn [length]; lia.
Qed.

(** X3.  On a buffer of valid UTF-8, the answer at a character boundary is
    the number of UTF-16 code units of the text before it, and never more
    than the byte offset. *)
Theorem charOffsetFor_counts_code_units
        (chars : list (list Byte.byte)) (ns : list nat) :
  validText chars ->
  queries (makeMemoizedByteOffsetConverter (bufferOf chars))
          (map (fun n => byteLength (take n chars)) ns)
  = map (fun n => charLength (take n chars)) ns
  /\ Forall (fun n => 0 <= charLength (take n chars)
                      <= byteLength (take n chars)) ns.
Proof.
  intros Hvalid. split; [by apply queries_count|].
  apply Forall_forall. intros n _.
  assert (Hv : validText (take n chars)) by (by apply Forall_take).
  split; [by apply charLength_nonneg|].
  clear -Hv. unfold validText in Hv.
  induction Hv as [|c cs [u Hu] _ IH]; [done|].
  unfold charLength, byteLength in *. cbn [foldr concat].
  rewrite length_app, Hu. change (default 0 (Some u)) with u.
  pose proof (wellFormedChar_units_le c u Hu). lia.
Qed.

Lemma charOffsetFor_counts_code_units_witness :
  validText sampleText
  /\ queries (makeMemoizedByteOffsetConverter (bufferOf sampleText))
       (map (fun n => byteLength (take n sampleText)) [5; 2; 6; 0]%nat)
     = map (fun n => charLength (take n sampleText)) [5; 2; 6; 0]%nat.
Proof.
  split; [exact sampleText_valid|].
  apply (charOffsetFor_counts_code_units sampleText [5; 2; 6; 0]%nat).
  exact sampleText_valid.
Defined.
(** *** [byteOffsetAt] and the converter *)

Lemma utf8_of_unit_wellFormed (a : ascii) :
  wellFormedChar (utf8_of_unit a) = Some 1.
Proof. destruct a as [[] [] [] [] [] [] [] []]; vm_compute; reflexivity. Qed.

Lemma unitsOf_valid (text : string) : validText (unitsOf text).
Proof.
  unfold validText, unitsOf. apply Forall_forall. intros c Hc.
  apply list_elem_of_fmap in Hc as (a & -> & _).
  rewrite utf8_of_unit_wellFormed. eauto.
Qed.

Lemma list_ascii_take (n : nat) (s : string) :
  list_ascii_of_string (take_str n s) = take n (list_ascii_of_string s).
Proof.
  revert n. induction s as [|a s IH]; intros [|n]; cbn; try done.
  by rewrite IH.
Qed.

Lemma charLength_unitsOf (cs : list ascii) :
  charLength (map utf8_of_unit cs) = Z.of_nat (length cs).
Proof.
  unfold charLength. induction cs as [|a cs IH]; cbn [map foldr length]; [done|].
  rewrite utf8_of_unit_wellFormed, IH. change (default 0 (Some 1)) with 1. lia.
Qed.

Lemma length_list_ascii (s : string) :
  length (list_ascii_of_string s) = String.length s.
Proof. induction s; cbn; congruence. Qed.

(** X4.  [byteOffsetAt] and the converter are inverse to each other: for
    the positions of a document, asked in any order, the converter for the
    document's bytes turns the byte offset of each position back into its
    character offset (brought into the text, should [offsetAt] leave it). *)
Theorem byteOffsetAt_round_trip
        (getText : string) (offsetAt : vscode.Position -> Z)
        (positions : list vscode.Position) :
  queries (makeMemoizedByteOffsetConverter (Buffer_from getText))
          (map (byteOffsetAt getText offsetAt) positions)
  = map (fun p => Z.min (Z.max 0 (offsetAt p)) (Z.of_nat (String.length getText)))
        positions.
Proof.
  pose proof (queries_count (unitsOf getText)
                (map (fun p => Z.to_nat (offsetAt p)) positions)
                (unitsOf_valid getText)) as H.
  rewrite !map_map in H.
  assert (Hq : map (byteOffsetAt getText offsetAt) positions
               = map (fun p => byteLength (take (Z.to_nat (offsetAt p))
                                             (unitsOf getText))) positions).
  { apply map_ext. intros p.
    unfold byteOffsetAt, Buffer_byteLength, Buffer_from, byteLength, substr0,
      unitsOf.
    by rewrite list_ascii_take, <- fmap_take. }
  rewrite Hq. unfold Buffer_from, bufferOf in *. rewrite H.
  apply map_ext. intros p. unfold unitsOf.
  rewrite <- fmap_take, charLength_unitsOf, length_take, length_list_ascii.
  lia.
Qed.

(** *** [handleDiagnosticErrors]: invariants of the stores *)

Section StoreInvariants.
Variable canonical : string -> string.
Variable document : option vscode.TextDocument.

(** The stores after a call, at a file, whether the call returns or
    throws. *)
Lemma handle_entries (which : Category) (errors : list ICheckResult)
      (st : Stores) (c : Category) (f : string) :
  vscode.entries
    (collection c (handleDiagnosticErrors canonical document which errors st).2)
    !! f =
  match groupErrors canonical document (vscode.name (collection which st))
          errors [] with
  | None => if decide (c = which) then None
            else vscode.entries (collection c st) !! f
  | Some dm =>
      match map_get f dm with
      | None => if decide (c = which) then None
                else vscode.entries (collection c st) !! f
      | Some ds =>
          publishedAt which c ds
            (if decide (Build = which) then None
             else vscode.entries (buildDiagnosticCollection st) !! f)
            (if decide (Lint = which) then None
             else vscode.entries (lintDiagnosticCollection st) !! f)
            (if decide (Vet = which) then None
             else vscode.entries (vetDiagnosticCollection st) !! f)
      end
  end.
Proof.
  destruct (groupErrors canonical document _ errors []) as [dm|] eqn:Hdm.
  - apply (handle_lookup canonical document which errors st dm c f Hdm).
  - unfold handleDiagnosticErrors. rewrite Hdm. cbn [snd].
    apply cleared_lookup.
Qed.

Lemma elem_of_deDupe (bs ds : list vscode.Diagnostic) (x : vscode.Diagnostic) :
  x ∈ deDupeDiagnostics bs ds -> x ∈ ds /\ ~ collidesWith bs x.
Proof.
  rewrite deDupeDiagnostics_filter, list_elem_of_filter. tauto.
Qed.

Lemma collidesWith_nil (x : vscode.Diagnostic) : ~ collidesWith [] x.
Proof. unfold collidesWith. intros H. by apply Exists_nil in H. Qed.

(** X5.  The stores never show a build diagnostic and a lint (or vet)
    diagnostic on one line of one file: a call for the build collection
    establishes this for both other collections, a call for the lint or
    vet collection establishes it for its own collection and keeps it for
    the other, and this whether the call returns or throws. *)
Theorem no_shadow_is_kept (which : Category) (errors : list ICheckResult)
        (st : Stores) (c : Category) :
  c <> Build ->
  (which <> Build -> which <> c -> noShadow c st) ->
  noShadow c (handleDiagnosticErrors canonical document which errors st).2.
Proof.
  intros Hc Hold f x. unfold vscode.get.
  pose proof (handle_entries which errors st c f) as Hcf.
  pose proof (handle_entries which errors st Build f) as Hbf.
  cbn [collection] in Hbf. rewrite Hcf, Hbf. clear Hcf Hbf.
  assert (Hkeep : which <> Build -> which <> c ->
            x ∈ default [] (vscode.entries (collection c st) !! f) ->
            ~ collidesWith
                (default [] (vscode.entries (buildDiagnosticCollection st) !! f))
                x).
  { intros H1 H2. apply (Hold H1 H2 f x). }
  destruct (groupErrors canonical document _ errors []) as [dm|];
    [destruct (map_get f dm) as [ds|]|];
    destruct which, c; try done; cbn [publishedAt];
    repeat case_decide; try done; cbn [default];
    try (intros Hx; by apply elem_of_nil in Hx);
    try (by apply Hkeep);
    try (intros _; apply collidesWith_nil).
  - destruct (vscode.entries (lintDiagnosticCollection st) !! f);
      cbn; [|intros Hx; by apply elem_of_nil in Hx].
    intros Hx. by apply elem_of_deDupe in Hx as [_ ?].
  - destruct (vscode.entries (vetDiagnosticCollection st) !! f);
      cbn; [|intros Hx; by apply elem_of_nil in Hx].
    intros Hx. by apply elem_of_deDupe in Hx as [_ ?].
  - destruct (vscode.entries (buildDiagnosticCollection st) !! f); cbn.
    + intros Hx. by apply elem_of_deDupe in Hx as [_ ?].
    + intros _. apply collidesWith_nil.
  - destruct (vscode.entries (buildDiagnosticCollection st) !! f); cbn.
    + intros Hx. by apply elem_of_deDupe in Hx as [_ ?].
    + intros _. apply collidesWith_nil.
Qed.

Lemma deDupeDiagnostics_idem (bs ds : list vscode.Diagnostic) :
  deDupeDiagnostics bs (deDupeDiagnostics bs ds) = deDupeDiagnostics bs ds.
Proof.
  unfold deDupeDiagnostics. induction ds as [|d ds IH]; [done|].
  rewrite filter_cons. case_decide as Hd; [|exact IH].
  by rewrite filter_cons_True, IH.
Qed.

Lemma publishFile_name (which : Category) (st : Stores)
      (entry : string * list vscode.Diagnostic) (c : Category) :
  vscode.name (collection c (publishFile which st entry))
  = vscode.name (collection c st).
Proof.
  destruct entry as [f ds]. unfold publishFile.
  destruct which, c; cbn [collection withCollection];
    repeat (match goal with
            | |- context [if ?b then _ else _] => destruct b
            end; cbn [collection withCollection buildDiagnosticCollection
                        lintDiagnosticCollection vetDiagnosticCollection]);
    reflexivity.
Qed.

Lemma handle_name (which : Category) (errors : list ICheckResult)
      (st : Stores) (c : Category) :
  vscode.name
    (collection c (handleDiagnosticErrors canonical document which errors st).2)
  = vscode.name (collection c st).
Proof.
  unfold handleDiagnosticErrors.
  assert (Hclear : vscode.name (collection c (withCollection which vscode.clear st))
                   = vscode.name (collection c st)) by (by destruct which, c).
  destruct (groupErrors canonical document _ errors []) as [dm|]; cbn [snd];
    [|done].
  rewrite <- Hclear. generalize (withCollection which vscode.clear st).
  induction dm as [|entry dm IH]; intros st0; cbn [fold_left]; [done|].
  by rewrite IH, publishFile_name.
Qed.

Lemma handle_outcome (which : Category) (errors : list ICheckResult)
      (st : Stores) :
  (handleDiagnosticErrors canonical document which errors st).1 =
  match groupErrors canonical document (vscode.name (collection which st))
          errors [] with
  | None => Thrown
  | Some _ => Returned
  end.
Proof. unfold handleDiagnosticErrors. by destruct (groupErrors _ _ _ _ _). Qed.

Lemma Stores_ext (a b : Stores) :
  (forall c, vscode.name (collection c a) = vscode.name (collection c b)) ->
  (forall c f, vscode.entries (collection c a) !! f
               = vscode.entries (collection c b) !! f) ->
  a = b.
Proof.
  intros Hn He.
  assert (Hc : forall c, collection c a = collection c b).
  { intros c. specialize (Hn c). pose proof (He c) as Hec.
    destruct (collection c a) as [na ea], (collection c b) as [nb eb].
    cbn in *. subst nb. f_equal. by apply map_eq. }
  pose proof (Hc Build) as Hb. pose proof (Hc Lint) as Hl.
  pose proof (Hc Vet) as Hv. destruct a, b. cbn in *. congruence.
Qed.

(** X6.  The call is idempotent: made a second time with the same errors
    on the stores it left, it ends the same way and leaves the stores as
    they are. *)
Theorem handleDiagnosticErrors_idempotent
        (which : Category) (errors : list ICheckResult) (st : Stores) :
  handleDiagnosticErrors canonical document which errors
    (handleDiagnosticErrors canonical document which errors st).2
  = handleDiagnosticErrors canonical document which errors st.
Proof.
  pose proof (handle_name which errors st which) as Hname.
  apply injective_projections.
  - by rewrite !handle_outcome, Hname.
  - apply Stores_ext.
    + intros c. by rewrite !handle_name.
    + intros c f.
      rewrite (handle_entries which errors
                 (handleDiagnosticErrors canonical document which errors st).2
                 c f), Hname.
      pose proof (handle_entries which errors st Build f) as Hb.
      pose proof (handle_entries which errors st Lint f) as Hl.
      pose proof (handle_entries which errors st Vet f) as Hv.
      pose proof (handle_entries which errors st c f) as Hcf.
      cbn [collection] in Hb, Hl, Hv.
      rewrite Hcf, Hb, Hl, Hv. clear Hb Hl Hv Hcf.
      destruct (groupErrors canonical document _ errors []) as [dm|];
        [destruct (map_get f dm) as [ds|]|];
        destruct which, c; cbn [publishedAt]; repeat case_decide; try done;
        try (destruct (vscode.entries _ !! f); cbn [fmap option_fmap option_map];
             by rewrite ?deDupeDiagnostics_idem).
Qed.

Lemma toDiagnostic_throws (sourceName canonicalFile : string) (e : ICheckResult) :
  line e < 1 \/ msg e = "" ->
  toDiagnostic document sourceName canonicalFile e = None.
Proof.
  intros Hbad. unfold toDiagnostic.
  destruct (columns document canonicalFile e) as [[sc ec]|]; [|done].
  cbn [mbind option_bind].
  destruct (vscode.newRange (line e - 1) sc (line e - 1) ec) as [r|] eqn:Hr;
    [|done].
  cbn [mbind option_bind]. destruct Hbad as [Hl| ->]; [|done].
  exfalso. revert Hr. unfold vscode.newRange, vscode.newPosition.
  by replace (line e - 1 <? 0) with true by (symmetry; apply Z.ltb_lt; lia).
Qed.

Lemma groupErrors_throws (sourceName : string) (errors : list ICheckResult)
      (dm0 : list (string * list vscode.Diagnostic)) :
  Exists (fun e => line e < 1 \/ msg e = "") errors ->
  groupErrors canonical document sourceName errors dm0 = None.
Proof.
  intros H. revert dm0. induction H as [e errors He|e errors _ IH]; intros dm0;
    cbn [groupErrors].
  - by rewrite toDiagnostic_throws.
  - destruct (toDiagnostic _ _ _ e); [|done]. cbn [mbind option_bind]. apply IH.
Qed.
End StoreInvariants.

Lemma groupErrors_returns (canonical : string -> string) (sourceName : string)
      (errors : list ICheckResult)
      (dm0 : list (string * list vscode.Diagnostic)) :
  Forall (fun e => 1 <= line e /\ msg e <> "") errors ->
  is_Some (groupErrors canonical None sourceName errors dm0).
Proof.
  intros H. revert dm0. induction H as [|e errors [He Hm] _ IH]; intros dm0;
    cbn [groupErrors]; [eauto|].
  unfold toDiagnostic at 1, columns. cbn [mbind option_bind].
  unfold vscode.newRange, vscode.newPosition.
  replace (line e - 1 <? 0) with false by (symmetry; apply Z.ltb_ge; lia).
  cbn [orb Z.ltb Z.compare mbind option_bind].
  destruct (String.eqb_spec (msg e) ""); [done|].
  cbn [mbind option_bind]. apply IH.
Qed.

(** X7.  An error whose line is below 1 or whose message is empty makes
    the call throw: with such an error among them, none of the errors is
    published and the only effect is that the collection of the call has
    been cleared.  When no document is given, these are the only ways for
    the call to throw. *)
Theorem bad_line_or_empty_message_throws
        (canonical : string -> string) (document : option vscode.TextDocument)
        (which : Category) (errors : list ICheckResult) (st : Stores) :
  (Exists (fun e => line e < 1 \/ msg e = "") errors ->
   handleDiagnosticErrors canonical document which errors st
   = (Thrown, withCollection which vscode.clear st))
  /\ ((handleDiagnosticErrors canonical None which errors st).1 = Thrown
      <-> Exists (fun e => line e < 1 \/ msg e = "") errors).
Proof.
  split.
  - intros H. unfold handleDiagnosticErrors.
    by rewrite (groupErrors_throws canonical document _ errors [] H).
  - rewrite handle_outcome. split.
    + intros Hthrown.
      destruct (decide (Exists (fun e => line e < 1 \/ msg e = "") errors))
        as [|Hno]; [done|].
      apply not_Exists_Forall in Hno; [|intros e; apply _].
      assert (Forall (fun e => 1 <= line e /\ msg e <> "") errors) as Hall.
      { eapply Forall_impl; [exact Hno|]. intros e He. cbn in He.
        split; [lia|]. intros Hm. apply He. by right. }
      destruct (groupErrors_returns canonical
                  (vscode.name (collection which st)) errors [] Hall) as [dm Hdm].
      by rewrite Hdm in Hthrown.
    + intros H. by rewrite (groupErrors_throws canonical None _ errors [] H).
Qed.

Lemma no_shadow_is_kept_witness :
  (Lint <> Build
   /\ (Build <> Build -> Build <> Lint -> noShadow Lint sampleStores))
  /\ noShadow Lint
       (handleDiagnosticErrors fileUri None Build sampleErrors sampleStores).2.
Proof.
  split.
  - split; [discriminate|]. intros H. by destruct H.
  - apply (no_shadow_is_kept fileUri None Build sampleErrors sampleStores Lint).
    + discriminate.
    + intros H. by destruct H.
Defined.

(** *** [LineBuffer]: what a listener can rely on *)

Section LineBufferListeners.
Import LineBuffer.

Lemma feed_calls (nl nd : nat) (chunks : list string) :
  exists b, feed chunks (withListeners nl nd) = Some b
            /\ calls b = lineCalls nl (terminatedSegments (textOf chunks)) ++
                         doneCalls nd (remainder (textOf chunks)).
Proof.
  rewrite withListeners_fields.
  unfold feed. rewrite appendAll_spec by done.
  cbn [buf calls lineListeners lastListeners]. str_simpl.
  eexists. split; [reflexivity|].
  cbn [done fireDone calls buf lastListeners app]. reflexivity.
Qed.

Lemma linesReceived_app (i : nat) (a b : list call) :
  linesReceived i (a ++ b) = linesReceived i a ++ linesReceived i b.
Proof. unfold linesReceived. apply omap_app. Qed.

Lemma lastReceived_app (i : nat) (a b : list call) :
  lastReceived i (a ++ b) = lastReceived i a ++ lastReceived i b.
Proof. unfold lastReceived. apply omap_app. Qed.

Lemma linesReceived_rank (i start n : nat) (l : string) :
  linesReceived i (map (fun k => LineCall k l) (seq start n))
  = if bool_decide (start <= i < start + n)%nat then [l] else [].
Proof.
  revert start. induction n as [|n IH]; intros start.
  - cbn. rewrite bool_decide_eq_false_2 by lia. done.
  - cbn [seq map]. unfold linesReceived in *. cbn [omap list_omap].
    rewrite IH. destruct (Nat.eqb_spec start i) as [->|Hne].
    + rewrite bool_decide_eq_false_2 by lia.
      by rewrite bool_decide_eq_true_2 by lia.
    + repeat case_bool_decide; try done; lia.
Qed.

Lemma lastReceived_rank (i start n : nat) (r : option string) :
  lastReceived i (map (fun k => DoneCall k r) (seq start n))
  = if bool_decide (start <= i < start + n)%nat then [r] else [].
Proof.
  revert start. induction n as [|n IH]; intros start.
  - cbn. rewrite bool_decide_eq_false_2 by lia. done.
  - cbn [seq map]. unfold lastReceived in *. cbn [omap list_omap].
    rewrite IH. destruct (Nat.eqb_spec start i) as [->|Hne].
    + rewrite bool_decide_eq_false_2 by lia.
      by rewrite bool_decide_eq_true_2 by lia.
    + repeat case_bool_decide; try done; lia.
Qed.

Lemma linesReceived_lineCalls (i nl : nat) (segments : list string) :
  (i < nl)%nat -> linesReceived i (lineCalls nl segments) = segments.
Proof.
  intros Hi. induction segments as [|l segments IH]; [done|].
  unfold lineCalls in *. cbn [flat_map]. rewrite linesReceived_app, IH.
  rewrite linesReceived_rank.
  by rewrite bool_decide_eq_true_2 by lia.
Qed.

Lemma linesReceived_doneCalls (i nd : nat) (r : option string) :
  linesReceived i (doneCalls nd r) = [].
Proof.
  unfold doneCalls, linesReceived. generalize (seq 0 nd) as ks.
  intros ks. induction ks as [|k ks IHks]; [done|]. exact IHks.
Qed.

Lemma lastReceived_lineCalls (i nl : nat) (segments : list string) :
  lastReceived i (lineCalls nl segments) = [].
Proof.
  induction segments as [|l segments IH]; [done|].
  unfold lineCalls in *. cbn [flat_map]. rewrite lastReceived_app, IH, app_nil_r.
  clear IH. unfold lastReceived. generalize (seq 0 nl) as ks.
  intros ks. induction ks as [|k ks IHks]; [done|]. exact IHks.
Qed.

Lemma lastReceived_doneCalls (i nd : nat) (r : option string) :
  (i < nd)%nat -> lastReceived i (doneCalls nd r) = [r].
Proof.
  intros Hi. unfold doneCalls. rewrite lastReceived_rank.
  by rewrite bool_decide_eq_true_2 by lia.
Qed.

Lemma split_no_separator (c : ascii) (s x : string) :
  x ∈ split c s -> indexOf x (String c "") = None.
Proof.
  revert x. induction s as [|a s IH]; intros x.
  - intros Hx. apply list_elem_of_singleton in Hx as ->. done.
  - rewrite split_cons. pose proof (split_nonempty c s) as Hne.
    destruct (Ascii.eqb_spec a c) as [->|Hac].
    + intros Hx. apply elem_of_cons in Hx as [->|Hx]; [done|by apply IH].
    + destruct (split c s) as [|h t]; [done|].
      intros Hx. apply elem_of_cons in Hx as [->|Hx].
      * cbn [indexOf startsWith].
        destruct (Ascii.eqb_spec c a) as [->|_]; [done|].
        rewrite (IH h) by apply list_elem_of_here. done.
      * apply IH. by apply list_elem_of_further.
Qed.

Lemma removelast_last {A} (l : list A) (d : A) :
  l <> [] -> removelast l ++ [List.last l d] = l.
Proof. intros H. symmetry. by apply app_removelast_last. Qed.

(** X8.  Nothing is lost: after the chunks have been appended to a new
    buffer and [done] has been called, the lines a line listener received,
    followed by what a done listener received (nothing for null), joined
    by newlines, are the text of the chunks. *)
Theorem line_buffer_loses_nothing
        (nl nd i j : nat) (chunks : list string) :
  (i < nl)%nat -> (j < nd)%nat ->
  exists b r,
    feed chunks (withListeners nl nd) = Some b
    /\ lastReceived j (calls b) = [r]
    /\ join (String LF "") (linesReceived i (calls b) ++ [default "" r])
       = textOf chunks.
Proof.
  intros Hi Hj. destruct (feed_calls nl nd chunks) as (b & Hb & Hcalls).
  exists b, (remainder (textOf chunks)). split; [done|]. rewrite Hcalls.
  rewrite lastReceived_app, lastReceived_lineCalls, lastReceived_doneCalls by done.
  split; [done|].
  rewrite linesReceived_app, linesReceived_lineCalls, linesReceived_doneCalls,
    app_nil_r by done.
  unfold terminatedSegments, remainder.
  assert (default "" (if String.eqb (List.last (split LF (textOf chunks)) "") ""
                      then None
                      else Some (List.last (split LF (textOf chunks)) ""))
          = List.last (split LF (textOf chunks)) "") as ->.
  { destruct (String.eqb_spec (List.last (split LF (textOf chunks)) "") "")
      as [->|]; done. }
  rewrite removelast_last by apply split_nonempty.
  apply join_split.
Qed.

(** X9.  No listener is ever handed a newline: the lines are free of
    newlines, and so is the remainder, which is null rather than empty. *)
Theorem line_buffer_hands_out_no_newline
        (nl nd : nat) (chunks : list string) :
  exists b,
    feed chunks (withListeners nl nd) = Some b
    /\ Forall (fun c => match c with
                        | LineCall _ l => indexOf l (String LF "") = None
                        | DoneCall _ None => True
                        | DoneCall _ (Some r) =>
                            indexOf r (String LF "") = None /\ r <> ""
                        end) (calls b).
Proof.
  destruct (feed_calls nl nd chunks) as (b & Hb & Hcalls).
  exists b. split; [done|]. rewrite Hcalls. apply Forall_app. split.
  - unfold lineCalls, terminatedSegments. apply Forall_forall. intros c Hc.
    apply list_elem_of_In, in_flat_map in Hc as (l & Hl & Hc).
    apply in_map_iff in Hc as (k & <- & _).
    apply (split_no_separator LF (textOf chunks)).
    pose proof (split_nonempty LF (textOf chunks)) as Hne.
    rewrite (app_removelast_last "" Hne). apply elem_of_app. left.
    by apply list_elem_of_In.
  - unfold doneCalls, remainder. apply Forall_forall. intros c Hc.
    apply list_elem_of_fmap in Hc as (k & -> & _).
    destruct (String.eqb_spec (List.last (split LF (textOf chunks)) "") "")
      as [|Hne]; [done|]. split; [|done].
    apply (split_no_separator LF (textOf chunks)).
    pose proof (split_nonempty LF (textOf chunks)) as Hs.
    rewrite (app_removelast_last "" Hs) at 2. apply elem_of_app. right.
    apply list_elem_of_here.
Qed.

(** X10.  How the text is cut into chunks does not matter: two sequences
    of chunks with the same text make the same calls to the listeners. *)
Theorem line_buffer_ignores_chunking
        (nl nd : nat) (chunks1 chunks2 : list string) :
  textOf chunks1 = textOf chunks2 ->
  calls <$> feed chunks1 (withListeners nl nd)
  = calls <$> feed chunks2 (withListeners nl nd).
Proof.
  intros Heq.
  destruct (feed_calls nl nd chunks1) as (b1 & -> & H1).
  destruct (feed_calls nl nd chunks2) as (b2 & -> & H2).
  cbn. by rewrite H1, H2, Heq.
Qed.
End LineBufferListeners.

Lemma line_buffer_loses_nothing_witness :
  ((0 < 2)%nat /\ (0 < 1)%nat)
  /\ exists b r,
      LineBuffer.feed ["ab"; String "c" (String LF "d")]
        (LineBuffer.withListeners 2 1) = Some b
      /\ lastReceived 0 (LineBuffer.calls b) = [r]
      /\ join (String LF "")
           (linesReceived 0 (LineBuffer.calls b) ++ [default "" r])
         = LineBuffer.textOf ["ab"; String "c" (String LF "d")].
Proof.
  split; [lia|].
  apply (line_buffer_loses_nothing 2 1 0 0 ["ab"; String "c" (String LF "d")]);
    lia.
Defined.

Lemma line_buffer_ignores_chunking_witness :
  LineBuffer.textOf ["ab"; String "c" (String LF "d")]
    = LineBuffer.textOf [String "a" (String "b" (String "c" (String LF ""))); "d"]
  /\ LineBuffer.calls <$> LineBuffer.feed ["ab"; String "c" (String LF "d")]
                            (LineBuffer.withListeners 1 1)
     = LineBuffer.calls <$>
         LineBuffer.feed [String "a" (String "b" (String "c" (String LF ""))); "d"]
           (LineBuffer.withListeners 1 1).
Proof.
  split; [reflexivity|].
  apply (line_buffer_ignores_chunking 1 1). reflexivity.
Defined.

(** *** [getStringHash] *)

Lemma ToInt32_mod (x : Z) : ToInt32 x mod 2 ^ 32 = x mod 2 ^ 32.
Proof.
  unfold ToInt32.
  replace ((x + 2 ^ 31) mod 2 ^ 32 - 2 ^ 31)
    with ((x + 2 ^ 31) mod 2 ^ 32 + (-1) * 2 ^ 32 + 2 ^ 31) by lia.
  rewrite <- Z.add_mod_idemp_l by lia.
  rewrite Z.mod_add by lia. rewrite Z.mod_mod by lia.
  rewrite Z.add_mod_idemp_l by lia.
  replace (x + 2 ^ 31 + 2 ^ 31) with (x + 1 * 2 ^ 32) by lia.
  by rewrite Z.mod_add by lia.
Qed.

Lemma lxor_mod_pow2 (a b n : Z) :
  0 <= n -> Z.lxor a b mod 2 ^ n = Z.lxor (a mod 2 ^ n) (b mod 2 ^ n).
Proof.
  intros Hn. apply Z.bits_inj'. intros k Hk.
  rewrite Z.lxor_spec. destruct (Z.lt_ge_cases k n) as [Hlt|Hge].
  - rewrite !Z.mod_pow2_bits_low by lia. by rewrite Z.lxor_spec.
  - by rewrite !Z.mod_pow2_bits_high by lia.
Qed.

Lemma charCode_range (a : ascii) : 0 <= charCode a < 256.
Proof.
  unfold charCode. pose proof (N_ascii_bounded a) as H. lia.
Qed.

Lemma hashLoop_cons (c : ascii) (s : string) (i : nat) (hash : Z) :
  hashLoop (String c s) (S i) hash
  = bitXor (hashLoop s i hash * 33) (Some (charCode c)).
Proof.
  revert hash. induction i as [|i IH]; intros hash; [done|].
  change (hashLoop (String c s) (S (S i)) hash)
    with (hashLoop (String c s) (S i)
            (bitXor (hash * 33) (charCodeAt (String c s) (S i)))).
  rewrite IH. reflexivity.
Qed.

(** X11.  The hash is the one of the empty string, 5381, multiplied by 33
    and xor-ed with each character code from the last character to the
    first, all in unsigned 32-bit arithmetic: the signed intermediate
    values of the bitwise operator do not show. *)
Theorem getStringHash_unsigned :
  getStringHash "" = 5381
  /\ forall (c : ascii) (s : string),
      getStringHash (String c s)
      = Z.lxor ((getStringHash s * 33) mod 2 ^ 32) (charCode c).
Proof.
  split; [reflexivity|]. intros c s. unfold getStringHash.
  cbn [String.length]. rewrite hashLoop_cons. unfold bitXor, ToUint32.
  cbn [default]. rewrite lxor_mod_pow2 by lia. rewrite !ToInt32_mod.
  rewrite Z.mul_mod_idemp_l by lia.
  rewrite (Z.mod_small (charCode c)); [done|].
  pose proof (charCode_range c). lia.
Qed.

(** *** [getParametersAndReturnType] *)

Lemma get_app_str (pre s : string) (k : nat) :
  String.get (String.length pre + k) (pre +:+ s) = String.get k s.
Proof. induction pre as [|a pre IH]; str_simpl; [done|]. exact IH. Qed.

Lemma drop_str_app (pre s : string) :
  drop_str (String.length pre) (pre +:+ s) = s.
Proof. induction pre as [|a pre IH]; str_simpl; [done|]. exact IH. Qed.

Lemma substring_mid (pre p tail : string) :
  substring (pre +:+ p +:+ tail) (String.length pre)
            (String.length pre + String.length p) = p.
Proof.
  unfold substring. rewrite !length_app_str.
  rewrite (Nat.min_l (String.length pre)) by lia.
  rewrite (Nat.min_l (String.length pre + String.length p)) by lia.
  rewrite Nat.max_r, Nat.min_l by lia.
  replace (String.length pre + String.length p - String.length pre)%nat
    with (String.length p) by lia.
  rewrite drop_str_app. apply take_str_app.
Qed.

Lemma app_str_snoc (pre : string) (c : ascii) (s : string) :
  pre +:+ String c s = (pre +:+ String c "") +:+ s.
Proof. rewrite app_str_assoc. by str_simpl. Qed.

Lemma paramsLoop_parameter (p : string) :
  forall (d d' : Z) (pre tail : string) (n : nat) (params : list string)
         (lastStart : nat),
    nesting p d = Some d' ->
    paramsLoop (pre +:+ p +:+ tail) (String.length p + n) (String.length pre)
               params d lastStart
    = paramsLoop (pre +:+ p +:+ tail) n (String.length pre + String.length p)
                 params d' lastStart.
Proof.
  induction p as [|c p IH]; intros d d' pre tail n params lastStart Hnest.
  - cbn in Hnest. injection Hnest as ->. str_simpl. cbn [String.length].
    by rewrite Nat.add_0_r.
  - cbn [String.length Nat.add paramsLoop].
    replace (String.get (String.length pre) (pre +:+ String c p +:+ tail))
      with (Some c).
    2:{ rewrite <- (Nat.add_0_r (String.length pre)), get_app_str.
        by str_simpl. }
    assert (Hstep : forall d1, nesting p d1 = Some d' ->
      paramsLoop (pre +:+ String c p +:+ tail) (String.length p + n)
                 (S (String.length pre)) params d1 lastStart
      = paramsLoop (pre +:+ String c p +:+ tail) n
                   (String.length pre + S (String.length p)) params d' lastStart).
    { intros d1 H1.
      replace (pre +:+ String c p +:+ tail)
        with ((pre +:+ String c "") +:+ p +:+ tail).
      2:{ rewrite app_str_assoc. by str_simpl. }
      replace (S (String.length pre)) with (String.length (pre +:+ String c ""))
        by (rewrite length_app_str; cbn; lia).
      rewrite (IH d1 d') by done. f_equal.
      rewrite length_app_str. cbn. lia. }
    cbn [nesting] in Hnest.
    destruct (Ascii.eqb c "("); [by apply Hstep|].
    destruct (Ascii.eqb c ")").
    { destruct (d - 1 <? 0); [done|]. by apply Hstep. }
    destruct (Ascii.eqb c ",").
    { destruct (d =? 0); [done|]. by apply Hstep. }
    by apply Hstep.
Qed.

Lemma paramsLoop_list (ps : list string) :
  forall (p pre rt : string) (params : list string),
    Forall isParameter (p :: ps) ->
    last (p :: ps) <> Some "" ->
    paramsLoop (pre +:+ join ", " (p :: ps) +:+ ")" +:+ rt)
               (String.length (join ", " (p :: ps) +:+ ")" +:+ rt))
               (String.length pre) params 0 (String.length pre)
    = (params ++ p :: ps, rt).
Proof.
  induction ps as [|q ps IH]; intros p pre rt params Hall Hlast.
  - cbn [join]. apply Forall_cons in Hall as [Hp _].
    rewrite length_app_str.
    rewrite (paramsLoop_parameter p 0 0) by exact Hp.
    cbn [String.length paramsLoop]. str_simpl. cbn [String.length paramsLoop].
    replace (String.get (String.length pre + String.length p)
               (pre +:+ p +:+ String ")" rt)) with (Some ")"%char).
    2:{ rewrite <- app_str_assoc, <- length_app_str.
        rewrite <- (Nat.add_0_r (String.length (pre +:+ p))), get_app_str.
        done. }
    change (Ascii.eqb ")" "(") with false. change (Ascii.eqb ")" ")") with true.
    cbn [Z.sub Z.opp Z.add Z.ltb Z.compare].
    assert (String.length p <> 0)%nat as Hlen.
    { destruct p; [|done]. by destruct Hlast. }
    rewrite (proj2 (Nat.ltb_lt _ _)) by lia.
    rewrite substring_mid. f_equal.
    rewrite !length_app_str. cbn [String.length].
    destruct rt as [|r rt].
    + rewrite (proj2 (Nat.ltb_ge _ _)) by (cbn [String.length]; lia). done.
    + rewrite (proj2 (Nat.ltb_lt _ _)) by (cbn [String.length]; lia).
      rewrite <- (app_str_assoc pre p).
      replace (String.length pre + String.length p + 1)%nat
        with (String.length ((pre +:+ p) +:+ ")")).
      2:{ rewrite !length_app_str. cbn. lia. }
      rewrite (app_str_snoc (pre +:+ p) ")" (String r rt)).
      apply drop_str_app.
  - change (join ", " (p :: q :: ps)) with (p +:+ ", " +:+ join ", " (q :: ps)).
    apply Forall_cons in Hall as [Hp Hall].
    rewrite !app_str_assoc. rewrite length_app_str.
    rewrite (paramsLoop_parameter p 0 0) by exact Hp.
    str_simpl. cbn [String.length paramsLoop].
    replace (String.get (String.length pre + String.length p)
               (pre +:+ p +:+ String "," (String " " (join ", " (q :: ps)
                  +:+ String ")" rt)))) with (Some ","%char).
    2:{ rewrite <- app_str_assoc, <- length_app_str.
        rewrite <- (Nat.add_0_r (String.length (pre +:+ p))), get_app_str.
        done. }
    change (Ascii.eqb "," "(") with false. change (Ascii.eqb "," ")") with false.
    change (Ascii.eqb "," ",") with true. cbn [Z.eqb].
    rewrite substring_mid.
    replace (String.get (S (String.length pre + String.length p))
               (pre +:+ p +:+ String "," (String " " (join ", " (q :: ps)
                  +:+ String ")" rt)))) with (Some " "%char).
    2:{ rewrite <- app_str_assoc, <- length_app_str.
        replace (S (String.length (pre +:+ p)))
          with (String.length (pre +:+ p) + 1)%nat by lia.
        rewrite get_app_str. done. }
    change (Ascii.eqb " " "(") with false. change (Ascii.eqb " " ")") with false.
    change (Ascii.eqb " " ",") with false.
    specialize (IH q (pre +:+ p +:+ ", ") rt (params ++ [p]) Hall).
    rewrite !app_str_assoc in IH. str_simpl.
    rewrite !length_app_str in IH. cbn [String.length] in IH.
    replace (String.length pre + (String.length p + 2))%nat
      with (S (S (String.length pre + String.length p))) in IH by lia.
    replace (String.length pre + String.length p + 2)%nat
      with (S (S (String.length pre + String.length p))) by lia.
    rewrite <- app_assoc in IH. cbn [app] in IH.
    rewrite length_app_str. cbn [String.length].
    apply IH. exact Hlast.
Qed.

(** X12.  A signature is taken apart where it was put together: for
    parameters with balanced parentheses and no comma outside them, the
    last one not empty, joined by a comma and a blank between two
    parentheses and followed by any return type, the function gives back
    the parameters and the return type.  The first character is never
    looked at. *)
Theorem getParametersAndReturnType_round_trip
        (c0 : ascii) (ps : list string) (rt : string) :
  Forall isParameter ps ->
  last ps <> Some "" ->
  getParametersAndReturnType (String c0 (join ", " ps +:+ ")" +:+ rt))
  = (ps, rt).
Proof.
  intros Hall Hlast. unfold getParametersAndReturnType.
  assert (Hlen : forall s, (String.length (String c0 s) - 1)%nat
                           = String.length s) by (intros s; cbn; lia).
  rewrite Hlen. destruct ps as [|p ps].
  - cbn [join]. str_simpl. cbn [String.length paramsLoop String.get].
    change (Ascii.eqb ")" "(") with false. change (Ascii.eqb ")" ")") with true.
    cbn [Z.sub Z.opp Z.add Z.ltb Z.compare Nat.ltb Nat.leb].
    f_equal. destruct rt as [|r rt]; [done|].
    cbn [String.length Nat.sub Nat.ltb Nat.leb]. done.
  - pose proof (paramsLoop_list ps p (String c0 "") rt [] Hall Hlast) as H.
    str_simpl. exact H.
Qed.

Lemma paramsLoop_unclosed (signature : string) (n : nat) :
  forall (i : nat) (params : list string) (parenCount : Z) (lastStart : nat),
    (forall k, (i <= k)%nat -> String.get k signature <> Some ")"%char) ->
    paramsLoop signature n i params parenCount lastStart = ([], "").
Proof.
  induction n as [|n IH]; intros i params parenCount lastStart Hno; [done|].
  cbn [paramsLoop].
  assert (Hnext : forall k, (S i <= k)%nat ->
                            String.get k signature <> Some ")"%char).
  { intros k Hk. apply Hno. lia. }
  pose proof (Hno i (Nat.le_refl i)) as Hi.
  destruct (String.get i signature) as [c|]; [|by apply IH].
  destruct (Ascii.eqb c "("); [by apply IH|].
  destruct (Ascii.eqb_spec c ")") as [->|_]; [done|].
  destruct (Ascii.eqb c ","); [|by apply IH].
  destruct (parenCount =? 0); by apply IH.
Qed.

(** X13.  Without a closing parenthesis after the first character nothing
    is returned: the parameters met so far are dropped with the rest. *)
Theorem getParametersAndReturnType_unclosed (signature : string) :
  (forall k, (1 <= k)%nat -> String.get k signature <> Some ")"%char) ->
  getParametersAndReturnType signature = ([], "").
Proof. intros Hno. by apply paramsLoop_unclosed. Qed.

Lemma getParametersAndReturnType_round_trip_witness :
  (Forall isParameter ["a int"; "f func(x, y int)"]
   /\ last ["a int"; "f func(x, y int)"] <> Some "")
  /\ getParametersAndReturnType
       (String "(" (join ", " ["a int"; "f func(x, y int)"] +:+ ")" +:+ " error"))
     = (["a int"; "f func(x, y int)"], " error").
Proof.
  assert (H : Forall isParameter ["a int"; "f func(x, y int)"]
              /\ last ["a int"; "f func(x, y int)"] <> Some "").
  { split; [|discriminate]. repeat (constructor; [reflexivity|]). constructor. }
  split; [exact H|].
  apply (getParametersAndReturnType_round_trip "(" _ " error");
    [exact (proj1 H) | exact (proj2 H)].
Defined.

Lemma getParametersAndReturnType_unclosed_witness :
  (forall k, (1 <= k)%nat -> String.get k ")a, b" <> Some ")"%char)
  /\ getParametersAndReturnType ")a, b" = ([], "").
Proof.
  assert (H : forall k, (1 <= k)%nat -> String.get k ")a, b" <> Some ")"%char).
  { intros k Hk. do 6 (destruct k as [|k]; [try lia; discriminate|]).
    discriminate. }
  split; [exact H|].
  apply (getParametersAndReturnType_unclosed ")a, b"). exact H.
Defined.

(** *** [canonicalizeGOPATHPrefix] *)

Lemma toLowerCase_length (s : string) :
  String.length (toLowerCase s) = String.length s.
Proof. induction s as [|a s IH]; cbn; congruence. Qed.

Lemma toLowerCase_app (a b : string) :
  toLowerCase (a +:+ b) = toLowerCase a +:+ toLowerCase b.
Proof. induction a as [|c a IH]; str_simpl; cbn; str_simpl; congruence. Qed.

Lemma toLowerCase_drop (n : nat) (s : string) :
  toLowerCase (drop_str n s) = drop_str n (toLowerCase s).
Proof.
  revert s. induction n as [|n IH]; intros [|a s]; cbn; auto.
Qed.

Lemma take_drop_str (n : nat) (s : string) :
  take_str n s +:+ drop_str n s = s.
Proof.
  revert s. induction n as [|n IH]; intros [|a s]; cbn; str_simpl; try done.
  by rewrite IH.
Qed.

Lemma substring_0 (s : string) (n : nat) : substring s 0 n = take_str n s.
Proof.
  unfold substring. rewrite (Nat.min_0_l (String.length s)).
  rewrite Nat.max_0_l, Nat.min_0_l, Nat.sub_0_r.
  change (drop_str 0 s) with s.
  destruct (Nat.le_ge_cases n (String.length s)) as [H|H].
  - by rewrite Nat.min_l by done.
  - rewrite Nat.min_r by done. clear -H. revert n H.
    induction s as [|a s IH]; intros [|n] H; cbn in *; try done; try lia.
    f_equal. apply IH. lia.
Qed.

Section Canonicalize.
Variable filenameLowercase : string.

Lemma pickWorkspace_source (workspaces : list string) :
  forall current,
    pickWorkspace filenameLowercase workspaces current = current
    \/ exists w, pickWorkspace filenameLowercase workspaces current = Some w
                 /\ w ∈ workspaces /\ fits filenameLowercase w.
Proof.
  induction workspaces as [|w0 rest IH]; intros current; [by left|].
  cbn [pickWorkspace]. rewrite substring_0.
  destruct (String.eqb_spec (take_str (String.length w0) filenameLowercase)
                            (toLowerCase w0)) as [Hfit|_]; cbn [andb].
  - destruct (negb (truthy current)
              || (String.length (default "" current) <? String.length w0)%nat).
    + destruct (IH (Some w0)) as [->|(w & -> & Hin & Hw)].
      * right. exists w0. split; [done|]. split; [apply list_elem_of_here|done].
      * right. exists w. split; [done|]. split; [by apply list_elem_of_further|done].
    + destruct (IH current) as [->|(w & -> & Hin & Hw)]; [by left|].
      right. exists w. split; [done|]. split; [by apply list_elem_of_further|done].
  - destruct (IH current) as [->|(w & -> & Hin & Hw)]; [by left|].
    right. exists w. split; [done|]. split; [by apply list_elem_of_further|done].
Qed.

Lemma pickWorkspace_longest (workspaces : list string) :
  forall current,
    (forall w, w ∈ workspaces -> w <> "" -> fits filenameLowercase w ->
               exists w', pickWorkspace filenameLowercase workspaces current
                          = Some w'
                          /\ (String.length w <= String.length w')%nat)
    /\ (forall c, current = Some c -> c <> "" ->
                  exists w', pickWorkspace filenameLowercase workspaces current
                             = Some w'
                             /\ (String.length c <= String.length w')%nat).
Proof.
  induction workspaces as [|w0 rest IH]; intros current.
  - split.
    + intros w Hw. by apply elem_of_nil in Hw.
    + intros c -> _. exists c. done.
  - cbn [pickWorkspace]. rewrite substring_0.
    destruct (String.eqb_spec (take_str (String.length w0) filenameLowercase)
                              (toLowerCase w0)) as [Hfit|Hnofit]; cbn [andb].
    + destruct (negb (truthy current)
                || (String.length (default "" current) <? String.length w0)%nat)
        eqn:Hcond.
      * destruct (IH (Some w0)) as [IH1 IH2]. split.
        -- intros w Hw Hne Hf. apply elem_of_cons in Hw as [->|Hw].
           ++ by apply (IH2 w0).
           ++ by apply IH1.
        -- intros c -> Hc. apply orb_true_iff in Hcond as [Hcond|Hcond].
           ++ destruct c; done.
           ++ cbn [default] in Hcond. unfold id in Hcond.
              apply Nat.ltb_lt in Hcond.
              destruct (IH2 w0 eq_refl) as (w' & Hw' & Hle).
              { intros ->. cbn in Hcond. lia. }
              exists w'. split; [done|]. lia.
      * apply orb_false_iff in Hcond as [Htruthy Hlen].
        apply negb_false_iff in Htruthy. apply Nat.ltb_ge in Hlen.
        destruct current as [[|a c]|]; try done.
        destruct (IH (Some (String a c))) as [IH1 IH2]. split.
        -- intros w Hw Hne Hf. apply elem_of_cons in Hw as [->|Hw].
           ++ destruct (IH2 (String a c) eq_refl) as (w' & Hw' & Hle); [done|].
              exists w'. split; [done|]. cbn [default] in Hlen. unfold id in Hlen.
              lia.
           ++ by apply IH1.
        -- intros c' [= <-] Hc. by apply IH2.
    + destruct (IH current) as [IH1 IH2]. split.
      * intros w Hw Hne Hf. apply elem_of_cons in Hw as [->|Hw]; [done|].
        by apply IH1.
      * exact IH2.
Qed.
End Canonicalize.

Lemma canonicalize_cases (gopath : string) (delimiter : ascii) (filename : string) :
  canonicalizeGOPATHPrefix gopath delimiter filename = filename
  \/ exists a w,
      pickWorkspace (toLowerCase filename) (split delimiter gopath) None
      = Some (String a w)
      /\ String a w ∈ split delimiter gopath
      /\ fits (toLowerCase filename) (String a w)
      /\ canonicalizeGOPATHPrefix gopath delimiter filename
         = String a w +:+ drop_str (String.length (String a w)) filename.
Proof.
  unfold canonicalizeGOPATHPrefix.
  destruct (String.eqb gopath ""); [by left|].
  destruct (pickWorkspace_source (toLowerCase filename)
              (split delimiter gopath) None) as [->|(w & Hw & Hin & Hfit)];
    [by left|].
  rewrite Hw. destruct w as [|a w]; [by left|].
  right. exists a, w. done.
Qed.

Lemma canonicalize_lower (gopath : string) (delimiter : ascii) (filename : string) :
  toLowerCase (canonicalizeGOPATHPrefix gopath delimiter filename)
  = toLowerCase filename.
Proof.
  destruct (canonicalize_cases gopath delimiter filename)
    as [->|(a & w & _ & _ & Hfit & ->)]; [done|].
  rewrite toLowerCase_app, toLowerCase_drop. unfold fits in Hfit.
  rewrite <- Hfit. apply take_drop_str.
Qed.

(** X14.  For a GOPATH and a file name of code units below 256, where
    [toLowerCase] maps each unit to one unit: only the case of letters
    changes, the canonical name and the file name have the same length
    and the same lower-case form. *)
Theorem canonicalizeGOPATHPrefix_changes_case_only
        (gopath : string) (delimiter : ascii) (filename : string) :
  toLowerCase (canonicalizeGOPATHPrefix gopath delimiter filename)
  = toLowerCase filename
  /\ String.length (canonicalizeGOPATHPrefix gopath delimiter filename)
     = String.length filename.
Proof.
  split; [apply canonicalize_lower|].
  rewrite <- (toLowerCase_length (canonicalizeGOPATHPrefix _ _ _)).
  rewrite canonicalize_lower. apply toLowerCase_length.
Qed.

(** X15.  For a GOPATH and a file name of code units below 256, where
    [toLowerCase] maps each unit to one unit: a canonical name is its own
    canonical name. *)
Theorem canonicalizeGOPATHPrefix_idempotent
        (gopath : string) (delimiter : ascii) (filename : string) :
  canonicalizeGOPATHPrefix gopath delimiter
    (canonicalizeGOPATHPrefix gopath delimiter filename)
  = canonicalizeGOPATHPrefix gopath delimiter filename.
Proof.
  destruct (canonicalize_cases gopath delimiter filename)
    as [Hsame|(a & w & Hpick & _ & _ & Hres)]; [by rewrite !Hsame|].
  unfold canonicalizeGOPATHPrefix at 1.
  rewrite canonicalize_lower, Hpick.
  destruct (String.eqb gopath ""); [done|].
  cbn [truthy negb default]. unfold id. rewrite Hres at 1.
  by rewrite drop_str_app.
Qed.

(** X16.  For a GOPATH and a file name of code units below 256, where
    [toLowerCase] maps each unit to one unit: when an entry of GOPATH,
    not empty, is a prefix of the file name up to case, the canonical
    name starts, letter for letter, with an entry of GOPATH that is at
    least as long. *)
Theorem canonicalizeGOPATHPrefix_longest_workspace
        (gopath : string) (delimiter : ascii) (filename w : string) :
  w ∈ split delimiter gopath ->
  w <> "" ->
  startsWith (toLowerCase filename) (toLowerCase w) = true ->
  exists w',
    w' ∈ split delimiter gopath
    /\ (String.length w <= String.length w')%nat
    /\ startsWith (canonicalizeGOPATHPrefix gopath delimiter filename) w' = true.
Proof.
  intros Hin Hne Hstarts.
  assert (Hfit : fits (toLowerCase filename) w).
  { apply startsWith_spec in Hstarts as (t & Ht). unfold fits. rewrite Ht.
    rewrite <- (toLowerCase_length w). apply take_str_app. }
  destruct (pickWorkspace_longest (toLowerCase filename)
              (split delimiter gopath) None) as [Hlong _].
  destruct (Hlong w Hin Hne Hfit) as (w' & Hpick & Hle).
  assert (gopath <> "") as Hgopath.
  { intros ->. cbn in Hin. apply list_elem_of_singleton in Hin. done. }
  destruct (pickWorkspace_source (toLowerCase filename)
              (split delimiter gopath) None) as [Hnone|(w2 & Hw2 & Hin2 & _)];
    [congruence|].
  exists w'. rewrite Hpick in Hw2. injection Hw2 as <-.
  split; [done|]. split; [done|].
  unfold canonicalizeGOPATHPrefix.
  destruct (String.eqb_spec gopath ""); [done|]. rewrite Hpick.
  destruct w' as [|a w']; [destruct w; [done|cbn in Hle; lia]|].
  cbn [truthy negb default]. unfold id. apply startsWith_app.
Qed.

Lemma canonicalizeGOPATHPrefix_longest_workspace_witness :
  ("/Users/Me/go" ∈ split ":" "/users:/Users/Me/go"
   /\ "/Users/Me/go" <> ""
   /\ startsWith (toLowerCase "/users/me/go/src/a.go")
                 (toLowerCase "/Users/Me/go") = true)
  /\ exists w',
      w' ∈ split ":" "/users:/Users/Me/go"
      /\ (String.length "/Users/Me/go" <= String.length w')%nat
      /\ startsWith (canonicalizeGOPATHPrefix "/users:/Users/Me/go" ":"
                       "/users/me/go/src/a.go") w' = true.
Proof.
  assert (H : "/Users/Me/go" ∈ split ":" "/users:/Users/Me/go"
              /\ "/Users/Me/go" <> ""
              /\ startsWith (toLowerCase "/users/me/go/src/a.go")
                            (toLowerCase "/Users/Me/go") = true).
  { split; [|split; [discriminate|reflexivity]].
    apply list_elem_of_further, list_elem_of_here. }
  split; [exact H|].
  apply (canonicalizeGOPATHPrefix_longest_workspace
           "/users:/Users/Me/go" ":" "/users/me/go/src/a.go" "/Users/Me/go");
    [exact (proj1 H) | exact (proj1 (proj2 H)) | exact (proj2 (proj2 H))].
Defined.

(** *** [getGoVersion] and [isVendorSupported] *)

Section GoVersionCacheProperties.
Context {M : SemverModule}.
Variables (major minor : SemVer -> Z).
Variables (goroot envPath : string).

Lemma runGoVersion_cache (goRuntimePath : string) (run : ExecFile)
      (st : Globals) :
  vendorSupport (runGoVersion goRuntimePath run st).2 = vendorSupport st
  /\ match (runGoVersion goRuntimePath run st).1 with
     | Some g => cachedGoVersion (runGoVersion goRuntimePath run st).2 = Some g
     | None => cachedGoVersion (runGoVersion goRuntimePath run st).2
               = cachedGoVersion st
     end.
Proof.
  unfold runGoVersion. destruct run as [err|stdout stderr]; [done|].
  destruct (negb (String.eqb stderr "")); done.
Qed.

(** X17.  What [getGoVersion] returns is what the cache then holds, and a
    call that returns nothing (no binary, a failed run, output on the
    error stream) leaves the cached version as it was; the remembered
    answer on vendoring is never touched. *)
Theorem getGoVersion_returns_the_cache
        (goRuntimePath : string) (run : ExecFile) (st : Globals) :
  vendorSupport (getGoVersion goroot envPath goRuntimePath run st).2
  = vendorSupport st
  /\ match (getGoVersion goroot envPath goRuntimePath run st).1 with
     | Some g =>
         cachedGoVersion (getGoVersion goroot envPath goRuntimePath run st).2
         = Some g
     | None =>
         cachedGoVersion (getGoVersion goroot envPath goRuntimePath run st).2
         = cachedGoVersion st
     end.
Proof.
  unfold getGoVersion. destruct (String.eqb goRuntimePath ""); [done|].
  destruct (cachedGoVersion st) as [g|] eqn:Hc.
  - destruct (GoVersion.isValid g); [done|].
    destruct (runGoVersion_cache goRuntimePath run
      (warn "cached Go version ([object Object]) is invalid, recomputing" st))
      as [Hv Hg].
    split; [exact Hv|].
    destruct (runGoVersion _ _ _).1; [done|]. rewrite Hg. exact Hc.
  - destruct (runGoVersion_cache goRuntimePath run st) as [Hv Hg].
    split; [exact Hv|].
    destruct (runGoVersion _ _ _).1; [done|]. rewrite Hg. exact Hc.
Qed.

(** X18.  Once a valid version is cached, every call that finds a binary
    returns it and changes nothing, whatever binary it finds and whatever
    that binary would print: the cached version is never checked against
    the binary path. *)
Theorem getGoVersion_serves_the_valid_cache
        (calls : list (string * ExecFile)) (st : Globals) (g : GoVersion.t) :
  cachedGoVersion st = Some g ->
  GoVersion.isValid g = true ->
  Forall (fun c => c.1 <> "") calls ->
  getGoVersionCalls goroot envPath calls st = (map (fun _ => Some g) calls, st).
Proof.
  intros Hc Hvalid Hcalls. induction Hcalls as [|[p run] calls Hp _ IH];
    [done|].
  cbn [getGoVersionCalls map]. unfold getGoVersion.
  destruct (String.eqb_spec p ""); [done|].
  rewrite Hc, Hvalid, IH. done.
Qed.

(** X19.  Without a remembered answer, [isVendorSupported] rejects instead
    of answering when no version can be had: the binary is not found, or
    no valid version is cached and the run fails or writes to the error
    stream.  Nothing is remembered then. *)
Theorem isVendorSupported_rejects
        (goRuntimePath : string) (run : ExecFile) (env : option string)
        (st : Globals) :
  vendorSupport st = None ->
  goRuntimePath = ""
  \/ (match cachedGoVersion st with
      | Some g => GoVersion.isValid g = false
      | None => True
      end
      /\ match run with
         | execFails _ => True
         | execGives _ stderr => stderr <> ""
         end) ->
  exists st',
    isVendorSupported major minor goroot envPath goRuntimePath run env st
    = (Rejected, st')
    /\ vendorSupport st' = None
    /\ cachedGoVersion st' = cachedGoVersion st.
Proof.
  intros Hv Hcause. unfold isVendorSupported. rewrite Hv. unfold getGoVersion.
  destruct Hcause as [->|[Hcache Hrun]].
  - cbn [String.eqb]. eexists. split; [reflexivity|]. by split.
  - destruct (String.eqb goRuntimePath "");
      [eexists; split; [reflexivity|]; by split|].
    unfold runGoVersion.
    destruct (cachedGoVersion st) as [g|] eqn:Hc; [rewrite Hcache|];
      (destruct run as [err|out err];
       [|destruct (String.eqb_spec err ""); [done|]; cbn [negb]]);
      eexists; (split; [reflexivity|]); by split.
Qed.

(** X20.  For go 0.x and later, support for vendoring never goes away
    with a newer version: with the same environment, what holds for a
    version holds for every version whose major and minor numbers are not
    smaller. *)
Theorem vendor_support_is_monotone
        (v v' : SemVer) (env : option string) :
  0 <= major v ->
  major v < major v' \/ (major v = major v' /\ minor v <= minor v') ->
  vendorSupportFor major minor v env = true ->
  vendorSupportFor major minor v' env = true.
Proof.
  intros Hmajor Horder. unfold vendorSupportFor.
  destruct (Z.eqb_spec (major v) 0) as [|H0]; [done|].
  destruct (Z.eqb_spec (major v') 0) as [|H0']; [lia|].
  destruct (Z.eqb_spec (major v) 1) as [H1|H1];
    destruct (Z.eqb_spec (major v') 1) as [H1'|H1']; try done; try lia.
  destruct Horder as [|[_ Hminor]]; [lia|].
  destruct (Z.ltb_spec 6 (minor v)) as [H6|H6];
    destruct (Z.ltb_spec 6 (minor v')) as [H6'|H6']; try done; try lia.
  cbn [orb]. destruct (bool_decide (env = Some "1")); [|by rewrite !andb_false_r].
  rewrite !andb_true_r.
  destruct (Z.eqb_spec (minor v) 5), (Z.eqb_spec (minor v) 6),
    (Z.eqb_spec (minor v') 5), (Z.eqb_spec (minor v') 6); try done; lia.
Qed.


End GoVersionCacheProperties.

Lemma getGoVersion_serves_the_valid_cache_witness :
  (cachedGoVersion cachedGlobals
     = Some (GoVersion.newGoVersion "/usr/bin/go" go114)
   /\ GoVersion.isValid (@GoVersion.newGoVersion triple_semver "/usr/bin/go" go114)
      = true
   /\ Forall (fun c : string * ExecFile => c.1 <> "")
        [("/opt/go/bin/go", execFails "ENOENT");
         ("/usr/bin/go", execGives "go version go1.9 linux/amd64" "")])
  /\ getGoVersionCalls "/usr/lib/go" "/usr/bin"
       [("/opt/go/bin/go", execFails "ENOENT");
        ("/usr/bin/go", execGives "go version go1.9 linux/amd64" "")]
       cachedGlobals
     = (map (fun _ => Some (GoVersion.newGoVersion "/usr/bin/go" go114))
          [("/opt/go/bin/go", execFails "ENOENT");
           ("/usr/bin/go", execGives "go version go1.9 linux/amd64" "")],
        cachedGlobals).
Proof.
  assert (H : cachedGoVersion cachedGlobals
              = Some (GoVersion.newGoVersion "/usr/bin/go" go114)
              /\ GoVersion.isValid
                   (@GoVersion.newGoVersion triple_semver "/usr/bin/go" go114)
                 = true
              /\ Forall (fun c : string * ExecFile => c.1 <> "")
                   [("/opt/go/bin/go", execFails "ENOENT");
                    ("/usr/bin/go", execGives "go version go1.9 linux/amd64" "")]).
  { split; [reflexivity|]. split; [vm_compute; reflexivity|].
    repeat (constructor; [discriminate|]). constructor. }
  split; [exact H|].
  apply (@getGoVersion_serves_the_valid_cache triple_semver);
    [exact (proj1 H) | exact (proj1 (proj2 H)) | exact (proj2 (proj2 H))].
Defined.

Lemma isVendorSupported_rejects_witness :
  (vendorSupport noGlobals = None
   /\ ("/usr/bin/go" = ""
       \/ (match cachedGoVersion noGlobals with
           | Some g => GoVersion.isValid g = false
           | None => True
           end
           /\ "go: cannot find GOROOT" <> "")))
  /\ exists st',
      @isVendorSupported triple_semver triple_major triple_minor "/usr/lib/go" "/usr/bin"
        "/usr/bin/go" (execGives "" "go: cannot find GOROOT") (Some "1")
        noGlobals
      = (Rejected, st')
      /\ vendorSupport st' = None
      /\ cachedGoVersion st' = cachedGoVersion noGlobals.
Proof.
  assert (H : vendorSupport noGlobals = None
              /\ ("/usr/bin/go" = ""
                  \/ (match cachedGoVersion noGlobals with
                      | Some g => GoVersion.isValid g = false
                      | None => True
                      end
                      /\ "go: cannot find GOROOT" <> ""))).
  { split; [reflexivity|]. right. split; [exact I|discriminate]. }
  split; [exact H|].
  apply (@isVendorSupported_rejects triple_semver triple_major triple_minor
           "/usr/lib/go" "/usr/bin" "/usr/bin/go"
           (execGives "" "go: cannot find GOROOT") (Some "1") noGlobals);
    [exact (proj1 H) | exact (proj2 H)].
Defined.

Lemma vendor_support_is_monotone_witness :
  (0 <= triple_major (1, 5, 3)
   /\ (triple_major (1, 5, 3) < triple_major (1, 7, 0)
       \/ (triple_major (1, 5, 3) = triple_major (1, 7, 0)
           /\ triple_minor (1, 5, 3) <= triple_minor (1, 7, 0)))
   /\ @vendorSupportFor triple_semver triple_major triple_minor (1, 5, 3)
        (Some "1") = true)
  /\ @vendorSupportFor triple_semver triple_major triple_minor (1, 7, 0)
       (Some "1") = true.
Proof.
  assert (H : 0 <= triple_major (1, 5, 3)
              /\ (triple_major (1, 5, 3) < triple_major (1, 7, 0)
                  \/ (triple_major (1, 5, 3) = triple_major (1, 7, 0)
                      /\ triple_minor (1, 5, 3) <= triple_minor (1, 7, 0)))
              /\ @vendorSupportFor triple_semver triple_major triple_minor
                   (1, 5, 3) (Some "1") = true).
  { split; [cbn; lia|]. split; [right; cbn; lia|]. vm_compute. reflexivity. }
  split; [exact H|].
  apply (@vendor_support_is_monotone triple_semver triple_major triple_minor
           (1, 5, 3) (1, 7, 0) (Some "1"));
    [exact (proj1 H) | exact (proj1 (proj2 H)) | exact (proj2 (proj2 H))].
Defined.


(** *** [getImportPath] *)

Lemma allOf_app (p : charclass) (a b : string) :
  allOf p (a +:+ b) = allOf p a && allOf p b.
Proof.
  induction a as [|c a IH]; str_simpl; [done|]. cbn [allOf].
  by rewrite IH, andb_assoc.
Qed.

Lemma allOf_weaken (p q : charclass) (s : string) :
  (forall a, p a = true -> q a = true) ->
  allOf p s = true -> allOf q s = true.
Proof.
  intros Hpq. induction s as [|c s IH]; [done|]. cbn [allOf].
  intros [Hc Hs]%andb_true_iff. by rewrite (Hpq c Hc), IH.
Qed.

Lemma space_notQuote (a : ascii) : cc_space a = true -> cc_notQuote a = true.
Proof. destruct a as [[] [] [] [] [] [] [] []]; vm_compute; done. Qed.

Lemma word_notQuote (a : ascii) : cc_word a = true -> cc_notQuote a = true.
Proof. destruct a as [[] [] [] [] [] [] [] []]; vm_compute; done. Qed.

Lemma aliasStart_notQuote (a : ascii) :
  cc_aliasStart a = true -> cc_notQuote a = true.
Proof. destruct a as [[] [] [] [] [] [] [] []]; vm_compute; done. Qed.

Lemma first_quote_unique (u u' v v' : string) :
  allOf cc_notQuote u = true -> allOf cc_notQuote u' = true ->
  u +:+ DQ +:+ v = u' +:+ DQ +:+ v' -> u = u' /\ v = v'.
Proof.
  unfold DQ. revert u'. induction u as [|a u IH]; intros [|a' u']; str_simpl;
    cbn [allOf]; intros Hu Hu' Heq.
  - by injection Heq.
  - injection Heq as <- _. done.
  - injection Heq as -> _. done.
  - injection Heq as -> Heq.
    apply andb_true_iff in Hu as [_ Hu]. apply andb_true_iff in Hu' as [_ Hu'].
    destruct (IH u' Hu Hu' Heq) as [-> ->]. done.
Qed.

Section ImportMatcher.
Context {R : Type}.

Lemma rep_class_inv (p : charclass) (lo : nat) (hi : option nat)
      (s : string) (k : string -> option R) (x : R) :
  rep_class p lo hi s k = Some x ->
  exists pre s', s = pre +:+ s' /\ allOf p pre = true /\ k s' = Some x.
Proof.
  assert (Hstop : forall (l : nat) (s0 : string),
             match l with O => k s0 | S _ => None end = Some x ->
             exists pre s', s0 = pre +:+ s' /\ allOf p pre = true
                            /\ k s' = Some x).
  { intros [|l] s0 H; [|done]. by exists "", s0. }
  revert lo hi. induction s as [|a s IH]; intros lo hi; cbn [rep_class].
  - destruct hi as [[|h]|]; apply Hstop.
  - destruct hi as [[|h]|]; [apply Hstop| |];
      (destruct (p a) eqn:Hpa; [|apply Hstop]);
      (destruct (rep_class p _ _ s k) as [r|] eqn:E; [|apply Hstop]);
      intros [= ->]; destruct (IH _ _ E) as (pre & s' & -> & Hpre & Hk);
      exists (String a pre), s'; cbn [allOf]; by rewrite Hpa, Hpre.
Qed.

Lemma rep_class_complete (p : charclass) (u v : string)
      (k : string -> option R) :
  forall lo, allOf p u = true -> (lo <= String.length u)%nat ->
    is_Some (k v) -> is_Some (rep_class p lo None (u +:+ v) k).
Proof.
  induction u as [|a u IH]; intros lo Hu Hlo Hk; str_simpl.
  - cbn in Hlo. assert (lo = 0)%nat as -> by lia.
    destruct v as [|b v]; cbn [rep_class]; [done|].
    destruct (p b); [|done].
    by destruct (rep_class p _ _ v k).
  - cbn [allOf] in Hu. apply andb_true_iff in Hu as [Ha Hu].
    cbn [rep_class]. rewrite Ha.
    change (Nat.pred <$> @None nat) with (@None nat).
    destruct (IH (Nat.pred lo) Hu) as [r ->]; [cbn in Hlo; lia|done|].
    done.
Qed.

Lemma rmatch_lit_fwd (n : nat) (lit s : string) (cs : captures)
      (k : string -> captures -> option R) :
  rmatch n (RLit lit) (lit +:+ s) cs k = k s cs.
Proof.
  induction lit as [|a lit IH]; str_simpl; cbn [RLit rmatch]; [done|].
  unfold cc_is. by rewrite Ascii.eqb_refl.
Qed.

Lemma importTail_inv (n : nat) (s : string) (cs : captures)
      (k : string -> captures -> option R) (x : R) :
  rmatch n importTail s cs k = Some x ->
  exists al q rest cs',
    s = al +:+ DQ +:+ q +:+ DQ +:+ rest
    /\ allOf cc_notQuote al = true /\ allOf cc_notQuote q = true
    /\ capture 2 cs' = Some q
    /\ k rest cs' = Some x.
Proof.
  unfold importTail. cbn [rcat fold_right]. cbn [rmatch]. intros H.
  assert (Hquoted : forall s1 cs1,
    rmatch n (RLit DQ) s1 cs1
      (fun s' cs' =>
         rep_class cc_notQuote 1 None s'
           (fun s'0 =>
              rmatch n (RLit DQ) s'0
                ((2%nat, take_str (String.length s' - String.length s'0) s') :: cs')
                (fun s'1 cs'0 => k s'1 cs'0))) = Some x ->
    exists q rest cs',
      s1 = DQ +:+ q +:+ DQ +:+ rest /\ allOf cc_notQuote q = true
      /\ capture 2 cs' = Some q /\ k rest cs' = Some x).
  { intros s1 cs1 H1. apply rmatch_lit in H1 as (t & -> & H1).
    apply rep_class_inv in H1 as (q & t2 & -> & Hq & H1).
    apply rmatch_lit in H1 as (rest & -> & H1).
    exists q, rest. eexists. split; [done|]. split; [done|].
    split; [|exact H1]. cbn [capture Nat.eqb]. f_equal.
    rewrite length_app_str.
    replace (String.length q + String.length (DQ +:+ rest)
             - String.length (DQ +:+ rest))%nat with (String.length q) by lia.
    apply take_str_app. }
  match type of H with
  | match ?inner with _ => _ end = _ => destruct inner as [y|] eqn:E
  end.
  - injection H as ->. destruct s as [|a s]; [done|].
    destruct (cc_aliasStart a) eqn:Ha; [|done].
    apply rep_class_inv in E as (w & s1 & -> & Hw & E).
    apply rep_class_inv in E as (sp & s2 & -> & Hsp & E).
    destruct (_ =? _)%nat; [done|].
    apply Hquoted in E as (q & rest & cs' & -> & Hq & Hcap & Hk).
    exists (String a (w +:+ sp)), q, rest, cs'.
    split; [by str_simpl; rewrite !app_str_assoc|].
    split; [|done]. cbn [allOf]. rewrite (aliasStart_notQuote a Ha), allOf_app.
    rewrite (allOf_weaken _ _ w word_notQuote Hw).
    by rewrite (allOf_weaken _ _ sp space_notQuote Hsp).
  - apply Hquoted in H as (q & rest & cs' & -> & Hq & Hcap & Hk).
    exists "", q, rest, cs'. by str_simpl.
Qed.

Lemma importTail_complete (n : nat) (al p rest : string) (cs : captures)
      (k : string -> captures -> option R) :
  aliasPart al -> allOf cc_notQuote p = true -> p <> "" ->
  (forall cs', is_Some (k rest cs')) ->
  is_Some (rmatch n importTail (al +:+ DQ +:+ p +:+ DQ +:+ rest) cs k).
Proof.
  intros Hal Hp Hne Hk. unfold importTail. cbn [rcat fold_right]. cbn [rmatch].
  assert (Hquoted : forall cs1,
    is_Some (rmatch n (RLit DQ) (DQ +:+ p +:+ DQ +:+ rest) cs1
      (fun s' cs' =>
         rep_class cc_notQuote 1 None s'
           (fun s'0 =>
              rmatch n (RLit DQ) s'0
                ((2%nat, take_str (String.length s' - String.length s'0) s') :: cs')
                (fun s'1 cs'0 => k s'1 cs'0))))).
  { intros cs1. rewrite rmatch_lit_fwd. apply rep_class_complete; [done| |].
    - destruct p; [done|]. cbn. lia.
    - rewrite rmatch_lit_fwd. apply Hk. }
  match goal with
  | |- is_Some (match ?inner with _ => _ end) => destruct inner as [y|] eqn:E
  end; [done|].
  destruct Hal as [->|(a & w & sp & -> & Ha & Hw & Hsp & Hspne)].
  - str_simpl. apply Hquoted.
  - exfalso. revert E. str_simpl. rewrite Ha. rewrite !app_str_assoc.
    intros E.
    match type of E with
    | ?lhs = None => assert (is_Some lhs) as Hsome
    end.
    { apply rep_class_complete; [done|lia|].
      apply rep_class_complete; [done|destruct sp; [done|cbn; lia]|].
      match goal with
      | |- context [(?x =? ?y)%nat] => destruct (Nat.eqb_spec x y) as [Hlen|_]
      end.
      { cbn [String.length] in Hlen. rewrite !length_app_str in Hlen. lia. }
      apply Hquoted. }
    rewrite E in Hsome. by destruct Hsome.
Qed.
End ImportMatcher.

Lemma match_at_bol_short (n : nat) (r : regex) (s : string) :
  (String.length s < n)%nat -> match_at n (RSeq RBol r) s = None.
Proof.
  intros Hlen. unfold match_at. cbn [rmatch].
  destruct (Nat.eqb_spec (String.length s) n) as [Heq|_]; [lia|done].
Qed.

Lemma search_bol_short (n : nat) (r : regex) (s : string) :
  (String.length s < n)%nat -> search n (RSeq RBol r) s = None.
Proof.
  induction s as [|a s IH]; intros Hlen; cbn [search];
    rewrite match_at_bol_short by done; [done|].
  apply IH. cbn in Hlen. lia.
Qed.

Lemma exec_bol (r : regex) (s : string) :
  exec (RSeq RBol r) s = match_at (String.length s) (RSeq RBol r) s.
Proof.
  unfold exec. destruct s as [|a s]; cbn [search].
  - by destruct (match_at _ _ _).
  - destruct (match_at _ _ _); [done|]. apply search_bol_short. cbn. lia.
Qed.

Lemma singleLineImport_inv (text : string) (m : MatchArray) :
  exec singleLineImportRegex text = Some m ->
  exists u q rest,
    text = u +:+ DQ +:+ q +:+ DQ +:+ rest
    /\ allOf cc_notQuote u = true /\ allOf cc_notQuote q = true
    /\ m_get m 2 = Some q.
Proof.
  unfold singleLineImportRegex. cbn [rcat fold_right]. rewrite exec_bol.
  unfold match_at. cbn [rmatch]. rewrite Nat.eqb_refl. intros H.
  apply rep_class_inv in H as (ws & s1 & -> & Hws & H).
  apply rmatch_lit in H as (s2 & -> & H).
  apply rep_class_inv in H as (sp & s3 & -> & Hsp & H).
  apply (importTail_inv _ s3 [] _ m) in H
    as (al & q & rest & cs' & -> & Hal & Hq & Hcap & [= <-]).
  exists (ws +:+ "import" +:+ sp +:+ al), q, rest.
  split; [by rewrite !app_str_assoc|]. split; [|done].
  rewrite !allOf_app, Hal, (allOf_weaken _ _ ws space_notQuote Hws),
    (allOf_weaken _ _ sp space_notQuote Hsp). done.
Qed.

Lemma groupImport_inv (text : string) (m : MatchArray) :
  exec groupImportRegex text = Some m ->
  exists u q rest,
    text = u +:+ DQ +:+ q +:+ DQ +:+ rest
    /\ allOf cc_notQuote u = true /\ allOf cc_notQuote q = true
    /\ m_get m 2 = Some q.
Proof.
  unfold groupImportRegex. cbn [rcat fold_right]. rewrite exec_bol.
  unfold match_at. cbn [rmatch]. rewrite Nat.eqb_refl. intros H.
  apply rep_class_inv in H as (ws & s1 & -> & Hws & H).
  apply (importTail_inv _ s1 [] _ m) in H
    as (al & q & rest & cs' & -> & Hal & Hq & Hcap & [= <-]).
  exists (ws +:+ al), q, rest.
  split; [by rewrite !app_str_assoc|]. split; [|done].
  rewrite !allOf_app, Hal, (allOf_weaken _ _ ws space_notQuote Hws). done.
Qed.

Lemma getImportPath_cases (text : string) :
  getImportPath text = ""
  \/ exists u rest,
      text = u +:+ DQ +:+ getImportPath text +:+ DQ +:+ rest
      /\ allOf cc_notQuote u = true
      /\ allOf cc_notQuote (getImportPath text) = true.
Proof.
  unfold getImportPath.
  destruct (exec singleLineImportRegex text) as [m|] eqn:E1.
  - apply singleLineImport_inv in E1 as (u & q & rest & -> & Hu & Hq & ->).
    right. by exists u, rest.
  - destruct (exec groupImportRegex text) as [m|] eqn:E2; [|by left].
    apply groupImport_inv in E2 as (u & q & rest & -> & Hu & Hq & ->).
    right. by exists u, rest.
Qed.

(** X22.  What [getImportPath] returns, when it is not empty, is the text
    between the first two double quotes of its argument. *)
Theorem getImportPath_between_first_quotes (text : string) :
  getImportPath text <> "" ->
  exists u rest,
    text = u +:+ DQ +:+ getImportPath text +:+ DQ +:+ rest
    /\ allOf cc_notQuote u = true
    /\ allOf cc_notQuote (getImportPath text) = true.
Proof. intros Hne. by destruct (getImportPath_cases text). Qed.

Lemma getImportPath_found (u p rest : string) :
  allOf cc_notQuote u = true -> allOf cc_notQuote p = true ->
  is_Some (exec singleLineImportRegex (u +:+ DQ +:+ p +:+ DQ +:+ rest))
  \/ is_Some (exec groupImportRegex (u +:+ DQ +:+ p +:+ DQ +:+ rest)) ->
  getImportPath (u +:+ DQ +:+ p +:+ DQ +:+ rest) = p.
Proof.
  intros Hu Hp Hsome. unfold getImportPath.
  destruct (exec singleLineImportRegex _) as [m|] eqn:E1.
  - apply singleLineImport_inv in E1 as (u' & q & rest' & Heq & Hu' & Hq & ->).
    apply first_quote_unique in Heq as [_ Heq]; [|done..].
    apply first_quote_unique in Heq as [-> _]; done.
  - destruct Hsome as [[? ?]|[m Hm]]; [done|]. rewrite Hm.
    apply groupImport_inv in Hm as (u' & q & rest' & Heq & Hu' & Hq & ->).
    apply first_quote_unique in Heq as [_ Heq]; [|done..].
    apply first_quote_unique in Heq as [-> _]; done.
Qed.

Lemma aliasPart_notQuote (al : string) :
  aliasPart al -> allOf cc_notQuote al = true.
Proof.
  intros [->|(a & w & sp & -> & Ha & Hw & Hsp & _)]; [done|].
  cbn [allOf]. rewrite (aliasStart_notQuote a Ha), allOf_app.
  rewrite (allOf_weaken _ _ w word_notQuote Hw).
  by rewrite (allOf_weaken _ _ sp space_notQuote Hsp).
Qed.

(** X23.  The import path is found in an import declaration and in a line
    of a group of imports, with or without an alias: for blanks [ws] and
    [sp], an alias part [al] (nothing, or a name and blanks) and a path
    [p] without double quote, the function returns [p] on
    [ws import sp al Q p Q rest] and on [ws al Q p Q rest], Q being the
    double quote. *)
Theorem getImportPath_round_trip (ws sp al p rest : string) :
  allOf cc_space ws = true ->
  allOf cc_space sp = true -> sp <> "" ->
  aliasPart al ->
  allOf cc_notQuote p = true -> p <> "" ->
  getImportPath (ws +:+ "import" +:+ sp +:+ al +:+ DQ +:+ p +:+ DQ +:+ rest) = p
  /\ getImportPath (ws +:+ al +:+ DQ +:+ p +:+ DQ +:+ rest) = p.
Proof.
  intros Hws Hsp Hspne Hal Hp Hpne.
  pose proof (aliasPart_notQuote al Hal) as Halq.
  pose proof (allOf_weaken _ _ ws space_notQuote Hws) as Hwsq.
  pose proof (allOf_weaken _ _ sp space_notQuote Hsp) as Hspq.
  split.
  - replace (ws +:+ "import" +:+ sp +:+ al +:+ DQ +:+ p +:+ DQ +:+ rest)
      with ((ws +:+ "import" +:+ sp +:+ al) +:+ DQ +:+ p +:+ DQ +:+ rest)
      by (by rewrite !app_str_assoc).
    apply getImportPath_found; [by rewrite !allOf_app, Hwsq, Hspq, Halq|done|].
    left. rewrite !app_str_assoc.
    unfold singleLineImportRegex. cbn [rcat fold_right]. rewrite exec_bol.
    unfold match_at. cbn [rmatch]. rewrite Nat.eqb_refl.
    apply rep_class_complete; [done|lia|].
    rewrite rmatch_lit_fwd.
    apply rep_class_complete; [done|destruct sp; [done|cbn; lia]|].
    apply (importTail_complete _ al p rest [] _ Hal Hp Hpne). done.
  - replace (ws +:+ al +:+ DQ +:+ p +:+ DQ +:+ rest)
      with ((ws +:+ al) +:+ DQ +:+ p +:+ DQ +:+ rest)
      by (by rewrite !app_str_assoc).
    apply getImportPath_found; [by rewrite !allOf_app, Hwsq, Halq|done|].
    right. rewrite !app_str_assoc.
    unfold groupImportRegex. cbn [rcat fold_right]. rewrite exec_bol.
    unfold match_at. cbn [rmatch]. rewrite Nat.eqb_refl.
    apply rep_class_complete; [done|lia|].
    apply (importTail_complete _ al p rest [] _ Hal Hp Hpne). done.
Qed.

Lemma getImportPath_between_first_quotes_witness :
  getImportPath ("import " +:+ DQ +:+ "fmt" +:+ DQ) <> ""
  /\ exists u rest,
      "import " +:+ DQ +:+ "fmt" +:+ DQ
      = u +:+ DQ +:+ getImportPath ("import " +:+ DQ +:+ "fmt" +:+ DQ)
          +:+ DQ +:+ rest
      /\ allOf cc_notQuote u = true
      /\ allOf cc_notQuote (getImportPath ("import " +:+ DQ +:+ "fmt" +:+ DQ))
         = true.
Proof.
  assert (H : getImportPath ("import " +:+ DQ +:+ "fmt" +:+ DQ) <> "").
  { vm_compute. discriminate. }
  split; [exact H|].
  apply (getImportPath_between_first_quotes
           ("import " +:+ DQ +:+ "fmt" +:+ DQ)). exact H.
Defined.

Lemma getImportPath_round_trip_witness :
  (allOf cc_space (String TAB "") = true
   /\ allOf cc_space " " = true /\ " " <> ""
   /\ aliasPart "f "
   /\ allOf cc_notQuote "net/http" = true /\ "net/http" <> "")
  /\ getImportPath (String TAB "" +:+ "import" +:+ " " +:+ "f " +:+ DQ
                    +:+ "net/http" +:+ DQ +:+ " // client") = "net/http"
  /\ getImportPath (String TAB "" +:+ "f " +:+ DQ +:+ "net/http" +:+ DQ
                    +:+ " // client") = "net/http".
Proof.
  assert (H : allOf cc_space (String TAB "") = true
              /\ allOf cc_space " " = true /\ " " <> ""
              /\ aliasPart "f "
              /\ allOf cc_notQuote "net/http" = true /\ "net/http" <> "").
  { split; [reflexivity|]. split; [reflexivity|]. split; [discriminate|].
    split; [|split; [reflexivity|discriminate]].
    right. exists "f"%char, "", " ".
    split; [reflexivity|]. split; [reflexivity|]. split; [reflexivity|].
    split; [reflexivity|discriminate]. }
  split; [exact H|].
  apply (getImportPath_round_trip (String TAB "") " " "f " "net/http"
           " // client");
    [exact (proj1 H) | exact (proj1 (proj2 H))
     | exact (proj1 (proj2 (proj2 H)))
     | exact (proj1 (proj2 (proj2 (proj2 H))))
     | exact (proj1 (proj2 (proj2 (proj2 (proj2 H)))))
     | exact (proj2 (proj2 (proj2 (proj2 (proj2 H)))))].
Defined.

(** *** [runTool]: what every run keeps *)

Section RunToolInvariants.
Context {P : PathModule}.
Variables (cwd severity_arg : string) (useStdErr printUnexpectedOutput : bool).
Variable stderr : string.

Lemma parseLine_matched (st : ParseState) (l : string) :
  (atLeastSingleMatch st = false -> ret st = []) ->
  atLeastSingleMatch
    (parseLine cwd severity_arg useStdErr printUnexpectedOutput stderr st l)
    = false ->
  ret (parseLine cwd severity_arg useStdErr printUnexpectedOutput stderr st l)
  = [].
Proof.
  intros Hinv. unfold parseLine.
  destruct (startsWith l (String TAB "") && (0 <? length (ret st))%nat) eqn:Htab.
  - cbn [ret atLeastSingleMatch]. intros Hno. rewrite (Hinv Hno) in Htab.
    by rewrite andb_false_r in Htab.
  - destruct (exec lineRegex l) as [m|]; [|exact Hinv].
    by destruct (negb (path_isAbsolute _) && inVendorFolder _).
Qed.

Lemma parseLine_length (st : ParseState) (l : string) :
  (length (ret (parseLine cwd severity_arg useStdErr printUnexpectedOutput
                  stderr st l))
   <= S (length (ret st)))%nat.
Proof.
  unfold parseLine.
  destruct (startsWith l (String TAB "") && (0 <? length (ret st))%nat).
  - cbn [ret]. rewrite length_appendToLast. lia.
  - destruct (exec lineRegex l) as [m|]; [|cbn [ret]; lia].
    destruct (negb (path_isAbsolute _) && inVendorFolder _); cbn [ret];
      [lia|]. rewrite length_app. cbn. lia.
Qed.

Lemma appendToLast_Forall (Q : ICheckResult -> Prop) (rs : list ICheckResult)
      (l : string) :
  (forall r m, Q r ->
     Q {| file := file r; line := line r; col := col r; msg := m;
          severity := severity r |}) ->
  Forall Q rs -> Forall Q (appendToLast rs l).
Proof.
  intros HQ Hrs. destruct rs as [|r0 rs0] using rev_ind; [done|].
  rewrite appendToLast_snoc. apply Forall_app in Hrs as [Hb Hr].
  apply Forall_app. split; [done|]. constructor; [|done].
  apply HQ. by apply Forall_inv in Hr.
Qed.

Lemma parseLine_parsedWith (st : ParseState) (l : string) :
  Forall (parsedWith cwd severity_arg) (ret st) ->
  Forall (parsedWith cwd severity_arg)
    (ret (parseLine cwd severity_arg useStdErr printUnexpectedOutput stderr
            st l)).
Proof.
  intros Hst. unfold parseLine.
  destruct (startsWith l (String TAB "") && (0 <? length (ret st))%nat).
  - cbn [ret]. apply appendToLast_Forall; [|done].
    intros r m [Hs Hf]. split; done.
  - destruct (exec lineRegex l) as [m|]; [|done].
    destruct (negb (path_isAbsolute _) && inVendorFolder _); cbn [ret];
      [done|]. apply Forall_app. split; [done|]. constructor; [|done].
    split; [done|]. by eexists.
Qed.

Lemma parse_invariants (lines : list string) :
  forall st,
    (atLeastSingleMatch st = false -> ret st = []) ->
    Forall (parsedWith cwd severity_arg) (ret st) ->
    let st' := fold_left
                 (parseLine cwd severity_arg useStdErr printUnexpectedOutput
                    stderr) lines st in
    (atLeastSingleMatch st' = false -> ret st' = [])
    /\ Forall (parsedWith cwd severity_arg) (ret st')
    /\ (length (ret st') <= length (ret st) + length lines)%nat.
Proof.
  induction lines as [|l lines IH]; intros st Hinv Hall; cbn [fold_left].
  - split; [done|]. split; [done|]. lia.
  - destruct (IH (parseLine cwd severity_arg useStdErr printUnexpectedOutput
                    stderr st l)) as (H1 & H2 & H3).
    + by apply parseLine_matched.
    + by apply parseLine_parsedWith.
    + split; [done|]. split; [done|].
      pose proof (parseLine_length st l). cbn [length]. lia.
Qed.
End RunToolInvariants.

Section RunToolResults.
Context {P : PathModule}.
Variables (cwd severity_arg : string) (useStdErr printUnexpectedOutput : bool).
Variable activeTextEditor : option string.

(** X24.  A run gives at most one diagnostic for each line of the output
    it reads, and the diagnostic made up for unparsable output is never
    mixed with parsed ones: the result is the parsed diagnostics, or that
    one diagnostic alone, or nothing. *)
Theorem runTool_one_diagnostic_per_line
        (err : option string) (stdout stderr : string) :
  (length (runTool cwd severity_arg useStdErr printUnexpectedOutput
             activeTextEditor err stdout stderr)
   <= length (split LF (if useStdErr then stderr else stdout)))%nat
  /\ (runTool cwd severity_arg useStdErr printUnexpectedOutput
        activeTextEditor err stdout stderr
      = ret (parseOutput cwd severity_arg useStdErr printUnexpectedOutput
               stderr (if useStdErr then stderr else stdout))
      \/ runTool cwd severity_arg useStdErr printUnexpectedOutput
           activeTextEditor err stdout stderr
         = [ {| file := orEmpty activeTextEditor; line := 1; col := Some 1;
                msg := stderr; severity := "error" |} ]
      \/ runTool cwd severity_arg useStdErr printUnexpectedOutput
           activeTextEditor err stdout stderr = []).
Proof.
  pose proof (split_nonempty LF (if useStdErr then stderr else stdout)) as Hne.
  assert (1 <= length (split LF (if useStdErr then stderr else stdout)))%nat
    as Hlines by (destruct (split LF _); [done|cbn; lia]).
  destruct (parse_invariants cwd severity_arg useStdErr printUnexpectedOutput
              stderr (split LF (if useStdErr then stderr else stdout))
              initialState) as (Hinv & _ & Hlen); [done|constructor|].
  cbn zeta in Hinv, Hlen. cbn [initialState ret length Nat.add] in Hlen.
  unfold runTool.
  destruct (bool_decide (err = Some "ENOENT")); [split; [cbn; lia|auto]|].
  destruct (bool_decide (is_Some err) && negb (String.eqb stderr "")
            && negb useStdErr); [split; [cbn; lia|auto]|].
  unfold parseOutput.
  destruct (atLeastSingleMatch _) eqn:Hmatch; cbn [negb andb];
    [split; [exact Hlen|auto]|].
  destruct (unexpectedOutput _ && bool_decide (is_Some activeTextEditor));
    [|split; [exact Hlen|auto]].
  destruct (bool_decide (is_Some err)); [|split; [exact Hlen|auto]].
  rewrite (Hinv eq_refl). cbn [app length]. split; [lia|auto].
Qed.

(** X25.  Every parsed diagnostic has the severity given to [runTool] and
    a file resolved against the working directory, whatever the lines
    that follow it append to its message. *)
Theorem parsed_diagnostics_keep_severity_and_directory
        (stderr text : string) :
  Forall (parsedWith cwd severity_arg)
    (ret (parseOutput cwd severity_arg useStdErr printUnexpectedOutput
            stderr text)).
Proof.
  unfold parseOutput.
  destruct (parse_invariants cwd severity_arg useStdErr printUnexpectedOutput
              stderr (split LF text) initialState) as (_ & Hall & _);
    [done|constructor|]. exact Hall.
Qed.
End RunToolResults.

(** *** [isPositionInString] and [isPositionInComment] *)

Lemma countEscapedQuotes_cons (a b : ascii) (s : string) :
  countEscapedQuotes (String a (String b s))
  = if Ascii.eqb a "092" && Ascii.eqb b "034"
    then 1 + countEscapedQuotes s
    else countEscapedQuotes (String b s).
Proof. reflexivity. Qed.

Lemma countEscapedQuotes_bounds (s : string) :
  0 <= countEscapedQuotes s <= countQuotes s.
Proof.
  assert (H : forall n s, (String.length s <= n)%nat ->
                          0 <= countEscapedQuotes s <= countQuotes s).
  { clear s. induction n as [|n IH]; intros [|a [|b s]] Hlen;
      cbn [String.length] in Hlen; try lia; try (cbn; lia).
    - cbn. destruct (Ascii.eqb a "034"); lia.
    - assert (0 <= countEscapedQuotes s <= countQuotes s) as Hs
        by (apply IH; lia).
      assert (0 <= countEscapedQuotes (String b s) <= countQuotes (String b s))
        as Hbs by (apply IH; cbn [String.length]; lia).
      rewrite countEscapedQuotes_cons.
      cbn [countQuotes] in *.
      destruct (Ascii.eqb_spec a "092") as [->|_]; cbn [andb].
      + change (Ascii.eqb "092" "034") with false.
        destruct (Ascii.eqb b "034"); lia.
      + destruct (Ascii.eqb a "034"), (Ascii.eqb b "034"); lia. }
  by apply (H (String.length s)).
Qed.

Lemma isPositionInString_unquoted (document : vscode.TextDocument)
      (l : Z) (t : string) (k : nat) :
  lineAt document l = Some t ->
  countQuotes (take_str k t) = 0 ->
  isPositionInString document
    {| vscode.line := l; vscode.character := Z.of_nat k |} = Some false.
Proof.
  intros Hline Hquotes. unfold isPositionInString.
  cbn [vscode.line vscode.character]. rewrite Hline. cbn [mbind option_bind].
  unfold substr0. rewrite Nat2Z.id.
  pose proof (countEscapedQuotes_bounds (take_str k t)) as Hb.
  replace (countEscapedQuotes (take_str k t)) with 0 by lia.
  by rewrite Hquotes.
Qed.

(** X26.  On a line with no double quote before its first [//], the
    positions in a comment are exactly those after the place where that
    [//] begins. *)
Theorem isPositionInComment_after_the_slashes
        (document : vscode.TextDocument) (position : vscode.Position)
        (t : string) (k : nat) :
  lineAt document (vscode.line position) = Some t ->
  indexOf t "//" = Some k ->
  countQuotes (take_str k t) = 0 ->
  isPositionInComment document position
  = Some (Z.of_nat k <? vscode.character position).
Proof.
  intros Hline Hidx Hquotes. unfold isPositionInComment.
  rewrite Hline. cbn [mbind option_bind]. rewrite Hidx.
  destruct (Z.of_nat k <? vscode.character position); [|done].
  by rewrite (isPositionInString_unquoted document _ t k).
Qed.

Lemma countQuotes_app (a b : string) :
  countQuotes (a +:+ b) = countQuotes a + countQuotes b.
Proof.
  induction a as [|c a IH]; str_simpl; [done|]. cbn [countQuotes]. lia.
Qed.

Lemma countQuotes_notQuote (s : string) :
  allOf cc_notQuote s = true -> countQuotes s = 0.
Proof.
  induction s as [|c s IH]; [done|]. cbn [allOf countQuotes].
  unfold cc_notQuote at 1, cc_not. intros [Hc Hs]%andb_true_iff.
  apply negb_true_iff in Hc. rewrite Hc, IH by done. done.
Qed.

Lemma allOf_take (p : charclass) (n : nat) (s : string) :
  allOf p s = true -> allOf p (take_str n s) = true.
Proof.
  revert s. induction n as [|n IH]; intros [|a s]; cbn [take_str allOf];
    try done.
  intros [Ha Hs]%andb_true_iff. by rewrite Ha, IH.
Qed.

Lemma take_str_app_more (u v : string) (n : nat) :
  take_str (String.length u + n) (u +:+ v) = u +:+ take_str n v.
Proof. induction u as [|a u IH]; str_simpl; [done|]. cbn. by rewrite IH. Qed.

Lemma take_str_app_less (u v : string) (n : nat) :
  (n <= String.length u)%nat -> take_str n (u +:+ v) = take_str n u.
Proof.
  revert n. induction u as [|a u IH]; intros [|n] Hn; str_simpl;
    cbn in *; try done; try lia.
  rewrite IH by lia. done.
Qed.

Lemma countEscapedQuotes_unescaped (u s : string) :
  allOf (cc_not "092") u = true ->
  countEscapedQuotes (u +:+ s) = countEscapedQuotes s.
Proof.
  induction u as [|a u IH]; str_simpl; [done|]. cbn [allOf].
  unfold cc_not at 1. intros [Ha Hu]%andb_true_iff.
  apply negb_true_iff in Ha. rewrite <- (IH Hu).
  destruct (u +:+ s) as [|b r] eqn:E.
  - done.
  - rewrite countEscapedQuotes_cons. by rewrite Ha.
Qed.

(** X27.  In a line that opens a string after a text with no double quote
    and no backslash, a position up to the opening quote is not in a
    string, and a position after it is, as far as the text after the
    quote has no double quote. *)
Theorem isPositionInString_within_literal
        (document : vscode.TextDocument) (position : vscode.Position)
        (before body rest : string) :
  lineAt document (vscode.line position)
    = Some (before +:+ DQ +:+ body +:+ rest) ->
  allOf cc_notQuote before = true ->
  allOf (cc_not "092") before = true ->
  allOf cc_notQuote body = true ->
  0 <= vscode.character position
       <= Z.of_nat (String.length before + 1 + String.length body) ->
  isPositionInString document position
  = Some (Z.of_nat (String.length before) <? vscode.character position).
Proof.
  intros Hline Hbq Hbs Hbody Hrange. unfold isPositionInString.
  rewrite Hline. cbn [mbind option_bind]. unfold substr0. f_equal.
  destruct (Z.ltb_spec (Z.of_nat (String.length before))
              (vscode.character position)) as [Hin|Hout].
  - assert (exists n, Z.to_nat (vscode.character position)
                      = (String.length before + S n)%nat
                      /\ (n <= String.length body)%nat) as (n & -> & Hn).
    { exists (Z.to_nat (vscode.character position) - String.length before - 1)%nat.
      lia. }
    rewrite take_str_app_more. unfold DQ. str_simpl. cbn [take_str].
    rewrite take_str_app_less by done.
    rewrite countQuotes_app, (countQuotes_notQuote before Hbq).
    rewrite countEscapedQuotes_unescaped by done.
    cbn [countQuotes]. change (Ascii.eqb "034" "034") with true.
    pose proof (allOf_take _ n body Hbody) as Htake.
    rewrite (countQuotes_notQuote _ Htake).
    pose proof (countEscapedQuotes_bounds (take_str n body)) as Hb.
    rewrite (countQuotes_notQuote _ Htake) in Hb.
    assert (countEscapedQuotes (String "034" (take_str n body)) = 0) as ->.
    { transitivity (countEscapedQuotes (take_str n body)); [|lia].
      by destruct (take_str n body). }
    done.
  - rewrite take_str_app_less by lia.
    pose proof (allOf_take _ (Z.to_nat (vscode.character position)) before Hbq)
      as Htake.
    pose proof (countEscapedQuotes_bounds
                  (take_str (Z.to_nat (vscode.character position)) before))
      as Hb.
    rewrite (countQuotes_notQuote _ Htake) in *.
    replace (countEscapedQuotes
               (take_str (Z.to_nat (vscode.character position)) before))
      with 0 by lia.
    done.
Qed.

(** *** [guessPackageNameFromFile] *)

Lemma splitBy_nonempty (p : charclass) (s : string) : splitBy p s <> [].
Proof.
  induction s as [|a s IH]; cbn [splitBy]; [done|].
  destruct (p a); [done|]. by destruct (splitBy p s).
Qed.

Lemma splitBy_no_separator (p : charclass) (s x : string) :
  x ∈ splitBy p s -> allOf (fun a => negb (p a)) x = true.
Proof.
  revert x. induction s as [|a s IH]; intros x; cbn [splitBy].
  - intros Hx. apply list_elem_of_singleton in Hx as ->. done.
  - pose proof (splitBy_nonempty p s) as Hne.
    destruct (p a) eqn:Ha.
    + intros Hx. apply elem_of_cons in Hx as [->|Hx]; [done|by apply IH].
    + destruct (splitBy p s) as [|h t]; [done|].
      intros Hx. apply elem_of_cons in Hx as [->|Hx].
      * cbn [allOf]. rewrite Ha. cbn [negb andb]. apply IH.
        apply list_elem_of_here.
      * apply IH. by apply list_elem_of_further.
Qed.

Section GuessPackageNameProperties.
Variables (basename dirname : string -> string).
Variable join2 : string -> string -> string.
Variable isFile : string -> bool.

(** X28.  The names guessed are [main] alone, or a name taken from the
    directory of the file, alone or followed by the same name with
    [_test]; that name is not empty, is not [go] and has neither dot nor
    dash. *)
Theorem guessPackageNameFromFile_names (filePath : string) (names : list string) :
  guessPackageNameFromFile basename dirname join2 isFile filePath = Some names ->
  names = ["main"]
  \/ exists p,
      (names = [p] \/ names = [p; p +:+ "_test"])
      /\ p ∈ splitBy cc_dotOrDash (basename (dirname filePath))
      /\ p <> "" /\ p <> "go"
      /\ allOf (fun a => negb (cc_dotOrDash a)) p = true.
Proof.
  unfold guessPackageNameFromFile.
  destruct (String.eqb (basename filePath) "main.go");
    [intros [= <-]; by left|].
  destruct (last _) as [p|] eqn:Hlast; [|done].
  apply last_Some_elem_of, list_elem_of_filter in Hlast as [Hgo Hin].
  destruct (bool_decide (is_Some (exec identifierRegex p))) eqn:Hid;
    cbn [negb]; [|done].
  apply bool_decide_eq_true in Hid as [m Hm].
  assert (p <> "") as Hne by (intros ->; by vm_compute in Hm).
  pose proof (splitBy_no_separator _ _ _ Hin) as Hsep.
  destruct (isFile _); [intros [= <-]; by left|].
  destruct (endsWith _ _); intros [= <-]; right; exists p; auto 10.
Qed.
End GuessPackageNameProperties.

Lemma isPositionInComment_after_the_slashes_witness :
  (lineAt commentedDocument 0 = Some "x := 1 // one"
   /\ indexOf "x := 1 // one" "//" = Some 7%nat
   /\ countQuotes (take_str 7 "x := 1 // one") = 0)
  /\ isPositionInComment commentedDocument
       {| vscode.line := 0; vscode.character := 9 |}
     = Some (Z.of_nat 7 <? 9).
Proof.
  assert (H : lineAt commentedDocument 0 = Some "x := 1 // one"
              /\ indexOf "x := 1 // one" "//" = Some 7%nat
              /\ countQuotes (take_str 7 "x := 1 // one") = 0).
  { split; [reflexivity|]. split; reflexivity. }
  split; [exact H|].
  apply (isPositionInComment_after_the_slashes commentedDocument
           {| vscode.line := 0; vscode.character := 9 |} "x := 1 // one" 7);
    [exact (proj1 H) | exact (proj1 (proj2 H)) | exact (proj2 (proj2 H))].
Defined.

Lemma isPositionInString_within_literal_witness :
  (lineAt quotedDocument 0 = Some ("s := " +:+ DQ +:+ "a//b" +:+ DQ)
   /\ allOf cc_notQuote "s := " = true
   /\ allOf (cc_not "092") "s := " = true
   /\ allOf cc_notQuote "a//b" = true
   /\ 0 <= 8 <= Z.of_nat (String.length "s := " + 1 + String.length "a//b"))
  /\ isPositionInString quotedDocument
       {| vscode.line := 0; vscode.character := 8 |}
     = Some (Z.of_nat (String.length "s := ") <? 8).
Proof.
  assert (H : lineAt quotedDocument 0 = Some ("s := " +:+ DQ +:+ "a//b" +:+ DQ)
              /\ allOf cc_notQuote "s := " = true
              /\ allOf (cc_not "092") "s := " = true
              /\ allOf cc_notQuote "a//b" = true
              /\ 0 <= 8 <= Z.of_nat (String.length "s := " + 1
                                     + String.length "a//b")).
  { split; [reflexivity|]. split; [reflexivity|]. split; [reflexivity|].
    split; [reflexivity|]. cbn. lia. }
  split; [exact H|].
  apply (isPositionInString_within_literal quotedDocument
           {| vscode.line := 0; vscode.character := 8 |} "s := " "a//b" DQ);
    [exact (proj1 H) | exact (proj1 (proj2 H))
     | exact (proj1 (proj2 (proj2 H)))
     | exact (proj1 (proj2 (proj2 (proj2 H))))
     | exact (proj2 (proj2 (proj2 (proj2 H))))].
Defined.

Lemma guessPackageNameFromFile_names_witness :
  guessPackageNameFromFile lastSegment butLastSegment
    (fun a b => a +:+ "/" +:+ b) (fun _ => false) "/src/go-i18n/a_test.go"
  = Some ["i18n"; "i18n_test"]
  /\ (["i18n"; "i18n_test"] = ["main"]
      \/ exists p,
          (["i18n"; "i18n_test"] = [p]
           \/ ["i18n"; "i18n_test"] = [p; p +:+ "_test"])
          /\ p ∈ splitBy cc_dotOrDash
                   (lastSegment (butLastSegment "/src/go-i18n/a_test.go"))
          /\ p <> "" /\ p <> "go"
          /\ allOf (fun a => negb (cc_dotOrDash a)) p = true).
Proof.
  assert (H : guessPackageNameFromFile lastSegment butLastSegment
                (fun a b => a +:+ "/" +:+ b) (fun _ => false)
                "/src/go-i18n/a_test.go"
              = Some ["i18n"; "i18n_test"]) by (vm_compute; reflexivity).
  split; [exact H|].
  apply (guessPackageNameFromFile_names lastSegment butLastSegment
           (fun a b => a +:+ "/" +:+ b) (fun _ => false)
           "/src/go-i18n/a_test.go"). exact H.
Defined.
